(** * addfootnote: a caption strip appended below an image

    Shallow embedding of [main.py] and proofs about its dimension
    resolver, its text wrapping and its command-line boundary.

    Python values are embedded as follows.
    - [int] is [Z] (arbitrary precision).
    - [str] is a list of code points; the code points are those below
      256, so a character is an [ascii] read as Latin-1.
    - [float] is IEEE 754 binary64, computed with the executable
      specification [SpecFloat] of the standard library.
    - a call that may raise returns a [result].
    - the Pillow library (images, fonts, colours, text measurement) is a
      collaborator: its operations are the fields of the class [PIL]. *)

From Stdlib Require Import ZArith Ascii String List Bool Lia.
From Stdlib Require Import Floats.SpecFloat DecimalString.
Import ListNotations.

#[local] Open Scope Z_scope.
#[local] Open Scope list_scope.

(* ================================================================== *)
(** * Part I: the program                                              *)
(* ================================================================== *)

(** ** Python built-ins *)

Module Py.

(** A Python string is the list of its characters. *)
Definition str : Type := list ascii.

(** [lit "abc"] is the Python literal ["abc"]. *)
Definition lit (s : string) : str := list_ascii_of_string s.
Arguments lit : simpl never.

Definition code (c : ascii) : Z := Z.of_N (N_of_ascii c).

Definition LF : ascii := "010"%char.
Definition SP : ascii := " "%char.
Definition TAB : ascii := "009"%char.
Definition CR : ascii := "013"%char.

Definition between (lo hi n : Z) : bool := (lo <=? n) && (n <=? hi).

(** [c.isspace()]: the characters removed by [strip()] and separating
    the words of [split()]. *)
Definition isspace (c : ascii) : bool :=
  let n := code c in
  between 9 13 n || between 28 32 n || (n =? 133) || (n =? 160).

(** A decimal digit, the class [\d] of [re] and the digits [int]
    accepts. *)
Definition isdecimal (c : ascii) : bool := between 48 57 (code c).

(** [c.isdigit()]: the decimal digits and the superscripts one, two
    and three. *)
Definition isdigit_char (c : ascii) : bool :=
  let n := code c in
  between 48 57 n || between 178 179 n || (n =? 185).

(** The class [\w] of [re] on [str] patterns. *)
Definition isword (c : ascii) : bool :=
  let n := code c in
  between 48 57 n || between 65 90 n || (n =? 95) || between 97 122 n
  || (n =? 170) || between 178 179 n || (n =? 181) || between 185 186 n
  || between 188 190 n || between 192 214 n || between 216 246 n
  || between 248 255 n.

Definition ishex (c : ascii) : bool :=
  let n := code c in
  between 48 57 n || between 65 70 n || between 97 102 n.

Definition eqc (a b : ascii) : bool := Ascii.eqb a b.
Arguments eqc : simpl never.

Fixpoint eqs (a b : str) : bool :=
  match a, b with
  | [], [] => true
  | x :: a', y :: b' => eqc x y && eqs a' b'
  | _, _ => false
  end.

Definition len (s : str) : Z := Z.of_nat (length s).

(** [not s], the truth value of a string. *)
Definition is_empty (s : str) : bool :=
  match s with [] => true | _ :: _ => false end.

(** [not l], the truth value of a list. *)
Definition is_nil {A} (l : list A) : bool :=
  match l with [] => true | _ :: _ => false end.

(** [c in s] for a one-character [c]. *)
Definition contains (c : ascii) (s : str) : bool := existsb (eqc c) s.

Fixpoint dropWhile (p : ascii -> bool) (s : str) : str :=
  match s with
  | [] => []
  | c :: s' => if p c then dropWhile p s' else s
  end.

Fixpoint takeWhile (p : ascii -> bool) (s : str) : str :=
  match s with
  | [] => []
  | c :: s' => if p c then c :: takeWhile p s' else []
  end.

Definition lstrip (s : str) : str := dropWhile isspace s.
Definition rstrip (s : str) : str := rev (dropWhile isspace (rev s)).

(** [s.strip()] *)
Definition strip (s : str) : str := rstrip (lstrip s).

(** [s.isdigit()]: non-empty and made of digit characters. *)
Definition isdigit (s : str) : bool :=
  negb (is_empty s) && forallb isdigit_char s.

(** [s.endswith(suffix)] *)
Definition endswith (s suffix : str) : bool :=
  eqs (skipn (length s - length suffix) s) suffix
  && (length suffix <=? length s)%nat.

(** [sep.join(parts)] *)
Fixpoint join (sep : str) (parts : list str) : str :=
  match parts with
  | [] => []
  | [p] => p
  | p :: rest => p ++ sep ++ join sep rest
  end.

(** [s.split(c)] for a one-character separator: the pieces between
    the occurrences of [c]; never the empty list. *)
Fixpoint split_on (c : ascii) (s : str) : list str :=
  match s with
  | [] => [[]]
  | x :: s' =>
      if eqc x c then [] :: split_on c s'
      else match split_on c s' with
           | [] => [[x]]
           | p :: ps => (x :: p) :: ps
           end
  end.

(** [s.split()]: the maximal runs of non-space characters.
    [cur] is the word being read, in reverse. *)
Fixpoint split_loop (cur : str) (s : str) : list str :=
  match s with
  | [] => match cur with [] => [] | _ => [rev cur] end
  | c :: s' =>
      if isspace c
      then match cur with
           | [] => split_loop [] s'
           | _ => rev cur :: split_loop [] s'
           end
      else split_loop (c :: cur) s'
  end.

Definition split (s : str) : list str := split_loop [] s.

(** [s.replace(a+b, [c])] for a two-character pattern [a b] and a
    one-character replacement: occurrences are found from the left and
    do not overlap. *)
Fixpoint replace2 (a b c : ascii) (s : str) : str :=
  match s with
  | [] => []
  | x :: t =>
      match t with
      | y :: r => if eqc x a && eqc y b then c :: replace2 a b c r
                  else x :: replace2 a b c t
      | [] => [x]
      end
  end.

(** Slice bounds: a negative index counts from the end, and the
    result is clamped to the string. *)
Definition clamp (s : str) (i : Z) : nat :=
  Z.to_nat (if i <? 0 then Z.max 0 (i + len s) else Z.min i (len s)).

(** [s[:i]] and [s[i:]] *)
Definition slice_to (s : str) (i : Z) : str := firstn (clamp s i) s.
Definition slice_from (s : str) (i : Z) : str := skipn (clamp s i) s.

(** The largest index below [length s] holding [c], or [-1]. *)
Fixpoint rindex (c : ascii) (s : str) : Z :=
  match s with
  | [] => -1
  | x :: s' =>
      let r := rindex c s' in
      if 0 <=? r then r + 1 else if eqc x c then 0 else -1
  end.

(** [s.rfind(c, 0, stop)] *)
Definition rfind (s : str) (c : ascii) (stop : Z) : Z :=
  rindex c (slice_to s stop).

(** [s.expandtabs(tabsize)]: a tab becomes the spaces that reach the
    next multiple of [tabsize]; the column restarts after a line
    feed or a carriage return. *)
Fixpoint expandtabs_loop (tabsize : Z) (col : Z) (s : str) : str :=
  match s with
  | [] => []
  | c :: s' =>
      if eqc c TAB then
        if 0 <? tabsize then
          let incr := tabsize - col mod tabsize in
          repeat SP (Z.to_nat incr) ++ expandtabs_loop tabsize (col + incr) s'
        else expandtabs_loop tabsize col s'
      else
        c :: expandtabs_loop tabsize
               (if eqc c LF || eqc c CR then 0 else col + 1) s'
  end.

Definition expandtabs (s : str) (tabsize : Z) : str :=
  expandtabs_loop tabsize 0 s.

(** *** Exceptions *)

Inductive exn : Type :=
| ValueError (msg : str)
| OverflowError (msg : str)
| ZeroDivisionError (msg : str)
| IOError (msg : str)
| OutOfFuel.
(** [OutOfFuel] is not a Python exception: it marks a loop of the model
    that used up its iteration bound.  Part II shows that it is never
    produced. *)

Inductive result (A : Type) : Type :=
| Return (a : A)
| Raise (e : exn).
Arguments Return {A} a.
Arguments Raise {A} e.

Definition bind {A B} (m : result A) (k : A -> result B) : result B :=
  match m with
  | Return a => k a
  | Raise e => Raise e
  end.

(** [for x in xs: out.append(f x)] *)
Fixpoint for_each {A B} (f : A -> result B) (xs : list A)
  : result (list B) :=
  match xs with
  | [] => Return []
  | x :: xs' =>
      bind (f x) (fun y =>
      bind (for_each f xs') (fun ys => Return (y :: ys)))
  end.

(** *** [int(s)] on digit strings

    Every call of [int] in the program is guarded by [isdigit()] or by
    a [\d] group, so its argument is a non-empty string of digit
    characters.  On those, [int] returns the decimal value when all
    characters are decimal digits and raises [ValueError] otherwise (a
    superscript digit passes [isdigit()] but is not a literal).

    The conversion is limited in length: [int] first counts the decimal
    digits the string begins with, and raises [ValueError] when there
    are more than [sys.get_int_max_str_digits()] of them, which is 4300
    unless the interpreter is told otherwise; the program does not
    change it. *)

(** [str(n)] for a small [int]. *)
Definition str_int (n : Z) : str :=
  lit (DecimalString.NilZero.string_of_int (Z.to_int n)).

Definition max_str_digits : Z := 4300.

Definition exceeds_limit (digits : Z) : exn :=
  ValueError
    (lit "Exceeds the limit (4300 digits) for integer string conversion: value has "
     ++ str_int digits
     ++ lit " digits; use sys.set_int_max_str_digits() to increase the limit").

Fixpoint int_loop (acc : Z) (s : str) : option Z :=
  match s with
  | [] => Some acc
  | c :: s' =>
      if isdecimal c then int_loop (10 * acc + (code c - 48)) s'
      else None
  end.

Definition invalid_literal (s : str) : exn :=
  ValueError (lit "invalid literal for int() with base 10: '" ++ s ++ lit "'").

Definition int (s : str) : result Z :=
  let digits := len (takeWhile isdecimal s) in
  if max_str_digits <? digits then Raise (exceeds_limit digits)
  else
    match s with
    | [] => Raise (invalid_literal s)
    | _ :: _ =>
        match int_loop 0 s with
        | Some n => Return n
        | None => Raise (invalid_literal s)
        end
    end.

(** *** Floating point *)

Definition prec : Z := 53.
Definition emax : Z := 1024.

Definition float : Type := spec_float.

(** [float(n)] for an [int]: rounded to nearest, ties to even. *)
Definition float_of_int (n : Z) : result float :=
  match binary_normalize prec emax n 0 false with
  | S754_infinity _ =>
      Raise (OverflowError (lit "int too large to convert to float"))
  | f => Return f
  end.

(** [a / b] on [int]s: the quotient, correctly rounded. *)
Definition int_truediv (a b : Z) : result float :=
  if b =? 0 then Raise (ZeroDivisionError (lit "division by zero"))
  else
    let sign := xorb (a <? 0) (b <? 0) in
    if a =? 0 then Return (S754_zero sign)
    else
      let '(q, e, l) := SFdiv_core_binary prec emax (Z.abs a) 0 (Z.abs b) 0 in
      match binary_round_aux prec emax sign q e l with
      | S754_infinity _ =>
          Raise (OverflowError
                   (lit "integer division result too large for a float"))
      | f => Return f
      end.

(** [n * x] for an [int] [n] and a [float] [x]. *)
Definition int_mul_float (n : Z) (x : float) : result float :=
  bind (float_of_int n) (fun fn => Return (SFmul prec emax fn x)).

(** [int(x)] for a [float]: truncation toward zero. *)
Definition int_of_float (x : float) : result Z :=
  match x with
  | S754_zero _ => Return 0
  | S754_finite s m e =>
      let mag := if 0 <=? e then Zpos m * 2 ^ e else Zpos m / 2 ^ (- e) in
      Return (if s then - mag else mag)
  | S754_infinity _ =>
      Raise (OverflowError (lit "cannot convert float infinity to integer"))
  | S754_nan =>
      Raise (ValueError (lit "cannot convert float NaN to integer"))
  end.

End Py.

Import Py.

Declare Scope py_scope.
Notation "x <- m ;; k" := (bind m (fun x => k))
  (at level 100, m at next level, right associativity) : py_scope.
#[local] Open Scope py_scope.

(** ** The regular expressions of the program

    Each pattern the program passes to [re.fullmatch] is a fixed one; it
    is embedded as the matcher it denotes. *)

Module re.

(** The part [(\d+)%?] of the pattern below, up to the end of the
    string: the digits on a match. *)
Definition digits_percent (s1 : str) : option str :=
  let digits := takeWhile isdecimal s1 in
  let rest := dropWhile isdecimal s1 in
  match digits with
  | [] => None
  | _ :: _ =>
      match rest with
      | [] => Some digits
      | [c] => if eqc c "%" then Some digits else None
      | _ => None
      end
  end.

(** [re.fullmatch(r"%?(\d+)%?", s)]: the text of group 1 on a match.
    Both quantifiers are greedy and neither can give a character back:
    after [%?] the next character must be a digit, and after [\d+] it
    must be [%] or the end. *)
Definition fullmatch_percent (s : str) : option str :=
  match s with
  | c :: t => if eqc c "%" then digits_percent t else digits_percent s
  | [] => digits_percent s
  end.

(** [\d{1,3}] *)
Definition digits_1_3 (p : str) : bool :=
  forallb isdecimal p && (1 <=? length p)%nat && (length p <=? 3)%nat.

(** [re.fullmatch(r"\d{1,3},\d{1,3},\d{1,3}", s)] *)
Definition fullmatch_rgb (s : str) : bool :=
  match split_on "," s with
  | [a; b; c] => digits_1_3 a && digits_1_3 b && digits_1_3 c
  | _ => false
  end.

(** [re.fullmatch(r"[0-9a-fA-F]{6}|[0-9a-fA-F]{3}", s)] *)
Definition fullmatch_hex (s : str) : bool :=
  forallb ishex s && ((length s =? 6)%nat || (length s =? 3)%nat).

End re.

(** ** The standard module [textwrap]

    The module is embedded as it stands in CPython 3.11.
    [textwrap.fill(text, width=w)] builds a [TextWrapper] with the default
    options: no indents, [expand_tabs], [replace_whitespace],
    [drop_whitespace], [break_long_words] and [break_on_hyphens] set,
    [fix_sentence_endings] unset, [tabsize=8], no [max_lines]. *)

Module textwrap.

(** [_whitespace = '\t\n\x0b\x0c\r '] *)
Definition whitespace (c : ascii) : bool :=
  between 9 13 (code c) || (code c =? 32).

(** [letter = r'[^\d\W]'] *)
Definition letter (c : ascii) : bool := isword c && negb (isdecimal c).

(** [word_punct]: a word character or one of the seven punctuation
    marks of the class (exclamation mark, double quote, apostrophe,
    ampersand, full stop, comma, question mark). *)
Definition word_punct (c : ascii) : bool :=
  isword c
  || existsb (eqc c) [ "!"; "034"; "'"; "&"; "."; ","; "?" ]%char.

(** [_munge_whitespace] *)
Definition munge_whitespace (text : str) : str :=
  map (fun c => if whitespace c then SP else c) (expandtabs text 8).

(** *** [wordsep_re]

    The pattern is one group of three alternatives: a run of whitespace;
    an em-dash between words; a word, taken lazily up to a hyphenation
    point, the end of the word, or an em-dash.  In the functions below
    [before] is the text to the left of the current position, nearest
    character first, and [s] the text to its right. *)

Definition hyphens (s : str) : nat := length (takeWhile (eqc "-") s).

(** [(?=-{2,}\w)], which is also what [-{2,}(?=\w)] needs. *)
Definition emdash_ahead (s : str) : bool :=
  (2 <=? hyphens s)%nat
  && match skipn (hyphens s) s with
     | c :: _ => isword c
     | [] => false
     end.

(** [(?<=wp)] *)
Definition punct_behind (before : str) : bool :=
  match before with
  | b :: _ => word_punct b
  | [] => false
  end.

(** [(?= lt -? lt)] *)
Definition letters_ahead (s : str) : bool :=
  match s with
  | a :: b :: r =>
      letter a
      && (letter b
          || (eqc b "-" && match r with c :: _ => letter c | [] => false end))
  | _ => false
  end.

(** [(?<=lt{2}-) | (?<=lt-lt-)], read just after the hyphen; [before]
    is the text to the left of that hyphen. *)
Definition hyphen_behind (before : str) : bool :=
  match before with
  | b1 :: b2 :: r =>
      letter b1
      && (letter b2
          || (eqc b2 "-"
              && match r with b3 :: _ => letter b3 | [] => false end))
  | _ => false
  end.

(** The third alternative after its first character: the number of
    further characters of the match.  At each length the three endings
    are tried in the order of the pattern; otherwise one more
    non-whitespace character is taken. *)
Fixpoint word_rest (before s : str) : nat :=
  match s with
  | [] => O
  | c :: s' =>
      if eqc c "-" && hyphen_behind before && letters_ahead s' then 1%nat
      else if whitespace c then O
      else if punct_behind before && emdash_ahead s then O
      else S (word_rest (c :: before) s')
  end.

(** The length of the match of [wordsep_re] at the current position. *)
Definition wordsep_match (before s : str) : nat :=
  match s with
  | [] => O
  | c :: s' =>
      if whitespace c then length (takeWhile whitespace s)
      else if punct_behind before && emdash_ahead s then hyphens s
      else S (word_rest (c :: before) s')
  end.

(** [[c for c in wordsep_re.split(text) if c]].  A match starts at every
    position where the previous one ended, so the pieces between the
    matches are empty and the chunks are the matches.  [fuel] bounds the
    number of matches; the length of the text is enough. *)
Fixpoint wordsep_split (fuel : nat) (before s : str) : list str :=
  match fuel with
  | O => []
  | S fuel' =>
      match s with
      | [] => []
      | _ :: _ =>
          let n := wordsep_match before s in
          firstn n s
          :: wordsep_split fuel' (rev (firstn n s) ++ before) (skipn n s)
      end
  end.

(** [_split_chunks] *)
Definition split_chunks (text : str) : list str :=
  let text := munge_whitespace text in
  wordsep_split (length text) [] text.

(** [c.strip() == ''] *)
Definition blank (c : str) : bool := is_empty (strip c).

(** [_handle_long_word], with [break_long_words] and [break_on_hyphens]
    set.  [chunks] is the stack [reversed_chunks], top first.  The result
    is the new stack and the new [cur_line]. *)
Definition handle_long_word (chunks cur_line : list str) (cur_len width : Z)
  : list str * list str :=
  let space_left := if width <? 1 then 1 else width - cur_len in
  match chunks with
  | [] => (chunks, cur_line)
  | chunk :: below =>
      let hyphen := rfind chunk "-" space_left in
      let stop :=
        if (space_left <? len chunk)
           && (0 <? hyphen)
           && existsb (fun c => negb (eqc c "-")) (slice_to chunk hyphen)
        then hyphen + 1
        else space_left in
      (slice_from chunk stop :: below, cur_line ++ [slice_to chunk stop])
  end.

(** The inner loop of [_wrap_chunks]: chunks are popped onto the current
    line while they fit. *)
Fixpoint fit (width : Z) (cur_line : list str) (cur_len : Z)
  (chunks : list str) : list str * Z * list str :=
  match chunks with
  | [] => (cur_line, cur_len, [])
  | c :: below =>
      if cur_len + len c <=? width
      then fit width (cur_line ++ [c]) (cur_len + len c) below
      else (cur_line, cur_len, chunks)
  end.

(** The blocks of one pass of the outer loop of [_wrap_chunks], named
    after their comments in the module. *)

(** "First chunk on line is whitespace -- drop it, unless this is the
    very beginning of the text (ie. no lines started yet)." *)
Definition drop_leading (chunks lines : list str) : list str :=
  match chunks with
  | top :: below =>
      if blank top && negb (is_nil lines) then below else chunks
  | [] => chunks
  end.

(** "The current line is full, and the next chunk is too big to fit on
    any line (not just this one)." *)
Definition break_long (width : Z) (chunks cur_line : list str) (cur_len : Z)
  : list str * list str :=
  match chunks with
  | c :: _ =>
      if width <? len c then handle_long_word chunks cur_line cur_len width
      else (chunks, cur_line)
  | [] => (chunks, cur_line)
  end.

(** "If the last chunk on this line is all whitespace, drop it." *)
Definition drop_trailing (cur_line : list str) : list str :=
  match cur_line with
  | [] => cur_line
  | _ :: _ => if blank (last cur_line []) then removelast cur_line
              else cur_line
  end.

(** One pass of the outer loop on a non-empty stack: the stack and the
    lines after it. *)
Definition wrap_step (width : Z) (chunks lines : list str)
  : list str * list str :=
  let chunks := drop_leading chunks lines in
  let '(cur_line, cur_len, chunks) := fit width [] 0 chunks in
  let '(chunks, cur_line) := break_long width chunks cur_line cur_len in
  let cur_line := drop_trailing cur_line in
  match cur_line with
  | [] => (chunks, lines)
  | _ :: _ => (chunks, lines ++ [concat cur_line])
  end.

(** The outer loop, [while chunks:]. *)
Fixpoint wrap_loop (fuel : nat) (width : Z) (chunks lines : list str)
  : option (list str) :=
  match fuel with
  | O => None
  | S fuel' =>
      match chunks with
      | [] => Some lines
      | _ :: _ =>
          let '(chunks', lines') := wrap_step width chunks lines in
          wrap_loop fuel' width chunks' lines'
      end
  end.

(** Every pass removes a chunk or a character, so this many passes are
    enough. *)
Definition weight (chunks : list str) : nat :=
  fold_right (fun c n => S (length c + n)) O chunks.

(** [repr(n)] of an [int], as [%r] formats the width in the message of
    [_wrap_chunks].  [repr] of an [int] of more than 4300 digits raises
    instead; a width the program passes is a resolved dimension divided
    by five, which has no more digits than [int] converts. *)
Definition repr_int (n : Z) : str :=
  lit (DecimalString.NilZero.string_of_int (Z.to_int n)).

(** [_wrap_chunks] *)
Definition wrap_chunks (width : Z) (chunks : list str) : result (list str) :=
  if width <=? 0
  then Raise (ValueError (lit "invalid width " ++ repr_int width
                          ++ lit " (must be > 0)"))
  else match wrap_loop (S (weight chunks)) width chunks [] with
       | Some lines => Return lines
       | None => Raise OutOfFuel
       end.

(** [textwrap.wrap(text, width)] *)
Definition wrap (text : str) (width : Z) : result (list str) :=
  wrap_chunks width (split_chunks text).

(** [textwrap.fill(text, width)] *)
Definition fill (text : str) (width : Z) : result str :=
  lines <- wrap text width ;;
  Return (join [LF] lines).

End textwrap.

(** ** The Pillow library

    The program imports [Image], [ImageDraw], [ImageFont] and
    [ImageColor] from [PIL].  What it uses of them is collected in one
    interface.  An image is a value: an operation that changes an image in
    place returns the changed image.  The drawing handle of an image,
    [ImageDraw.Draw(im)], is identified with the image. *)

Definition color : Type := list Z.
Definition box : Type := (Z * Z * Z * Z)%type.

Class PIL : Type := {
  Image : Type;
  FreeTypeFont : Type;
  (** [Image.open(path).convert("RGB")] *)
  Image_open : str -> result Image;
  (** [im.size] *)
  Image_size : Image -> Z * Z;
  (** [Image.new("RGB", size, color)] *)
  Image_new : Z * Z -> color -> Image;
  (** [im.paste(other, xy)] *)
  Image_paste : Image -> Image -> Z * Z -> Image;
  (** [im.save(path)]: [None] when the file was written. *)
  Image_save : Image -> str -> option exn;
  (** [draw.multiline_textbbox(xy, text, font=, spacing=, align=)] *)
  multiline_textbbox : Image -> Z * Z -> str -> FreeTypeFont -> Z -> str -> box;
  (** [draw.multiline_text(xy, text, fill=, font=, spacing=, align=)] *)
  multiline_text :
    Image -> Z * Z -> str -> color -> FreeTypeFont -> Z -> str -> Image;
  (** [ImageFont.truetype(path, size)] *)
  truetype : str -> Z -> result FreeTypeFont;
  (** [ImageFont.load_default()] *)
  load_default : FreeTypeFont;
  (** [ImageColor.getrgb(color)] *)
  getrgb : str -> result color
}.

(** ** The outside world

    What a run leaves behind: the image files written, in order, and the
    lines printed on the two output streams. *)

Record World `{PIL} : Type := mkWorld {
  files : list (str * Image);
  stdout : list str;
  stderr : list str
}.
Arguments mkWorld {_} _ _ _.

(** A statement of [process_image] or [main]: it reads and changes the
    world and returns or raises. *)
Definition IO `{PIL} (A : Type) : Type := World -> result A * World.

Definition io_bind `{PIL} {A B} (m : IO A) (k : A -> IO B) : IO B :=
  fun w =>
    match m w with
    | (Return a, w') => k a w'
    | (Raise e, w') => (Raise e, w')
    end.

(** A computation without effect on the world. *)
Definition pure `{PIL} {A} (r : result A) : IO A := fun w => (r, w).

(** [im.save(path)] *)
Definition save `{PIL} (im : Image) (path : str) : IO unit :=
  fun w =>
    match Image_save im path with
    | Some e => (Raise e, w)
    | None =>
        (Return tt,
         mkWorld (files w ++ [(path, im)]) (stdout w) (stderr w))
    end.

(** [print(line)] *)
Definition print `{PIL} (line : str) : IO unit :=
  fun w => (Return tt, mkWorld (files w) (stdout w ++ [line]) (stderr w)).

Notation "x <~ m ;; k" := (io_bind m (fun x => k))
  (at level 100, m at next level, right associativity) : py_scope.

(** ** main.py *)

Section Program.

Context `{PIL}.

(** The width of a bounding box, [bbox[2] - bbox[0]], and its height,
    [bbox[3] - bbox[1]]. *)
Definition box_width (b : box) : Z := let '(x0, _, x1, _) := b in x1 - x0.
Definition box_height (b : box) : Z := let '(_, y0, _, y1) := b in y1 - y0.

(** The loop of [wrap_text]: the state is [lines] and [current]. *)
Fixpoint wrap_text_loop (draw : Image) (font : FreeTypeFont)
  (max_width spacing : Z) (words lines : list str) (current : str)
  : list str * str :=
  match words with
  | [] => (lines, current)
  | word :: words' =>
      let test := if is_empty current then word
                  else current ++ lit " " ++ word in
      let bbox :=
        multiline_textbbox draw (0, 0) test font spacing (lit "left") in
      let text_width := box_width bbox in
      if text_width <=? max_width
      then wrap_text_loop draw font max_width spacing words' lines test
      else
        let lines := if negb (is_empty current) then lines ++ [current]
                     else lines in
        wrap_text_loop draw font max_width spacing words' lines word
  end.

(** [wrap_text(draw, text, font, max_width, spacing)]; the program's
    default for [spacing] is 4. *)
Definition wrap_text (draw : Image) (text : str) (font : FreeTypeFont)
  (max_width spacing : Z) : str :=
  let words := split text in
  let '(lines, current) :=
    wrap_text_loop draw font max_width spacing words [] [] in
  let lines := if negb (is_empty current) then lines ++ [current]
               else lines in
  join [LF] lines.

(** [int(base * (percent / 100))] *)
Definition percent_of (base percent : Z) : result Z :=
  q <- int_truediv percent 100 ;;
  x <- int_mul_float base q ;;
  int_of_float x.

Definition parse_padding (padding_str : str) (image_height : Z) : result Z :=
  let padding_str := strip padding_str in
  let percent_match := re.fullmatch_percent padding_str in
  match contains "%" padding_str, percent_match with
  | true, Some group1 =>
      percent <- int group1 ;;
      percent_of image_height percent
  | _, _ =>
      if isdigit padding_str then int padding_str
      else Raise (ValueError (lit "Invalid padding value: " ++ padding_str))
  end.

Definition parse_pixels_or_percent (value : str) (base : Z) : result Z :=
  let value := strip value in
  let percent_match := re.fullmatch_percent value in
  match contains "%" value, percent_match with
  | true, Some group1 =>
      percent <- int group1 ;;
      percent_of base percent
  | _, _ =>
      if isdigit value then int value
      else Raise (ValueError (lit "Invalid value: " ++ value))
  end.

Definition in_byte_range (v : Z) : bool := (0 <=? v) && (v <=? 255).

Definition parse_color (color_str : str) : result color :=
  let color_str := strip color_str in
  if re.fullmatch_rgb color_str then
    rgb <- for_each int (split_on "," color_str) ;;
    if forallb in_byte_range rgb then Return rgb
    else Raise (ValueError (lit "RGB values must be between 0 and 255"))
  else
    let color_str := if re.fullmatch_hex color_str then lit "#" ++ color_str
                     else color_str in
    match getrgb color_str with
    | Raise (ValueError _) =>
        Raise (ValueError (lit "Invalid color value: " ++ color_str))
    | r => r
    end.

(** [except IOError] catches the errors of the operating system, which
    is what [IOError] stands for here. *)
Definition load_font (font_path : str) (font_size : Z) : result FreeTypeFont :=
  let font_path := if negb (endswith font_path (lit ".ttf"))
                   then font_path ++ lit ".ttf" else font_path in
  let attempt :=
    if negb (is_empty font_path) then truetype font_path font_size
    else truetype (lit "arial.ttf") font_size in
  match attempt with
  | Raise (IOError _) => Return load_default
  | r => r
  end.

Definition wrap_for_multiline (draw : Image) (text : str)
  (font : FreeTypeFont) (max_width : Z) : result str :=
  let text := replace2 "\" "n" LF text in
  let approx_chars_per_line := max_width / 5 in
  wrapped_blocks <-
    for_each
      (fun paragraph =>
         if is_empty (strip paragraph) then Return []
         else textwrap.fill paragraph approx_chars_per_line)
      (split_on LF text) ;;
  Return (join [LF] wrapped_blocks).

(** The two alignment blocks of [process_image]. *)
Definition origin_y (valign : str) (height bottom_padding text_height : Z)
  : Z :=
  if eqs valign (lit "top") then height + 10
  else if eqs valign (lit "bottom")
       then height + bottom_padding - text_height - 10
       else height + (bottom_padding - text_height) / 2.

Definition origin_x (align : str) (width text_width : Z) : Z :=
  if eqs align (lit "left") then 20
  else if eqs align (lit "right") then width - text_width - 20
       else (width - text_width) / 2.

Definition process_image
  (input_image output_image comment padding bg_color text_color
   font_path : str) (font_size : Z) (align valign wrap_width : str)
  : IO unit :=
  img <~ pure (Image_open input_image) ;;
  let '(width, height) := Image_size img in
  bottom_padding <~ pure (parse_padding padding height) ;;
  bg_rgb <~ pure (parse_color bg_color) ;;
  text_rgb <~ pure (parse_color text_color) ;;
  let new_img := Image_new (width, height + bottom_padding) bg_rgb in
  let new_img := Image_paste new_img img (0, 0) in
  let draw := new_img in
  font <~ pure (load_font font_path font_size) ;;
  max_text_width <~ pure (parse_pixels_or_percent wrap_width width) ;;
  wrapped_text <~ pure (wrap_for_multiline draw comment font max_text_width) ;;
  let bbox := multiline_textbbox draw (0, 0) wrapped_text font 4 align in
  let text_width := box_width bbox in
  let text_height := box_height bbox in
  let y := origin_y valign height bottom_padding text_height in
  let x := origin_x align width text_width in
  let new_img :=
    multiline_text draw (x, y) wrapped_text text_rgb font 4 align in
  _ <~ save new_img output_image ;;
  print (lit "[+] Saved output image to: " ++ output_image).

(** The parsed command line, [args = parser.parse_args()].  The parser
    admits only [left], [center], [right] for [align] and [top],
    [middle], [bottom] for [valign]. *)
Record Args : Type := mkArgs {
  arg_input : str;
  arg_output : str;
  arg_comment : str;
  arg_padding : str;
  arg_bg_color : str;
  arg_text_color : str;
  arg_font : str;
  arg_font_size : Z;
  arg_align : str;
  arg_valign : str;
  arg_wrap_width : str
}.

(** The defaults of the optional arguments. *)
Definition default_args (input output comment : str) : Args :=
  mkArgs input output comment (lit "200") (lit "black") (lit "white")
    (lit "arial") 16 (lit "left") (lit "top") (lit "90%").

(** [parser.error(message)] writes the message to the error stream and
    exits with status 2. *)
Definition parser_error (message : str) (w : World) : Z * World :=
  (2, mkWorld (files w) (stdout w) (stderr w ++ [lit "error: " ++ message])).

(** An exception that nothing catches ends the process with status 1 and
    a traceback on the error stream. *)
Definition uncaught (w : World) : Z * World :=
  (1, mkWorld (files w) (stdout w) (stderr w ++ [lit "Traceback"])).

(** [main()] after [parse_args]: the exit status and the world. *)
Definition main (args : Args) (w : World) : Z * World :=
  match process_image (arg_input args) (arg_output args) (arg_comment args)
          (arg_padding args) (arg_bg_color args) (arg_text_color args)
          (arg_font args) (arg_font_size args) (arg_align args)
          (arg_valign args) (arg_wrap_width args) w with
  | (Return _, w') => (0, w')
  | (Raise (ValueError msg), w') => parser_error msg w'
  | (Raise _, w') => uncaught w'
  end.

End Program.

(** ** The specification's vocabulary *)

(** The dimension grammar of the specification, [^%?\d+%?$]: an optional
    percent sign, one or more decimal digits, an optional percent
    sign. *)
Definition dimension_grammar (s : str) : Prop :=
  exists pre digits post,
    s = pre ++ digits ++ post
    /\ (pre = [] \/ pre = lit "%")
    /\ digits <> []
    /\ forallb isdecimal digits = true
    /\ (post = [] \/ post = lit "%").

(** The digits of a string that matches the grammar. *)
Definition digits_of (s : str) : str := filter isdecimal s.

(** The number a string of decimal digits denotes. *)
Definition decimal_value (digits : str) : Z :=
  fold_left (fun acc c => 10 * acc + (code c - 48)) digits 0.

(** The measured width of one line of text, as [wrap_text] takes it. *)
Definition measured_width `{PIL} (draw : Image) (font : FreeTypeFont)
  (spacing : Z) (line : str) : Z :=
  box_width (multiline_textbbox draw (0, 0) line font spacing (lit "left")).

(** A line fits when its measured width is at most the wrap width. *)
Definition fits `{PIL} (draw : Image) (font : FreeTypeFont)
  (max_width spacing : Z) (line : str) : bool :=
  measured_width draw font spacing line <=? max_width.

(** A line of [wrap_text]: its words, joined by single spaces. *)
Definition line_of (words : list str) : str := join (lit " ") words.

(** The greedy word wrap of the specification, on the words of a
    paragraph: [greedy fits current words groups] says that, with the
    words [current] on the line in progress, the words [words] are put on
    the lines [groups].  The first word of a line is taken as it is; a
    further word joins the line when the candidate line fits; otherwise
    the line is emitted and the word starts the next line; the line in
    progress, if any, is emitted after the last word. *)
Inductive greedy (fits : str -> bool)
  : list str -> list str -> list (list str) -> Prop :=
| greedy_none : greedy fits [] [] []
| greedy_last (current : list str) :
    current <> [] -> greedy fits current [] [current]
| greedy_first (word : str) (words : list str) (groups : list (list str)) :
    greedy fits [word] words groups ->
    greedy fits [] (word :: words) groups
| greedy_join (current : list str) (word : str) (words : list str)
    (groups : list (list str)) :
    current <> [] ->
    fits (line_of (current ++ [word])) = true ->
    greedy fits (current ++ [word]) words groups ->
    greedy fits current (word :: words) groups
| greedy_break (current : list str) (word : str) (words : list str)
    (groups : list (list str)) :
    current <> [] ->
    fits (line_of (current ++ [word])) = false ->
    greedy fits [word] words groups ->
    greedy fits current (word :: words) (current :: groups).

(** A word of [split()]: non-empty and free of whitespace. *)
Definition is_word (w : str) : Prop :=
  w <> [] /\ forallb (fun c => negb (isspace c)) w = true.

(** [carved text lines]: the lines are cut out of the text from left to
    right, and what lies before, between and after them is whitespace. *)
Inductive carved : str -> list str -> Prop :=
| carved_end (gap : str) :
    forallb isspace gap = true -> carved gap []
| carved_line (gap line rest : str) (lines : list str) :
    forallb isspace gap = true ->
    carved rest lines ->
    carved (gap ++ line ++ rest) (line :: lines).

(** A character [_munge_whitespace] leaves as it is: a space, or no
    whitespace of [textwrap]. *)
Definition plain (c : ascii) : bool :=
  negb (textwrap.whitespace c) || eqc c SP.

(** [no_pair a b s]: nowhere in [s] is an [a] followed by a [b]. *)
Fixpoint no_pair (a b : ascii) (s : str) : bool :=
  match s with
  | [] => true
  | x :: t =>
      match t with
      | [] => true
      | y :: _ => negb (eqc x a && eqc y b) && no_pair a b t
      end
  end.

(** The text holds no escaped line break, a backslash followed by [n]. *)
Definition no_escape (s : str) : bool := no_pair "\" "n" s.

(** [wrapped_block width paragraph block]: what [wrap_for_multiline]
    makes of one paragraph.  A paragraph of whitespace gives the empty
    block; another one gives the lines of [textwrap.wrap], joined by
    line feeds, which are carved out of its chunks and within the
    width. *)
Definition wrapped_block (width : Z) (paragraph block : str) : Prop :=
  (strip paragraph = [] /\ block = [])
  \/ (strip paragraph <> []
      /\ exists lines,
           textwrap.wrap paragraph width = Return lines
           /\ block = join [LF] lines
           /\ carved (concat (textwrap.split_chunks paragraph)) lines
           /\ Forall (fun l => len l <= width) lines).

(** The paragraphs of a caption: the pieces between the line breaks,
    after the escaped line breaks have been made real. *)
Definition paragraphs (text : str) : list str :=
  split_on LF (replace2 "\" "n" LF text).

(** A float that is a number: a zero or a finite value. *)
Definition is_number (x : float) : Prop :=
  match x with
  | S754_zero _ | S754_finite _ _ _ => True
  | _ => False
  end.

(** The line [process_image] prints on success. *)
Definition confirmation (output_image : str) : str :=
  lit "[+] Saved output image to: " ++ output_image.

(** The last character of a line is not whitespace (or the line is
    empty). *)
Definition ends_in_text (line : str) : bool :=
  match rev line with
  | [] => true
  | c :: _ => negb (isspace c)
  end.

(** ** A deterministic stand-in for Pillow

    Used to run the program on concrete inputs: an image is its size, a
    font is its size, every character is ten pixels wide and every line
    sixteen pixels high. *)

Definition demo_bbox (text : str) (spacing : Z) : box :=
  let lines := split_on LF text in
  let widest := fold_right (fun l m => Z.max (len l) m) 0 lines in
  let rows := Z.of_nat (length lines) in
  (0, 0, 10 * widest, 16 * rows + spacing * (rows - 1)).

Definition demo_pil : PIL := {|
  Image := Z * Z;
  FreeTypeFont := Z;
  Image_open := fun path =>
    if eqs path (lit "in.png") then Return (400, 300)
    else Raise (IOError (lit "No such file or directory"));
  Image_size := fun im => im;
  Image_new := fun size _ => size;
  Image_paste := fun im _ _ => im;
  Image_save := fun _ _ => None;
  multiline_textbbox := fun _ _ text _ spacing _ => demo_bbox text spacing;
  multiline_text := fun im _ _ _ _ _ _ => im;
  truetype := fun path size =>
    if eqs path (lit "arial.ttf") then Return size
    else Raise (IOError (lit "cannot open resource"));
  load_default := 10;
  getrgb := fun name =>
    if eqs name (lit "black") then Return [0; 0; 0]
    else if eqs name (lit "white") then Return [255; 255; 255]
    else Raise (ValueError (lit "unknown color specifier"))
|}.

Definition demo_image (width height : Z) : @Image demo_pil := (width, height).

(** The same stand-in with the size check of Pillow's [truetype] (from
    Pillow 10.1 on): a font size that is not positive is refused with
    [ValueError] before the font file is looked for. *)
Definition sized_pil : PIL := {|
  Image := Z * Z;
  FreeTypeFont := Z;
  Image_open := @Image_open demo_pil;
  Image_size := @Image_size demo_pil;
  Image_new := @Image_new demo_pil;
  Image_paste := @Image_paste demo_pil;
  Image_save := @Image_save demo_pil;
  multiline_textbbox := @multiline_textbbox demo_pil;
  multiline_text := @multiline_text demo_pil;
  truetype := fun path size =>
    if size <=? 0
    then Raise (ValueError (lit "font size must be greater than 0"))
    else @truetype demo_pil path size;
  load_default := @load_default demo_pil;
  getrgb := @getrgb demo_pil
|}.

Definition demo_world : @World demo_pil := mkWorld [] [] [].

(** ** Vocabulary of the further properties *)

(** The characters of a text that are not whitespace, in their order. *)
Definition ink (s : str) : str := filter (fun c => negb (isspace c)) s.

(** A line the wrap step has nothing to do on at [width]: an empty line,
    or a line of plain characters that ends in text and is within the
    width. *)
Definition settled_line (width : Z) (line : str) : Prop :=
  line = []
  \/ (forallb plain line = true
      /\ len line <= width
      /\ ends_in_text line = true).

(** A float that is not below zero. *)
Definition not_negative (x : float) : Prop :=
  match x with
  | S754_finite true _ _ => False
  | _ => True
  end.

(** The message of [textwrap] for a width that is not positive. *)
Definition invalid_width (width : Z) : exn :=
  ValueError (lit "invalid width " ++ textwrap.repr_int width
              ++ lit " (must be > 0)").

(* ================================================================== *)
(** * Part II: properties                                              *)
(* ================================================================== *)

(** ** Strings *)

Lemma eqc_eq (a b : ascii) : eqc a b = true <-> a = b.
Proof. apply Ascii.eqb_eq. Qed.

Lemma eqc_refl (a : ascii) : eqc a a = true.
Proof. apply Ascii.eqb_refl. Qed.

Lemma eqs_eq (a b : str) : eqs a b = true <-> a = b.
Proof.
  revert b; induction a as [|x a IH]; intros [|y b]; simpl;
    try (split; [discriminate | discriminate]); try tauto.
  rewrite andb_true_iff, eqc_eq, IH. split.
  - intros [-> ->]; reflexivity.
  - intros E; injection E; auto.
Qed.

Lemma take_drop_while (p : ascii -> bool) (s : str) :
  takeWhile p s ++ dropWhile p s = s.
Proof.
  induction s as [|c s IH]; simpl; [reflexivity|].
  destruct (p c); simpl; [now rewrite IH | reflexivity].
Qed.

Lemma takeWhile_all (p : ascii -> bool) (s : str) :
  forallb p (takeWhile p s) = true.
Proof.
  induction s as [|c s IH]; simpl; [reflexivity|].
  destruct (p c) eqn:E; simpl; [now rewrite E | reflexivity].
Qed.

Lemma dropWhile_head (p : ascii -> bool) (s : str) c r :
  dropWhile p s = c :: r -> p c = false.
Proof.
  induction s as [|x s IH]; simpl; [discriminate|].
  destruct (p x) eqn:E; [exact IH|].
  intros Q; injection Q as -> _; exact E.
Qed.

Lemma takeWhile_app (p : ascii -> bool) (a b : str) :
  forallb p a = true ->
  takeWhile p (a ++ b) = a ++ takeWhile p b.
Proof.
  induction a as [|c a IH]; simpl; [reflexivity|].
  rewrite andb_true_iff; intros [-> Ha]. now rewrite IH.
Qed.

Lemma dropWhile_app (p : ascii -> bool) (a b : str) :
  forallb p a = true ->
  dropWhile p (a ++ b) = dropWhile p b.
Proof.
  induction a as [|c a IH]; simpl; [reflexivity|].
  rewrite andb_true_iff; intros [-> Ha]. now rewrite IH.
Qed.

Lemma dropWhile_all (p : ascii -> bool) (s : str) :
  forallb p s = true -> dropWhile p s = [].
Proof.
  intros Hs. rewrite <- (app_nil_r s). now rewrite dropWhile_app.
Qed.

Lemma dropWhile_app_keep (p : ascii -> bool) (a b : str) :
  forallb p a = false ->
  dropWhile p (a ++ b) = dropWhile p a ++ b.
Proof.
  induction a as [|c a IH]; simpl; [discriminate|].
  destruct (p c); simpl; [exact IH | reflexivity].
Qed.

(** [(" " + s + " ").strip() == s.strip()] *)
Lemma strip_padded (s : str) : strip (lit " " ++ s ++ lit " ") = strip s.
Proof.
  unfold strip, lstrip. change (lit " ") with [SP]. simpl.
  destruct (forallb isspace s) eqn:E.
  - rewrite dropWhile_app by exact E. rewrite (dropWhile_all _ _ E).
    reflexivity.
  - rewrite dropWhile_app_keep by exact E.
    unfold rstrip. rewrite rev_app_distr. reflexivity.
Qed.

(** ** Integers and floats *)

Lemma int_loop_value (s : str) (acc : Z) :
  forallb isdecimal s = true ->
  int_loop acc s = Some (fold_left (fun a c => 10 * a + (code c - 48)) s acc).
Proof.
  revert acc; induction s as [|c s IH]; intros acc; simpl; [reflexivity|].
  rewrite andb_true_iff; intros [-> Hs]. now apply IH.
Qed.

Lemma int_loop_fails (s : str) (acc : Z) :
  forallb isdecimal s = false -> int_loop acc s = None.
Proof.
  revert acc; induction s as [|c s IH]; intros acc; simpl; [discriminate|].
  destruct (isdecimal c); simpl; [apply IH | reflexivity].
Qed.

Lemma takeWhile_whole (p : ascii -> bool) (s : str) :
  forallb p s = true -> takeWhile p s = s.
Proof.
  intros Hs. rewrite <- (app_nil_r s) at 1.
  rewrite takeWhile_app by exact Hs. apply app_nil_r.
Qed.

(** [int] on a non-empty string of decimal digits within the limit. *)
Lemma int_decimal (s : str) :
  s <> [] -> forallb isdecimal s = true -> len s <= max_str_digits ->
  int s = Return (decimal_value s).
Proof.
  intros Hne Hs Hlen. unfold int. rewrite (takeWhile_whole _ _ Hs).
  apply Z.ltb_ge in Hlen. rewrite Hlen.
  destruct s as [|c s]; [congruence|].
  now rewrite (int_loop_value _ _ Hs).
Qed.

(** [int] on a string of more decimal digits than the limit. *)
Lemma int_too_long (s : str) :
  forallb isdecimal s = true -> max_str_digits < len s ->
  int s = Raise (exceeds_limit (len s)).
Proof.
  intros Hs Hlen. unfold int. rewrite (takeWhile_whole _ _ Hs).
  apply Z.ltb_lt in Hlen. now rewrite Hlen.
Qed.

(** [int] on a string with a character that is no decimal digit. *)
Lemma int_not_decimal (s : str) :
  forallb isdecimal s = false ->
  int s = Raise (invalid_literal s)
  \/ int s = Raise (exceeds_limit (len (takeWhile isdecimal s))).
Proof.
  intros Hs. unfold int.
  destruct (max_str_digits <? len (takeWhile isdecimal s)); [now right|].
  left. destruct s as [|c s]; [reflexivity|].
  now rewrite (int_loop_fails _ _ Hs).
Qed.

(** What [int] returns is the value of a string of decimal digits within
    the limit. *)
Lemma int_returns (s : str) (n : Z) :
  int s = Return n ->
  s <> [] /\ forallb isdecimal s = true /\ len s <= max_str_digits
  /\ n = decimal_value s.
Proof.
  unfold int.
  destruct (max_str_digits <? len (takeWhile isdecimal s)) eqn:El;
    [discriminate|].
  destruct s as [|c s]; [discriminate|].
  destruct (forallb isdecimal (c :: s)) eqn:Hs.
  - rewrite (takeWhile_whole _ _ Hs) in El. apply Z.ltb_ge in El.
    rewrite (int_loop_value _ _ Hs). intros E; injection E as <-.
    repeat split; auto. discriminate.
  - rewrite (int_loop_fails _ _ Hs). discriminate.
Qed.

Section NoNaN.

Variables prec emax : Z.

Lemma iter_pos_invariant {A} (P : A -> Prop) (f : A -> A) :
  (forall x, P x -> P (f x)) ->
  forall p x, P x -> P (iter_pos f p x).
Proof.
  intros Hf; induction p as [p IH|p IH|]; intros x Hx; simpl; auto.
Qed.

Lemma shr_1_nonneg (mrs : shr_record) :
  0 <= shr_m mrs -> 0 <= shr_m (shr_1 mrs).
Proof.
  destruct mrs as [m r s]; simpl.
  destruct m as [|[p|p|]|p]; simpl; lia.
Qed.

Lemma shr_nonneg (mrs : shr_record) (e n : Z) :
  0 <= shr_m mrs -> 0 <= shr_m (fst (shr mrs e n)).
Proof.
  intros Hm. destruct n as [|p|p]; simpl; try exact Hm.
  apply (iter_pos_invariant (fun x => 0 <= shr_m x)); auto using shr_1_nonneg.
Qed.

Lemma shr_fexp_nonneg (m e : Z) (l : location) :
  0 <= m -> 0 <= shr_m (fst (shr_fexp prec emax m e l)).
Proof.
  intros Hm. unfold shr_fexp. apply shr_nonneg.
  destruct l as [|[| |]]; exact Hm.
Qed.

Lemma round_nearest_even_nonneg (m : Z) (l : location) :
  0 <= m -> 0 <= round_nearest_even m l.
Proof.
  intros Hm. destruct l as [|[| |]]; simpl; try lia.
  destruct (Z.even m); lia.
Qed.

(** Rounding a non-negative mantissa never gives a NaN. *)
Lemma binary_round_aux_not_nan (s : bool) (m e : Z) (l : location) :
  0 <= m -> binary_round_aux prec emax s m e l <> S754_nan.
Proof.
  intros Hm. unfold binary_round_aux.
  pose proof (shr_fexp_nonneg m e l Hm) as H1.
  destruct (shr_fexp prec emax m e l) as [mrs' e']. simpl in H1.
  pose proof (shr_fexp_nonneg
                (round_nearest_even (shr_m mrs') (loc_of_shr_record mrs'))
                e' loc_Exact
                (round_nearest_even_nonneg _ _ H1)) as H2.
  destruct (shr_fexp prec emax _ e' loc_Exact) as [mrs'' e'']. simpl in H2.
  destruct (shr_m mrs'') as [|p|p]; try discriminate; try lia.
  destruct (e'' <=? emax - prec); discriminate.
Qed.

End NoNaN.

Lemma float_of_int_number (n : Z) (x : float) :
  float_of_int n = Return x -> is_number x.
Proof.
  unfold float_of_int, binary_normalize.
  destruct n as [|p|p].
  - intros E; injection E as <-; exact I.
  - unfold binary_round. destruct (shl_align _ _ _) as [mz ez].
    pose proof (binary_round_aux_not_nan prec emax false (Zpos mz) ez loc_Exact
                  ltac:(lia)) as Hn.
    destruct (binary_round_aux _ _ _ _ _ _); try discriminate;
      try (intros E; injection E as <-; exact I). congruence.
  - unfold binary_round. destruct (shl_align _ _ _) as [mz ez].
    pose proof (binary_round_aux_not_nan prec emax true (Zpos mz) ez loc_Exact
                  ltac:(lia)) as Hn.
    destruct (binary_round_aux _ _ _ _ _ _); try discriminate;
      try (intros E; injection E as <-; exact I). congruence.
Qed.

Lemma SFdiv_core_nonneg (m1 e1 m2 e2 : Z) :
  0 <= m1 -> 0 < m2 ->
  0 <= fst (fst (SFdiv_core_binary prec emax m1 e1 m2 e2)).
Proof.
  intros H1 H2. unfold SFdiv_core_binary.
  set (s := _ - _ - _).
  set (m' := match s with Z0 => m1 | Zpos _ => Z.shiftl m1 s | Zneg _ => 0 end).
  assert (Hm' : 0 <= m').
  { subst m'. destruct s; try lia. apply Z.shiftl_nonneg; exact H1. }
  pose proof (Z_div_mod m' m2 ltac:(lia)) as Hd.
  destruct (Z.div_eucl m' m2) as [q r]. simpl.
  destruct Hd as [Hq Hr]. nia.
Qed.

Lemma int_truediv_number (a b : Z) (x : float) :
  int_truediv a b = Return x -> is_number x.
Proof.
  unfold int_truediv.
  destruct (b =? 0) eqn:Eb; [discriminate|].
  destruct (a =? 0); [intros E; injection E as <-; exact I|].
  pose proof (SFdiv_core_nonneg (Z.abs a) 0 (Z.abs b) 0 ltac:(lia)
                ltac:(apply Z.eqb_neq in Eb; lia)) as Hq.
  destruct (SFdiv_core_binary _ _ _ _ _ _) as [[q e] l]. simpl in Hq.
  pose proof (binary_round_aux_not_nan prec emax
                (xorb (a <? 0) (b <? 0)) q e l Hq) as Hn.
  destruct (binary_round_aux _ _ _ _ _ _); try discriminate;
    try (intros E; injection E as <-; exact I). congruence.
Qed.

Lemma SFmul_not_nan (x y : float) :
  is_number x -> is_number y -> SFmul prec emax x y <> S754_nan.
Proof.
  destruct x as [sx|sx| |sx mx ex], y as [sy|sy| |sy my ey];
    simpl; try tauto; try discriminate.
  intros _ _. apply binary_round_aux_not_nan. lia.
Qed.

(** The percentage computation raises no [ValueError]: it returns or it
    overflows. *)
Lemma percent_of_not_value_error (base percent : Z) (msg : str) :
  percent_of base percent <> Raise (ValueError msg).
Proof.
  unfold percent_of, int_mul_float.
  destruct (int_truediv percent 100) as [q|e] eqn:Eq; simpl.
  - destruct (float_of_int base) as [fb|e] eqn:Eb; simpl.
    + pose proof (SFmul_not_nan fb q (float_of_int_number _ _ Eb)
                    (int_truediv_number _ _ _ Eq)) as Hn.
      destruct (SFmul prec emax fb q); simpl; try discriminate. congruence.
    + unfold float_of_int in Eb.
      destruct (binary_normalize _ _ _ _ _); try discriminate;
        injection Eb as <-; discriminate.
  - unfold int_truediv in Eq. simpl in Eq.
    destruct (percent =? 0); [discriminate|].
    destruct (SFdiv_core_binary _ _ _ _ _ _) as [[q' e'] l'].
    destruct (binary_round_aux _ _ _ _ _ _); try discriminate;
      injection Eq as <-; discriminate.
Qed.

(** ** The dimension resolver *)

Lemma percent_not_decimal (c : ascii) :
  isdecimal c = true -> eqc c "%" = false.
Proof.
  intros Hc. destruct (eqc c "%") eqn:E; [|reflexivity].
  apply eqc_eq in E; subst c. discriminate.
Qed.

Lemma digit_run_tail (post : str) :
  post = [] \/ post = lit "%" ->
  takeWhile isdecimal post = [] /\ dropWhile isdecimal post = post.
Proof. intros [-> | ->]; split; reflexivity. Qed.

Lemma digits_percent_grammar (ds post : str) :
  ds <> [] -> forallb isdecimal ds = true ->
  post = [] \/ post = lit "%" ->
  re.digits_percent (ds ++ post) = Some ds.
Proof.
  intros Hne Hds Hpost. unfold re.digits_percent.
  destruct (digit_run_tail post Hpost) as [Ht Hd].
  rewrite takeWhile_app, dropWhile_app, Ht, Hd, app_nil_r by exact Hds.
  destruct ds as [|d ds]; [congruence|].
  destruct Hpost as [-> | ->]; reflexivity.
Qed.

Lemma decimal_no_percent (t : str) :
  forallb isdecimal t = true -> contains "%" t = false.
Proof.
  unfold contains.
  induction t as [|c t IH]; simpl; [reflexivity|].
  rewrite andb_true_iff; intros [Hc Ht].
  rewrite (IH Ht), orb_false_r.
  destruct (eqc "%" c) eqn:E; [|reflexivity].
  apply eqc_eq in E; subst c; discriminate.
Qed.

Lemma filter_decimal_all (t : str) :
  forallb isdecimal t = true -> filter isdecimal t = t.
Proof.
  induction t as [|c t IH]; simpl; [reflexivity|].
  rewrite andb_true_iff; intros [-> Ht]. now rewrite IH.
Qed.

(** A string of the grammar is matched, and group 1 is its digits. *)
Lemma grammar_fullmatch (s : str) :
  dimension_grammar s ->
  exists digits,
    re.fullmatch_percent s = Some digits
    /\ digits <> [] /\ forallb isdecimal digits = true
    /\ digits_of s = digits
    /\ (contains "%" s = false -> s = digits).
Proof.
  intros (pre & ds & post & -> & Hpre & Hne & Hds & Hpost).
  exists ds.
  assert (Hp : forall t, t = [] \/ t = lit "%" -> filter isdecimal t = []).
  { intros t [-> | ->]; reflexivity. }
  repeat split; try assumption.
  - unfold re.fullmatch_percent.
    destruct Hpre as [-> | ->].
    + simpl app at 1.
      destruct ds as [|d ds]; [congruence|]. simpl app.
      pose proof Hds as Hds'. simpl in Hds'.
      apply andb_true_iff in Hds' as [Hd0 _].
      rewrite (percent_not_decimal d Hd0).
      now apply (digits_percent_grammar (d :: ds) post).
    + change (lit "%" ++ ds ++ post) with ("%"%char :: ds ++ post).
      cbv beta iota. rewrite eqc_refl.
      now apply digits_percent_grammar.
  - unfold digits_of. rewrite !filter_app, (Hp pre Hpre), (Hp post Hpost).
    rewrite app_nil_r. simpl. now apply filter_decimal_all.
  - intros Hc. unfold contains in Hc. rewrite !existsb_app in Hc.
    apply orb_false_iff in Hc as [Hc1 Hc2].
    apply orb_false_iff in Hc2 as [_ Hc2].
    destruct Hpre as [-> | ->]; [|discriminate].
    destruct Hpost as [-> | ->]; [|discriminate].
    now rewrite app_nil_r.
Qed.

Lemma digits_percent_sound (s1 digits : str) :
  re.digits_percent s1 = Some digits ->
  exists post, s1 = digits ++ post /\ digits <> []
               /\ forallb isdecimal digits = true
               /\ (post = [] \/ post = lit "%").
Proof.
  unfold re.digits_percent.
  pose proof (take_drop_while isdecimal s1) as Hsplit.
  pose proof (takeWhile_all isdecimal s1) as Hall.
  destruct (takeWhile isdecimal s1) as [|d ds]; [discriminate|].
  intros Hm. exists (dropWhile isdecimal s1).
  destruct (dropWhile isdecimal s1) as [|c [|c' r]]; try discriminate.
  - injection Hm as <-. repeat split; auto. discriminate.
  - destruct (eqc c "%") eqn:E; [|discriminate].
    apply eqc_eq in E; subst c. injection Hm as <-.
    repeat split; auto. discriminate.
Qed.

(** A matched string is a string of the grammar. *)
Lemma fullmatch_grammar (s digits : str) :
  re.fullmatch_percent s = Some digits -> dimension_grammar s.
Proof.
  unfold re.fullmatch_percent.
  destruct s as [|c t].
  - intros Hm.
    destruct (digits_percent_sound _ _ Hm) as (post & E & Hne & Hd & Hp).
    exists [], digits, post. auto.
  - destruct (eqc c "%") eqn:E.
    + apply eqc_eq in E; subst c. intros Hm.
      destruct (digits_percent_sound _ _ Hm) as (post & E & Hne & Hd & Hp).
      exists (lit "%"), digits, post. rewrite E. auto.
    + intros Hm.
      destruct (digits_percent_sound _ _ Hm) as (post & E' & Hne & Hd & Hp).
      exists [], digits, post. auto.
Qed.

Lemma isdigit_decimal (s : str) :
  s <> [] -> forallb isdecimal s = true -> isdigit s = true.
Proof.
  intros Hne Hs. unfold isdigit.
  destruct s as [|c s]; [congruence|]. simpl is_empty. simpl negb.
  rewrite andb_true_l.
  rewrite forallb_forall in *. intros x Hx. specialize (Hs x Hx).
  unfold isdigit_char, isdecimal in *. now rewrite Hs.
Qed.

(** The two resolvers have the same cases. *)
Lemma resolver_cases (mk_error : str -> exn) (value : str) (base : Z) :
  let v := strip value in
  let r :=
    match contains "%" v, re.fullmatch_percent v with
    | true, Some group1 => percent <- int group1 ;; percent_of base percent
    | _, _ => if isdigit v then int v else Raise (mk_error v)
    end in
  (dimension_grammar v -> len (digits_of v) <= max_str_digits ->
     (contains "%" v = false /\ r = Return (decimal_value v))
     \/ (contains "%" v = true
         /\ r = percent_of base (decimal_value (digits_of v))))
  /\ (dimension_grammar v -> max_str_digits < len (digits_of v) ->
      r = Raise (exceeds_limit (len (digits_of v))))
  /\ (~ dimension_grammar v ->
        r = Raise (mk_error v) \/ exists msg, r = Raise (ValueError msg)).
Proof.
  intros v r. split; [|split].
  - intros Hg Hlen.
    destruct (grammar_fullmatch v Hg) as (ds & Hm & Hne & Hds & Hf & Hv).
    subst r. rewrite Hm. rewrite Hf in Hlen.
    destruct (contains "%" v) eqn:Ec.
    + right. split; [reflexivity|].
      rewrite (int_decimal ds Hne Hds Hlen), Hf. reflexivity.
    + left. split; [reflexivity|].
      specialize (Hv eq_refl). rewrite Hv.
      rewrite (isdigit_decimal ds Hne Hds). now apply int_decimal.
  - intros Hg Hlen.
    destruct (grammar_fullmatch v Hg) as (ds & Hm & Hne & Hds & Hf & Hv).
    subst r. rewrite Hm. rewrite Hf in *.
    destruct (contains "%" v) eqn:Ec.
    + now rewrite (int_too_long ds Hds Hlen).
    + specialize (Hv eq_refl). rewrite Hv.
      rewrite (isdigit_decimal ds Hne Hds). now apply int_too_long.
  - intros Hg. subst r.
    assert (Hfall : (if isdigit v then int v else Raise (mk_error v))
                    = Raise (mk_error v)
                    \/ exists msg,
                         (if isdigit v then int v else Raise (mk_error v))
                         = Raise (ValueError msg)).
    { destruct (isdigit v) eqn:Ed; [|now left]. right.
      assert (Hnd : forallb isdecimal v = false).
      { destruct (forallb isdecimal v) eqn:Ea; [|reflexivity].
        exfalso; apply Hg. exists [], v, []. rewrite app_nil_r.
        repeat split; auto.
        intros ->. discriminate. }
      destruct (int_not_decimal v Hnd) as [-> | ->];
        unfold invalid_literal, exceeds_limit; eauto. }
    destruct (contains "%" v); [|exact Hfall].
    destruct (re.fullmatch_percent v) as [g|] eqn:Em; [|exact Hfall].
    exfalso; apply Hg. eapply fullmatch_grammar; eassumption.
Qed.

Lemma parse_pixels_or_percent_padded (s : str) (b : Z) :
  parse_pixels_or_percent (lit " " ++ s ++ lit " ") b
  = parse_pixels_or_percent s b.
Proof. unfold parse_pixels_or_percent. now rewrite strip_padded. Qed.

Lemma parse_padding_padded (s : str) (b : Z) :
  parse_padding (lit " " ++ s ++ lit " ") b = parse_padding s b.
Proof. unfold parse_padding. now rewrite strip_padded. Qed.

Lemma padded_50_not_in_grammar : ~ dimension_grammar (lit " 50 ").
Proof.
  intros Hg. destruct (grammar_fullmatch _ Hg) as (ds & Hm & _).
  discriminate Hm.
Qed.

(** C10.  The resolver strips leading and trailing whitespace before it
    applies the grammar: resolving [" " + s + " "] gives what resolving
    [s] gives, for the wrap width and for the padding alike, so the
    padded form [" 50 "] resolves to 50 although it is not a string of
    the grammar [^%?\d+%?$]. *)
Theorem resolver_strips_whitespace :
  forall (s : str) (b : Z),
    parse_pixels_or_percent (lit " " ++ s ++ lit " ") b
    = parse_pixels_or_percent s b
    /\ parse_padding (lit " " ++ s ++ lit " ") b = parse_padding s b
    /\ parse_pixels_or_percent (lit " 50 ") b = Return 50
    /\ ~ dimension_grammar (lit " 50 ").
Proof.
  intros s b. split; [apply parse_pixels_or_percent_padded|].
  split; [apply parse_padding_padded|].
  split; [reflexivity | exact padded_50_not_in_grammar].
Qed.

(** C4, as stated, fails: the resolver does not succeed exactly on the
    strings of the grammar, since [" 50 "] is no string of the grammar
    and resolves to 50. *)
Lemma resolver_accepts_outside_grammar :
  ~ (forall (s : str) (b : Z),
       (exists n, parse_pixels_or_percent s b = Return n)
       <-> dimension_grammar s).
Proof.
  intros Hclaim.
  apply padded_50_not_in_grammar.
  apply (Hclaim (lit " 50 ") 100). exists 50. reflexivity.
Qed.

(** C4, amended.  The resolver raises [ValueError] exactly on the strings
    whose stripped form is not in the grammar [^%?\d+%?$] or has more
    than 4300 digits, the limit of [int] on strings.  On the others it
    takes the percentage reading exactly when the stripped string holds
    a [%], computing [int(base * (p / 100))] from the digits [p], and
    otherwise returns the digits as a pixel count. *)
Theorem resolver_accepts_stripped_grammar :
  forall (value : str) (base : Z),
    ((exists msg, parse_pixels_or_percent value base = Raise (ValueError msg))
     <-> (~ dimension_grammar (strip value)
          \/ max_str_digits < len (digits_of (strip value))))
    /\ (dimension_grammar (strip value) ->
        len (digits_of (strip value)) <= max_str_digits ->
        contains "%" (strip value) = false ->
        parse_pixels_or_percent value base
        = Return (decimal_value (strip value)))
    /\ (dimension_grammar (strip value) ->
        len (digits_of (strip value)) <= max_str_digits ->
        contains "%" (strip value) = true ->
        parse_pixels_or_percent value base
        = percent_of base (decimal_value (digits_of (strip value)))).
Proof.
  intros value base.
  destruct (resolver_cases (fun v => ValueError (lit "Invalid value: " ++ v))
              value base) as (Hin & Hlong & Hout).
  cbv zeta in Hin, Hlong, Hout.
  fold (parse_pixels_or_percent value base) in Hin, Hlong, Hout.
  split; [split|split].
  - intros [msg Hr].
    destruct (Z_le_gt_dec (len (digits_of (strip value))) max_str_digits)
      as [Hlen | Hlen]; [|right; lia].
    left. intros Hg.
    destruct (Hin Hg Hlen) as [[_ E] | [_ E]]; rewrite E in Hr.
    + discriminate.
    + exact (percent_of_not_value_error _ _ _ Hr).
  - intros [Hg | Hlen].
    + destruct (Hout Hg) as [E | [msg E]]; rewrite E; eauto.
    + assert (Hdec : dimension_grammar (strip value)
                     \/ ~ dimension_grammar (strip value)).
      { destruct (re.fullmatch_percent (strip value)) as [g|] eqn:Em.
        - left. eapply fullmatch_grammar; eassumption.
        - right. intros Hg.
          destruct (grammar_fullmatch _ Hg) as (ds & Hm & _). congruence. }
      destruct Hdec as [Hg | Hg].
      * rewrite (Hlong Hg Hlen). unfold exceeds_limit. eauto.
      * destruct (Hout Hg) as [E | [msg E]]; rewrite E; eauto.
  - intros Hg Hlen Hc.
    destruct (Hin Hg Hlen) as [[_ E] | [Hc' _]]; [exact E|congruence].
  - intros Hg Hlen Hc.
    destruct (Hin Hg Hlen) as [[Hc' _] | [_ E]]; [congruence|exact E].
Qed.

Lemma stripped_50_in_grammar : dimension_grammar (strip (lit " 50 ")).
Proof.
  exists [], (lit "50"), []. repeat split; auto. discriminate.
Qed.

Lemma stripped_90_percent_in_grammar : dimension_grammar (strip (lit "90% ")).
Proof.
  exists [], (lit "90"), (lit "%"). repeat split; auto. discriminate.
Qed.

Lemma resolver_accepts_stripped_grammar_witness :
  parse_pixels_or_percent (lit " 50 ") 400 = Return 50
  /\ parse_pixels_or_percent (lit "90% ") 400 = percent_of 400 90.
Proof.
  split.
  - apply (resolver_accepts_stripped_grammar (lit " 50 ") 400).
    + exact stripped_50_in_grammar.
    + vm_compute. discriminate.
    + reflexivity.
  - apply (resolver_accepts_stripped_grammar (lit "90% ") 400).
    + exact stripped_90_percent_in_grammar.
    + vm_compute. discriminate.
    + reflexivity.
Defined.

(** C2.  The resolver computes a percentage in binary floating point,
    [int(base * (percent / 100))], not in exact integer arithmetic: 29%
    of 100 resolves to 28, for the wrap width and for the padding alike,
    where [floor(100 * 29 / 100)] is 29.  The examples of the
    specification still come out as stated: 50% of 200 is 100, and 101%
    of 10 is 10. *)
Theorem percent_29_of_100_is_28 :
  parse_pixels_or_percent (lit "29%") 100 = Return 28
  /\ parse_padding (lit "29%") 100 = Return 28
  /\ 100 * 29 / 100 = 29
  /\ parse_pixels_or_percent (lit "50%") 200 = Return 100
  /\ parse_pixels_or_percent (lit "101%") 10 = Return 10.
Proof. repeat split; vm_compute; reflexivity. Qed.

(** ** The alignment origin *)

Section Origin.

Context `{PIL}.

(** When every step before the drawing returns, [process_image] draws the
    wrapped caption at [(origin_x, origin_y)], computed from the
    bounding box of the whole wrapped block, and saves that image. *)
Lemma process_image_draws_at_origin
  (input_image output_image comment padding bg_color text_color
   font_path : str) (font_size : Z) (align valign wrap_width : str)
  (w : World) (img : Image) (width height pad mw : Z) (bg fg : color)
  (font : FreeTypeFont) (wrapped : str) :
  Image_open input_image = Return img ->
  Image_size img = (width, height) ->
  parse_padding padding height = Return pad ->
  parse_color bg_color = Return bg ->
  parse_color text_color = Return fg ->
  load_font font_path font_size = Return font ->
  parse_pixels_or_percent wrap_width width = Return mw ->
  let canvas := Image_paste (Image_new (width, height + pad) bg) img (0, 0) in
  wrap_for_multiline canvas comment font mw = Return wrapped ->
  let bbox := multiline_textbbox canvas (0, 0) wrapped font 4 align in
  let drawn :=
    multiline_text canvas
      (origin_x align width (box_width bbox),
       origin_y valign height pad (box_height bbox))
      wrapped fg font 4 align in
  Image_save drawn output_image = None ->
  process_image input_image output_image comment padding bg_color
    text_color font_path font_size align valign wrap_width w
  = (Return tt,
     mkWorld (files w ++ [(output_image, drawn)])
             (stdout w ++ [confirmation output_image])
             (stderr w)).
Proof.
  intros Hopen Hsize Hpad Hbg Hfg Hfont Hmw canvas Hwrap bbox drawn Hsave.
  unfold process_image, io_bind, pure, save, print.
  rewrite Hopen, Hsize, Hpad, Hbg, Hfg, Hfont, Hmw.
  fold canvas. rewrite Hwrap. fold bbox. fold drawn. rewrite Hsave.
  reflexivity.
Qed.

End Origin.

(** C5.  The origin of the caption follows the alignment formulas.  With
    the band at [bandTopY] (the height of the source image) and of height
    [bandHeightPx]: top gives [bandTopY + 10], bottom gives
    [bandTopY + bandHeightPx - textHeight - 10] and middle gives
    [bandTopY + (bandHeightPx - textHeight) / 2]; left gives 20, right
    gives [imageWidthPx - textWidth - 20] and center gives
    [(imageWidthPx - textWidth) / 2].  The division is the integer
    division of Python, which [/] on [Z] is.  So band height 200 and
    text height 40 give [bandTopY + 80] in the middle, and image width
    1000 and text width 300 give 680 on the right and 350 in the
    center. *)
Theorem alignment_origin :
  forall bandTopY bandHeightPx imageWidthPx textWidth textHeight : Z,
    origin_y (lit "top") bandTopY bandHeightPx textHeight = bandTopY + 10
    /\ origin_y (lit "bottom") bandTopY bandHeightPx textHeight
       = bandTopY + bandHeightPx - textHeight - 10
    /\ origin_y (lit "middle") bandTopY bandHeightPx textHeight
       = bandTopY + (bandHeightPx - textHeight) / 2
    /\ origin_x (lit "left") imageWidthPx textWidth = 20
    /\ origin_x (lit "right") imageWidthPx textWidth
       = imageWidthPx - textWidth - 20
    /\ origin_x (lit "center") imageWidthPx textWidth
       = (imageWidthPx - textWidth) / 2
    /\ origin_y (lit "middle") bandTopY 200 40 = bandTopY + 80
    /\ origin_x (lit "right") 1000 300 = 680
    /\ origin_x (lit "center") 1000 300 = 350.
Proof. intros. repeat split. Qed.

(** ** Font loading *)

(** What [load_font] makes of the answer of the font provider for the
    requested file, the name with [.ttf] appended when it lacks it. *)
Lemma load_font_file `{PIL} (font_path : str) (font_size : Z) :
  load_font font_path font_size
  = match truetype (if endswith font_path (lit ".ttf") then font_path
                    else font_path ++ lit ".ttf") font_size with
    | Raise (IOError _) => Return load_default
    | r => r
    end.
Proof.
  unfold load_font.
  destruct (endswith font_path (lit ".ttf")) eqn:E; simpl negb; cbv iota.
  - destruct font_path as [|c t]; [discriminate E|]. simpl.
    destruct (truetype (c :: t) font_size) as [f|[]]; reflexivity.
  - destruct font_path as [|c t]; simpl;
      destruct (truetype _ font_size) as [f|[]]; reflexivity.
Qed.

(** C9, as stated, fails: font loading does surface a fatal error for
    some name and size.  [load_font] catches [IOError] only, and Pillow
    refuses a font size that is not positive with [ValueError]: with
    the font [missing] and the size 0, [load_font] raises that error
    instead of returning the default font, and the run ends with
    status 2 and nothing written. *)
Lemma load_font_surfaces_other_errors :
  @load_font sized_pil (lit "missing") 0
  = Raise (ValueError (lit "font size must be greater than 0"))
  /\ @main sized_pil
       (mkArgs (lit "in.png") (lit "out.png") (lit "Hello world") (lit "200")
          (lit "black") (lit "white") (lit "missing") 0 (lit "left")
          (lit "top") (lit "90%"))
       (@mkWorld sized_pil [] [] [])
     = (2, @mkWorld sized_pil [] []
             [lit "error: font size must be greater than 0"])
  /\ ~ (forall (P : PIL) (font_path : str) (font_size : Z),
         exists font, @load_font P font_path font_size = Return font).
Proof.
  split; [vm_compute; reflexivity|]. split; [vm_compute; reflexivity|].
  intros Hclaim.
  destruct (Hclaim sized_pil (lit "missing") 0) as [font Hfont].
  vm_compute in Hfont. discriminate Hfont.
Qed.

(** C9, amended.  Font loading recovers from a font file that cannot be
    opened: for every name and size, [load_font] never raises the error
    of a failed open, and when the font provider fails to open the
    requested file (the name, with [.ttf] appended when it lacks it)
    [load_font] returns the built-in default font; a font that opens is
    returned as it is.  Every other error of the font provider is not
    caught: [load_font] raises it as it is. *)
Theorem load_font_falls_back :
  forall `{PIL} (font_path : str) (font_size : Z),
    let file := if endswith font_path (lit ".ttf") then font_path
                else font_path ++ lit ".ttf" in
    (forall msg, load_font font_path font_size <> Raise (IOError msg))
    /\ (forall msg, truetype file font_size = Raise (IOError msg) ->
                    load_font font_path font_size = Return load_default)
    /\ (forall font, truetype file font_size = Return font ->
                     load_font font_path font_size = Return font)
    /\ (forall e, truetype file font_size = Raise e ->
                  (forall msg, e <> IOError msg) ->
                  load_font font_path font_size = Raise e).
Proof.
  intros P font_path font_size file.
  rewrite load_font_file. fold file. repeat split.
  - intros msg. destruct (truetype file font_size) as [f|[]]; discriminate.
  - intros msg ->. reflexivity.
  - intros font ->. reflexivity.
  - intros e -> He. destruct e; try reflexivity. now elim (He msg).
Qed.

Lemma load_font_falls_back_witness :
  @load_font demo_pil (lit "missing") 16 = Return (@load_default demo_pil)
  /\ @load_font demo_pil (lit "arial") 16 = Return 16.
Proof.
  split.
  - apply (proj1 (proj2 (@load_font_falls_back demo_pil (lit "missing") 16))
             (lit "cannot open resource")).
    reflexivity.
  - apply (proj1 (proj2 (proj2
             (@load_font_falls_back demo_pil (lit "arial") 16))) 16).
    reflexivity.
Defined.

(** ** The command-line boundary *)

Section Boundary.

Context `{PIL}.

(** A run of [process_image] either raises and leaves the world as it
    was, or writes exactly the output file and prints the confirmation. *)
Lemma process_image_outcome
  (input_image output_image comment padding bg_color text_color
   font_path : str) (font_size : Z) (align valign wrap_width : str)
  (w : World) :
  (exists e,
     process_image input_image output_image comment padding bg_color
       text_color font_path font_size align valign wrap_width w
     = (Raise e, w))
  \/ (exists im,
        process_image input_image output_image comment padding bg_color
          text_color font_path font_size align valign wrap_width w
        = (Return tt,
           mkWorld (files w ++ [(output_image, im)])
                   (stdout w ++ [confirmation output_image])
                   (stderr w))).
Proof.
  unfold process_image, io_bind, pure.
  destruct (Image_open input_image) as [img|e]; [|left; eauto].
  destruct (Image_size img) as [width height].
  destruct (parse_padding padding height) as [pad|e]; [|left; eauto].
  destruct (parse_color bg_color) as [bg|e]; [|left; eauto].
  destruct (parse_color text_color) as [fg|e]; [|left; eauto].
  destruct (load_font font_path font_size) as [font|e]; [|left; eauto].
  destruct (parse_pixels_or_percent wrap_width width) as [mw|e];
    [|left; eauto].
  destruct (wrap_for_multiline _ comment font mw) as [wrapped|e];
    [|left; eauto].
  unfold save, print.
  destruct (Image_save _ output_image) as [e|]; [left; eauto|].
  right. eexists. reflexivity.
Qed.

(** The three validations run first, in this order, and the first that
    raises ends [process_image]. *)
Lemma process_image_validation
  (input_image output_image comment padding bg_color text_color
   font_path : str) (font_size : Z) (align valign wrap_width : str)
  (w : World) (img : Image) (e : exn) :
  Image_open input_image = Return img ->
  parse_padding padding (snd (Image_size img)) = Raise e
  \/ (exists pad, parse_padding padding (snd (Image_size img)) = Return pad
                  /\ parse_color bg_color = Raise e)
  \/ (exists pad bg,
        parse_padding padding (snd (Image_size img)) = Return pad
        /\ parse_color bg_color = Return bg
        /\ parse_color text_color = Raise e) ->
  process_image input_image output_image comment padding bg_color
    text_color font_path font_size align valign wrap_width w
  = (Raise e, w).
Proof.
  intros Hopen Hbad.
  unfold process_image, io_bind, pure. rewrite Hopen.
  destruct (Image_size img) as [width height]. simpl snd in Hbad.
  destruct Hbad as [-> | [(pad & -> & ->) | (pad & bg & -> & -> & ->)]];
    reflexivity.
Qed.

Lemma main_outcome (args : Args) (w : World) :
  (exists status line,
     status <> 0
     /\ main args w
        = (status, mkWorld (files w) (stdout w) (stderr w ++ [line])))
  \/ (exists im,
        main args w
        = (0, mkWorld (files w ++ [(arg_output args, im)])
                      (stdout w ++ [confirmation (arg_output args)])
                      (stderr w))).
Proof.
  unfold main.
  destruct (process_image_outcome (arg_input args) (arg_output args)
              (arg_comment args) (arg_padding args) (arg_bg_color args)
              (arg_text_color args) (arg_font args) (arg_font_size args)
              (arg_align args) (arg_valign args) (arg_wrap_width args) w)
    as [[e ->] | [im ->]].
  - left. destruct e; unfold parser_error, uncaught;
      eexists _, _; (split; [|reflexivity]); discriminate.
  - right. exists im. reflexivity.
Qed.

End Boundary.

(** C7.  A run that fails writes no file and prints nothing on the
    output stream: it ends with a non-zero exit status and a line on the
    error stream.  When the input image opens and the padding string or
    a colour string is invalid, the run fails, for the three validations
    precede the only write; the first of them that raises [ValueError]
    gives the message that [parser.error] reports with status 2.  A run
    that exits with status 0 has written exactly the output file and
    printed the confirmation that names its path. *)
Theorem validation_precedes_output :
  forall `{PIL} (args : Args) (w : World),
    (* failure: no output *)
    (fst (main args w) <> 0 ->
     files (snd (main args w)) = files w
     /\ stdout (snd (main args w)) = stdout w
     /\ exists line, stderr (snd (main args w)) = stderr w ++ [line])
    (* success: the output file and the confirmation *)
    /\ (fst (main args w) = 0 ->
        exists im,
          main args w
          = (0, mkWorld (files w ++ [(arg_output args, im)])
                        (stdout w
                         ++ [lit "[+] Saved output image to: "
                             ++ arg_output args])
                        (stderr w)))
    (* an invalid padding or colour string *)
    /\ (forall img,
          Image_open (arg_input args) = Return img ->
          let height := snd (Image_size img) in
          let padding := parse_padding (arg_padding args) height in
          let bg := parse_color (arg_bg_color args) in
          let fg := parse_color (arg_text_color args) in
          ((exists e, padding = Raise e \/ bg = Raise e \/ fg = Raise e) ->
           fst (main args w) <> 0)
          /\ (forall msg,
                padding = Raise (ValueError msg)
                \/ (exists pad,
                      padding = Return pad /\ bg = Raise (ValueError msg))
                \/ (exists pad c,
                      padding = Return pad /\ bg = Return c
                      /\ fg = Raise (ValueError msg)) ->
                main args w
                = (2, mkWorld (files w) (stdout w)
                              (stderr w ++ [lit "error: " ++ msg])))).
Proof.
  intros P args w. split; [|split].
  - intros Hfail.
    destruct (main_outcome args w) as [(status & line & Hs & E) | [im E]];
      rewrite E in *; simpl in *; [eauto | congruence].
  - intros Hzero.
    destruct (main_outcome args w) as [(status & line & Hs & E) | [im E]].
    + rewrite E in Hzero. simpl in Hzero. congruence.
    + exists im. exact E.
  - intros img Hopen height padding bg fg.
    assert (Hfirst : forall e,
              padding = Raise e
              \/ (exists pad, padding = Return pad /\ bg = Raise e)
              \/ (exists pad c, padding = Return pad /\ bg = Return c
                                /\ fg = Raise e) ->
              process_image (arg_input args) (arg_output args)
                (arg_comment args) (arg_padding args) (arg_bg_color args)
                (arg_text_color args) (arg_font args) (arg_font_size args)
                (arg_align args) (arg_valign args) (arg_wrap_width args) w
              = (Raise e, w)).
    { intros e He. eapply process_image_validation; eassumption. }
    split.
    + intros Hbad.
      assert (Hraise : exists e,
                 process_image (arg_input args) (arg_output args)
                   (arg_comment args) (arg_padding args) (arg_bg_color args)
                   (arg_text_color args) (arg_font args)
                   (arg_font_size args) (arg_align args) (arg_valign args)
                   (arg_wrap_width args) w
                 = (Raise e, w)).
      { destruct padding as [pad|e1] eqn:E1;
          [|exists e1; apply Hfirst; auto].
        destruct bg as [c|e2] eqn:E2;
          [|exists e2; apply Hfirst; right; left; eauto].
        destruct fg as [c'|e3] eqn:E3;
          [|exists e3; apply Hfirst; right; right; eauto].
        destruct Hbad as [e [Hb | [Hb | Hb]]]; discriminate. }
      destruct Hraise as [e He]. unfold main. rewrite He.
      destruct e; unfold parser_error, uncaught; simpl; discriminate.
    + intros msg Hmsg. unfold main. rewrite (Hfirst _ Hmsg). reflexivity.
Qed.

Lemma validation_precedes_output_witness :
  @main demo_pil
    (mkArgs (lit "in.png") (lit "out.png") (lit "Hello world") (lit "abc")
       (lit "black") (lit "white") (lit "arial") 16 (lit "left") (lit "top")
       (lit "90%"))
    demo_world
  = (2, mkWorld [] [] [lit "error: Invalid padding value: abc"]).
Proof.
  apply (proj2 (proj2 (proj2
           (@validation_precedes_output demo_pil
              (mkArgs (lit "in.png") (lit "out.png") (lit "Hello world")
                 (lit "abc") (lit "black") (lit "white") (lit "arial") 16
                 (lit "left") (lit "top") (lit "90%"))
              demo_world)) (demo_image 400 300) eq_refl)
           (lit "Invalid padding value: abc")).
  left. reflexivity.
Defined.

(** ** Wrapping by character count *)

Lemma dropWhile_nil (p : ascii -> bool) (s : str) :
  dropWhile p s = [] -> forallb p s = true.
Proof.
  induction s as [|c s IH]; simpl; [reflexivity|].
  destruct (p c); [exact IH | discriminate].
Qed.

(** [s.strip() == ''] says that every character of [s] is whitespace. *)
Lemma blank_spaces (s : str) :
  textwrap.blank s = true <-> forallb isspace s = true.
Proof.
  unfold textwrap.blank, strip, rstrip, lstrip. split.
  - intros Hb.
    destruct (rev (dropWhile isspace (rev (dropWhile isspace s)))) eqn:E;
      [|discriminate].
    apply (f_equal (@rev ascii)) in E. rewrite rev_involutive in E. simpl in E.
    apply dropWhile_nil in E. rewrite forallb_forall in E.
    destruct (dropWhile isspace s) as [|h t] eqn:Ed;
      [now apply dropWhile_nil|].
    pose proof (dropWhile_head _ _ _ _ Ed) as Hh.
    rewrite (E h) in Hh; [discriminate|].
    apply in_rev. rewrite rev_involutive. now left.
  - intros Hs. now rewrite (dropWhile_all _ _ Hs).
Qed.

Lemma is_empty_nil (s : str) : is_empty s = true <-> s = [].
Proof. destruct s; simpl; split; congruence. Qed.

Lemma len_app (a b : str) : len (a ++ b) = len a + len b.
Proof. unfold len. rewrite length_app. lia. Qed.

Lemma len_nonneg (s : str) : 0 <= len s.
Proof. unfold len. lia. Qed.

Lemma slice_split (s : str) (i : Z) : slice_to s i ++ slice_from s i = s.
Proof. apply firstn_skipn. Qed.

Lemma len_slice_to (s : str) (i : Z) :
  0 <= i -> len (slice_to s i) = Z.min i (len s).
Proof.
  intros Hi. unfold slice_to, clamp, len.
  rewrite length_firstn.
  destruct (i <? 0) eqn:E; [apply Z.ltb_lt in E; lia|]. lia.
Qed.

Lemma rindex_bound (c : ascii) (s : str) : -1 <= rindex c s < len s.
Proof.
  induction s as [|x s IH]; simpl rindex; unfold len in *; simpl length.
  - lia.
  - destruct (0 <=? rindex c s) eqn:E.
    + apply Z.leb_le in E. lia.
    + destruct (eqc x c); lia.
Qed.

Lemma concat_snoc (l : list str) (x : str) :
  concat (l ++ [x]) = concat l ++ x.
Proof. rewrite concat_app. simpl. now rewrite app_nil_r. Qed.

Lemma weight_app (a b : list str) :
  textwrap.weight (a ++ b) = (textwrap.weight a + textwrap.weight b)%nat.
Proof.
  unfold textwrap.weight. induction a as [|c a IH]; simpl; [reflexivity|].
  rewrite IH. lia.
Qed.

Lemma weight_pos (a : list str) : a <> [] -> (0 < textwrap.weight a)%nat.
Proof. destruct a; [congruence|]. simpl. lia. Qed.

(** The inner loop takes a prefix of the stack that fits, and stops at a
    chunk that does not. *)
Lemma fit_spec (width : Z) (chunks cl0 : list str) (n0 : Z) :
  exists taken rest,
    textwrap.fit width cl0 n0 chunks
    = (cl0 ++ taken, n0 + len (concat taken), rest)
    /\ chunks = taken ++ rest
    /\ (n0 <= width -> n0 + len (concat taken) <= width)
    /\ match rest with
       | c :: _ => width < n0 + len (concat taken) + len c
       | [] => True
       end.
Proof.
  revert cl0 n0. induction chunks as [|c chunks IH]; intros cl0 n0.
  - exists [], []. simpl. rewrite app_nil_r, Z.add_0_r. repeat split; auto.
  - simpl textwrap.fit. destruct (n0 + len c <=? width) eqn:E.
    + apply Z.leb_le in E.
      destruct (IH (cl0 ++ [c]) (n0 + len c))
        as (taken & rest & Hf & Hc & Hw & Hr).
      exists (c :: taken), rest. rewrite Hf, <- app_assoc. simpl concat.
      rewrite len_app, Z.add_assoc. repeat split.
      * now rewrite Hc.
      * intros _. rewrite <- Z.add_assoc. rewrite Z.add_assoc. now apply Hw.
      * destruct rest; [exact I|]. lia.
    + apply Z.leb_gt in E.
      exists [], (c :: chunks). simpl. rewrite app_nil_r, Z.add_0_r.
      repeat split; auto; lia.
Qed.

(** Breaking a chunk that is longer than a line: the piece that goes on
    the current line fits in what is left of it, and is not empty when
    something is left. *)
Lemma handle_long_word_spec (chunk : str) (below cl : list str) (n width : Z) :
  1 <= width -> 0 <= n <= width -> width < len chunk ->
  exists piece rest,
    textwrap.handle_long_word (chunk :: below) cl n width
    = (rest :: below, cl ++ [piece])
    /\ chunk = piece ++ rest
    /\ len piece <= width - n
    /\ (n < width -> 1 <= len piece).
Proof.
  intros Hw Hn Hlong. unfold textwrap.handle_long_word.
  destruct (width <? 1) eqn:E1; [apply Z.ltb_lt in E1; lia|].
  set (space_left := width - n).
  set (hyphen := rfind chunk "-" space_left).
  match goal with
  | |- context [slice_from chunk ?e] => set (stop := e)
  end.
  exists (slice_to chunk stop), (slice_from chunk stop).
  assert (Hhy : hyphen < space_left).
  { subst hyphen. unfold rfind.
    pose proof (rindex_bound "-" (slice_to chunk space_left)) as Hb.
    rewrite len_slice_to in Hb by (subst space_left; lia). lia. }
  assert (Hstop : 0 <= stop <= space_left
                  /\ (n < width -> 1 <= stop)).
  { subst stop.
    destruct ((space_left <? len chunk) && (0 <? hyphen)
              && existsb _ (slice_to chunk hyphen)) eqn:E.
    - apply andb_true_iff in E as [E _]. apply andb_true_iff in E as [_ E].
      apply Z.ltb_lt in E. lia.
    - subst space_left. lia. }
  repeat split.
  - symmetry. apply slice_split.
  - rewrite len_slice_to by lia. subst space_left. lia.
  - intros Hlt. rewrite len_slice_to by lia. lia.
Qed.

Lemma carved_skip (gap text : str) (lines : list str) :
  forallb isspace gap = true -> carved text lines ->
  carved (gap ++ text) lines.
Proof.
  intros Hg Hc. destruct Hc as [gap' Hg' | gap' line rest lines Hg' Hc].
  - constructor. rewrite forallb_app. now rewrite Hg, Hg'.
  - rewrite app_assoc. constructor; [|exact Hc].
    rewrite forallb_app. now rewrite Hg, Hg'.
Qed.

Lemma drop_leading_spec (chunks lines : list str) :
  exists skipped,
    concat chunks = skipped ++ concat (textwrap.drop_leading chunks lines)
    /\ forallb isspace skipped = true
    /\ (lines = [] -> skipped = [])
    /\ (textwrap.weight (textwrap.drop_leading chunks lines)
        <= textwrap.weight chunks)%nat.
Proof.
  unfold textwrap.drop_leading. destruct chunks as [|top below].
  - exists []. repeat split; auto.
  - destruct (textwrap.blank top && negb (is_nil lines)) eqn:E.
    + apply andb_true_iff in E as [Hb Hl]. exists top. repeat split.
      * now apply blank_spaces.
      * intros ->. discriminate.
      * simpl. lia.
    + exists []. repeat split; auto.
Qed.

Lemma drop_trailing_spec (cur_line : list str) :
  exists gap,
    concat cur_line = concat (textwrap.drop_trailing cur_line) ++ gap
    /\ forallb isspace gap = true.
Proof.
  unfold textwrap.drop_trailing. destruct cur_line as [|c cl].
  - exists []. auto.
  - destruct (textwrap.blank (last (c :: cl) [])) eqn:E.
    + exists (last (c :: cl) []). split; [|now apply blank_spaces].
      rewrite <- concat_snoc. f_equal.
      apply app_removelast_last. discriminate.
    + exists []. now rewrite app_nil_r.
Qed.

Lemma break_long_spec (width : Z) (taken rest : list str) :
  1 <= width ->
  len (concat taken) <= width ->
  match rest with
  | c :: _ => width < len (concat taken) + len c
  | [] => True
  end ->
  exists chunks' cur_line,
    textwrap.break_long width rest taken (len (concat taken))
    = (chunks', cur_line)
    /\ concat taken ++ concat rest = concat cur_line ++ concat chunks'
    /\ len (concat cur_line) <= width
    /\ (textwrap.weight chunks' <= textwrap.weight rest)%nat
    /\ (taken = [] -> rest <> [] ->
        (textwrap.weight chunks' < textwrap.weight rest)%nat).
Proof.
  intros Hw Hn Hstop. unfold textwrap.break_long.
  destruct rest as [|c r].
  - exists [], taken. repeat split; auto. congruence.
  - destruct (width <? len c) eqn:E.
    + apply Z.ltb_lt in E.
      destruct (handle_long_word_spec c r taken (len (concat taken)) width)
        as (piece & restc & Hh & Hc & Hp & Hpos); auto.
      { pose proof (len_nonneg (concat taken)). lia. }
      exists (restc :: r), (taken ++ [piece]). rewrite Hh.
      repeat split.
      * rewrite concat_snoc. simpl concat. rewrite Hc, <- !app_assoc.
        reflexivity.
      * rewrite concat_snoc, len_app. lia.
      * simpl. rewrite Hc, length_app. lia.
      * intros -> _. change (len (concat [])) with 0 in Hpos.
        specialize (Hpos ltac:(lia)).
        simpl. rewrite Hc, length_app. unfold len in Hpos. lia.
    + apply Z.ltb_ge in E.
      exists (c :: r), taken. repeat split; auto.
      intros -> _. change (len (concat [])) with 0 in Hstop. lia.
Qed.

(** One pass of the outer loop: it cuts at most one line off the front of
    the text that is left, skips only whitespace, keeps the line within
    the width, and leaves less on the stack. *)
Lemma wrap_step_shape (width : Z) (chunks lines : list str) :
  1 <= width -> chunks <> [] ->
  exists skipped line gap chunks' lines',
    textwrap.wrap_step width chunks lines = (chunks', lines')
    /\ concat chunks = skipped ++ line ++ gap ++ concat chunks'
    /\ forallb isspace skipped = true
    /\ forallb isspace gap = true
    /\ len line <= width
    /\ (textwrap.weight chunks' < textwrap.weight chunks)%nat
    /\ ((lines' = lines /\ line = []) \/ lines' = lines ++ [line])
    /\ (lines = [] -> skipped = []).
Proof.
  intros Hw Hne. unfold textwrap.wrap_step.
  destruct (drop_leading_spec chunks lines)
    as (skipped & Hskip & Hsk & Hfirst & Hw1).
  set (chunks1 := textwrap.drop_leading chunks lines) in *.
  destruct (fit_spec width chunks1 [] 0)
    as (taken & rest & Hfit & Hsplit & Hfits & Hstop).
  rewrite Hfit. simpl app. rewrite Z.add_0_l in *.
  specialize (Hfits ltac:(lia)).
  destruct (break_long_spec width taken rest Hw Hfits Hstop)
    as (chunks' & cur_line & Hbreak & Hcat & Hlen & Hw2 & Hw3).
  rewrite Hbreak.
  destruct (drop_trailing_spec cur_line) as (gap & Hgap & Hg).
  set (cur_line' := textwrap.drop_trailing cur_line) in *.
  assert (Hweight : (textwrap.weight chunks' < textwrap.weight chunks)%nat).
  { rewrite Hsplit, weight_app in Hw1.
    destruct taken as [|t0 taken'].
    - destruct rest as [|c r].
      + simpl in Hsplit. pose proof (weight_pos chunks Hne).
        unfold textwrap.break_long in Hbreak. injection Hbreak as <- _.
        simpl. lia.
      + specialize (Hw3 eq_refl ltac:(discriminate)).
        change (textwrap.weight []) with 0%nat in Hw1. lia.
    - pose proof (weight_pos (t0 :: taken') ltac:(discriminate)). lia. }
  assert (Htext : concat chunks
                  = skipped ++ concat cur_line' ++ gap ++ concat chunks').
  { rewrite Hskip, Hsplit, concat_app, Hcat, Hgap, <- !app_assoc.
    reflexivity. }
  assert (Hline : len (concat cur_line') <= width).
  { rewrite Hgap, len_app in Hlen. pose proof (len_nonneg gap). lia. }
  exists skipped, (concat cur_line'), gap, chunks'.
  destruct cur_line' as [|c0 cl0] eqn:Ecl.
  - exists lines. repeat split; auto.
  - exists (lines ++ [concat (c0 :: cl0)]). repeat split; auto.
Qed.

(** The outer loop never runs out of passes. *)
Lemma wrap_loop_total (width : Z) :
  1 <= width ->
  forall (fuel : nat) (chunks lines : list str),
    (textwrap.weight chunks < fuel)%nat ->
    exists out, textwrap.wrap_loop fuel width chunks lines = Some out.
Proof.
  intros Hw. induction fuel as [|fuel IH]; intros chunks lines Hf; [lia|].
  simpl. destruct chunks as [|c chunks]; [eauto|].
  destruct (wrap_step_shape width (c :: chunks) lines Hw ltac:(discriminate))
    as (sk & line & gap & chunks' & lines' & Hstep & _ & _ & _ & _ & Hlt & _).
  rewrite Hstep. apply IH. lia.
Qed.

(** The lines the outer loop adds are carved out of the text on the
    stack, and each is within the width. *)
Lemma wrap_loop_carved (width : Z) :
  1 <= width ->
  forall (fuel : nat) (chunks lines out : list str),
    textwrap.wrap_loop fuel width chunks lines = Some out ->
    exists new,
      out = lines ++ new
      /\ carved (concat chunks) new
      /\ Forall (fun l => len l <= width) new.
Proof.
  intros Hw. induction fuel as [|fuel IH]; intros chunks lines out;
    [discriminate|].
  simpl. destruct chunks as [|c chunks].
  - intros E; injection E as <-. exists []. rewrite app_nil_r.
    repeat split; auto. now constructor.
  - destruct (wrap_step_shape width (c :: chunks) lines Hw ltac:(discriminate))
      as (sk & line & gap & chunks' & lines' & Hstep & Htext & Hsk & Hgap
          & Hlen & _ & Hlines & _).
    rewrite Hstep. intros Hloop.
    destruct (IH _ _ _ Hloop) as (new & Hout & Hc & Hall).
    rewrite Htext.
    destruct Hlines as [[-> ->] | ->].
    + exists new. repeat split; auto.
      simpl app. apply carved_skip; [exact Hsk|].
      apply carved_skip; assumption.
    + exists (line :: new). repeat split.
      * rewrite Hout, <- app_assoc. reflexivity.
      * constructor; [exact Hsk|]. apply carved_skip; assumption.
      * constructor; assumption.
Qed.

Lemma wrap_returns (text : str) (width : Z) :
  1 <= width ->
  exists lines,
    textwrap.wrap text width = Return lines
    /\ carved (concat (textwrap.split_chunks text)) lines
    /\ Forall (fun l => len l <= width) lines.
Proof.
  intros Hw. unfold textwrap.wrap, textwrap.wrap_chunks.
  destruct (width <=? 0) eqn:E; [apply Z.leb_le in E; lia|].
  destruct (wrap_loop_total width Hw
              (S (textwrap.weight (textwrap.split_chunks text)))
              (textwrap.split_chunks text) [] ltac:(lia)) as [out Hout].
  rewrite Hout.
  destruct (wrap_loop_carved width Hw _ _ _ _ Hout) as (new & -> & Hc & Hall).
  exists new. auto.
Qed.

Lemma wrap_invalid_width (text : str) (width : Z) :
  width <= 0 ->
  textwrap.fill text width
  = Raise (ValueError (lit "invalid width " ++ textwrap.repr_int width
                       ++ lit " (must be > 0)")).
Proof.
  intros Hw. unfold textwrap.fill, textwrap.wrap, textwrap.wrap_chunks.
  apply Z.leb_le in Hw. now rewrite Hw.
Qed.

Lemma for_each_Forall2 {A B} (f : A -> result B) (R : A -> B -> Prop)
  (xs : list A) :
  (forall x, In x xs -> exists y, f x = Return y /\ R x y) ->
  exists ys, for_each f xs = Return ys /\ Forall2 R xs ys.
Proof.
  induction xs as [|x xs IH]; intros Hf.
  - exists []. split; [reflexivity | constructor].
  - destruct (Hf x (or_introl eq_refl)) as (y & Hy & Hr).
    destruct IH as (ys & Hys & Hall).
    { intros x' Hx'. apply Hf. now right. }
    exists (y :: ys). simpl. rewrite Hy, Hys. simpl.
    split; [reflexivity | now constructor].
Qed.

Lemma fifth_positive (max_width : Z) : 5 <= max_width -> 1 <= max_width / 5.
Proof.
  intros Hw. apply Z.div_le_lower_bound; lia.
Qed.

(** With a width of five pixels or more the wrap step returns, and its
    result is the blocks of the paragraphs, joined by line feeds. *)
Lemma wrap_for_multiline_blocks `{PIL} (draw : Image) (font : FreeTypeFont)
  (text : str) (max_width : Z) :
  5 <= max_width ->
  exists blocks,
    wrap_for_multiline draw text font max_width = Return (join [LF] blocks)
    /\ Forall2 (wrapped_block (max_width / 5)) (paragraphs text) blocks.
Proof.
  intros Hw. pose proof (fifth_positive _ Hw) as Hw5.
  unfold wrap_for_multiline. fold (paragraphs text).
  destruct (for_each_Forall2
              (fun paragraph =>
                 if is_empty (strip paragraph) then Return []
                 else textwrap.fill paragraph (max_width / 5))
              (wrapped_block (max_width / 5)) (paragraphs text))
    as (blocks & Hfe & Hall).
  { intros p _. destruct (is_empty (strip p)) eqn:E.
    - exists []. split; [reflexivity|]. left. split; [|reflexivity].
      now apply is_empty_nil.
    - destruct (wrap_returns p (max_width / 5) Hw5) as (lines & Hl & Hc & Hf).
      exists (join [LF] lines). unfold textwrap.fill. rewrite Hl. simpl.
      split; [reflexivity|]. right. split.
      + intros Hs. apply is_empty_nil in Hs. congruence.
      + exists lines. auto. }
  exists blocks. rewrite Hfe. simpl. auto.
Qed.

(** ** Lines and paragraphs *)

Lemma split_on_nonempty (c : ascii) (s : str) : split_on c s <> [].
Proof.
  destruct s as [|x s]; simpl; [discriminate|].
  destruct (eqc x c); [discriminate|].
  destruct (split_on c s); discriminate.
Qed.

Lemma split_on_app (c : ascii) (a b : str) :
  split_on c (a ++ c :: b) = split_on c a ++ split_on c b.
Proof.
  induction a as [|x a IH]; simpl.
  - now rewrite eqc_refl.
  - destruct (eqc x c); [now rewrite IH|].
    rewrite IH. pose proof (split_on_nonempty c a) as Hne.
    destruct (split_on c a); [congruence | reflexivity].
Qed.

Lemma split_on_join (c : ascii) (parts : list str) :
  parts <> [] ->
  split_on c (join [c] parts) = flat_map (split_on c) parts.
Proof.
  induction parts as [|p parts IH]; [congruence|]. intros _.
  destruct parts as [|q parts].
  - simpl. now rewrite app_nil_r.
  - change (join [c] (p :: q :: parts)) with (p ++ c :: join [c] (q :: parts)).
    rewrite split_on_app, IH by discriminate. reflexivity.
Qed.

Lemma split_on_free (c : ascii) (s : str) :
  contains c s = false -> split_on c s = [s].
Proof.
  unfold contains. induction s as [|x s IH]; simpl; [reflexivity|].
  intros Hc. apply orb_false_iff in Hc as [Hx Hs].
  assert (Hxc : eqc x c = false).
  { destruct (eqc x c) eqn:E; [|reflexivity].
    apply eqc_eq in E; subst x. now rewrite eqc_refl in Hx. }
  now rewrite Hxc, (IH Hs).
Qed.

Lemma split_on_len (c : ascii) (s : str) (n : Z) :
  len s <= n -> Forall (fun piece => len piece <= n) (split_on c s).
Proof.
  revert n. induction s as [|x s IH]; intros n Hn; simpl.
  - constructor; [exact Hn | constructor].
  - assert (Hs : len s <= n - 1) by (unfold len in *; simpl length in Hn; lia).
    specialize (IH _ Hs).
    assert (Hweak : Forall (fun piece => len piece <= n) (split_on c s)).
    { eapply Forall_impl; [|exact IH]. simpl. intros; lia. }
    destruct (eqc x c).
    + constructor; [|exact Hweak]. pose proof (len_nonneg s).
      unfold len in *. simpl in *. lia.
    + destruct (split_on c s) as [|p ps]; [constructor; [|constructor]|].
      * unfold len in *. simpl in *. lia.
      * inversion IH; subst. inversion Hweak; subst.
        constructor; [|assumption].
        unfold len in *. simpl length. lia.
Qed.

(** The lines of a block are within the width. *)
Lemma wrapped_block_lines (width : Z) (paragraph block : str) :
  0 <= width ->
  wrapped_block width paragraph block ->
  Forall (fun line => len line <= width) (split_on LF block).
Proof.
  intros Hw [[_ ->] | (_ & lines & _ & -> & _ & Hall)].
  - constructor; [exact Hw | constructor].
  - destruct lines as [|l lines].
    + constructor; [exact Hw | constructor].
    + rewrite split_on_join by discriminate.
      apply Forall_flat_map. eapply Forall_impl; [|exact Hall].
      intros line Hline. now apply split_on_len.
Qed.

Lemma Forall2_nonempty {A B} (R : A -> B -> Prop) (xs : list A) (ys : list B) :
  Forall2 R xs ys -> xs <> [] -> ys <> [].
Proof. intros [|x y xs' ys' _ _]; congruence. Qed.

(** C3, as stated, fails: the wrap step does not return for every wrap
    width from 0 on.  With a wrap width of 4 pixels (and so with every
    width from 0 to 4) it raises on the caption [a]; and with a wrap
    width of 10 pixels the word [hello] does not stay on a line of its
    own but is broken into [he], [ll] and [o]. *)
Lemma narrow_wrap_width_raises :
  @wrap_for_multiline demo_pil (400, 300) (lit "a") 16 4
  = Raise (ValueError (lit "invalid width 0 (must be > 0)"))
  /\ @wrap_for_multiline demo_pil (400, 300) (lit "hello") 16 10
     = Return (join [LF] [lit "he"; lit "ll"; lit "o"])
  /\ ~ (forall (P : PIL) (draw : Image) (font : FreeTypeFont) (text : str)
               (max_width : Z),
          0 <= max_width ->
          exists out, wrap_for_multiline draw text font max_width = Return out).
Proof.
  split; [vm_compute; reflexivity|]. split; [vm_compute; reflexivity|].
  intros Hclaim.
  destruct (Hclaim demo_pil (400, 300) 16 (lit "a") 4 ltac:(lia))
    as [out Hout].
  vm_compute in Hout. discriminate Hout.
Qed.

(** C3, amended.  The wrap step of the pipeline returns a wrapped block
    for every caption and every wrap width of 5 pixels or more, and
    every line of the block has at most [max_width // 5] characters;
    the empty caption gives a single empty line, whatever the width. *)
Theorem wrap_step_returns :
  forall `{PIL} (draw : Image) (font : FreeTypeFont) (text : str)
         (max_width : Z),
    (5 <= max_width ->
     exists out,
       wrap_for_multiline draw text font max_width = Return out
       /\ Forall (fun line => len line <= max_width / 5) (split_on LF out))
    /\ wrap_for_multiline draw [] font max_width = Return []
    /\ split_on LF [] = [[]].
Proof.
  intros P draw font text max_width. split; [|split; reflexivity].
  intros Hw.
  destruct (wrap_for_multiline_blocks draw font text max_width Hw)
    as (blocks & Hout & Hall).
  exists (join [LF] blocks). split; [exact Hout|].
  pose proof (fifth_positive _ Hw) as Hw5.
  rewrite split_on_join.
  - apply Forall_flat_map.
    clear Hout. induction Hall as [|p b ps bs Hb _ IH]; constructor; auto.
    apply (wrapped_block_lines _ p); [lia | exact Hb].
  - eapply Forall2_nonempty; [exact Hall|]. apply split_on_nonempty.
Qed.

Lemma wrap_step_returns_witness :
  exists out,
    @wrap_for_multiline demo_pil (400, 300) (lit "Hello world") 16 360
    = Return out
    /\ Forall (fun line => len line <= 360 / 5) (split_on LF out).
Proof.
  apply (proj1 (@wrap_step_returns demo_pil (400, 300) 16
                  (lit "Hello world") 360)).
  lia.
Defined.

(** ** The greedy wrap [wrap_text] *)

Lemma join_snoc (sep : str) (l : list str) (x : str) :
  l <> [] -> join sep (l ++ [x]) = join sep l ++ sep ++ x.
Proof.
  induction l as [|a l IH]; [congruence|]. intros _.
  destruct l as [|b l]; [reflexivity|].
  change (join sep ((a :: b :: l) ++ [x]))
    with (a ++ sep ++ join sep ((b :: l) ++ [x])).
  rewrite IH by discriminate.
  change (join sep (a :: b :: l)) with (a ++ sep ++ join sep (b :: l)).
  now rewrite <- !app_assoc.
Qed.

Lemma join_cons_nonempty (sep a : str) (l : list str) :
  a <> [] -> join sep (a :: l) <> [].
Proof.
  intros Ha. destruct l; simpl; [exact Ha|].
  destruct a; [congruence | discriminate].
Qed.

Lemma split_loop_words (cur s : str) :
  forallb (fun c => negb (isspace c)) cur = true ->
  Forall is_word (split_loop cur s).
Proof.
  revert cur. induction s as [|c s IH]; intros cur Hcur; simpl.
  - destruct cur as [|x cur]; constructor; [|constructor].
    split.
    + intros E. apply (f_equal (@length ascii)) in E.
      rewrite length_rev in E. discriminate.
    + rewrite forallb_forall in *. intros y Hy. apply Hcur.
      now apply in_rev.
  - destruct (isspace c) eqn:E.
    + destruct cur as [|x cur]; [apply IH; reflexivity|].
      constructor; [|apply IH; reflexivity].
      split.
      * intros E'. apply (f_equal (@length ascii)) in E'.
        rewrite length_rev in E'. discriminate.
      * rewrite forallb_forall in *. intros y Hy. apply Hcur.
        now apply in_rev.
    + apply IH. simpl. now rewrite E.
Qed.

(** The words of [split()] are non-empty and free of whitespace. *)
Lemma split_words (s : str) : Forall is_word (split s).
Proof. apply split_loop_words. reflexivity. Qed.

Section Greedy.

Context `{PIL}.
Variables (draw : Image) (font : FreeTypeFont) (max_width spacing : Z).

#[local] Abbreviation fit := (fits draw font max_width spacing).

(** The loop of [wrap_text] is the greedy wrap. *)
Lemma wrap_text_loop_greedy (words : list str) :
  Forall is_word words ->
  forall (current : list str) (lines : list str),
    Forall is_word current ->
    exists groups,
      greedy fit current words groups
      /\ (let '(lines', current') :=
            wrap_text_loop draw font max_width spacing words lines
              (line_of current) in
          if negb (is_empty current') then lines' ++ [current'] else lines')
         = lines ++ map line_of groups.
Proof.
  induction 1 as [|word words Hword Hwords IH]; intros current lines Hcur.
  - simpl. destruct current as [|c current].
    + exists []. simpl. rewrite app_nil_r. split; [constructor | reflexivity].
    + exists [c :: current]. split; [constructor; discriminate|].
      assert (Hne : line_of (c :: current) <> []).
      { apply join_cons_nonempty. inversion Hcur; subst. now destruct H2. }
      simpl map.
      destruct (line_of (c :: current)); [congruence | reflexivity].
  - simpl wrap_text_loop. destruct current as [|c current].
    + simpl line_of. simpl is_empty. cbv iota. simpl negb. cbv iota.
      destruct (IH [word] lines ltac:(now constructor)) as (groups & Hg & Hl).
      exists groups. split; [now constructor|].
      change (line_of [word]) with word in Hl.
      destruct (_ <=? max_width); exact Hl.
    + assert (Hne : line_of (c :: current) <> []).
      { apply join_cons_nonempty. inversion Hcur; subst. now destruct H2. }
      assert (Hemp : is_empty (line_of (c :: current)) = false).
      { destruct (line_of (c :: current)); [congruence | reflexivity]. }
      rewrite Hemp. simpl negb. cbv iota.
      assert (Htest : line_of (c :: current) ++ lit " " ++ word
                      = line_of ((c :: current) ++ [word])).
      { unfold line_of. now rewrite join_snoc by discriminate. }
      change (line_of (c :: current) ++ " "%char :: word)
        with (line_of (c :: current) ++ lit " " ++ word).
      rewrite Htest.
      fold (measured_width draw font spacing
              (line_of ((c :: current) ++ [word]))).
      fold (fit (line_of ((c :: current) ++ [word]))).
      destruct (fit (line_of ((c :: current) ++ [word]))) eqn:Efit.
      * destruct (IH ((c :: current) ++ [word]) lines) as (groups & Hg & Hl).
        { apply Forall_app. split; [exact Hcur | now constructor]. }
        exists groups. split; [|exact Hl].
        apply greedy_join; [discriminate | exact Efit | exact Hg].
      * destruct (IH [word] (lines ++ [line_of (c :: current)])
                    ltac:(now constructor)) as (groups & Hg & Hl).
        exists ((c :: current) :: groups). split.
        -- apply greedy_break; [discriminate | exact Efit | exact Hg].
        -- change (line_of [word]) with word in Hl. rewrite Hl.
           now rewrite <- app_assoc.
Qed.

(** The lines of a greedy wrap hold the words, each once and in order. *)
Lemma greedy_words (current words : list str) (groups : list (list str)) :
  greedy fit current words groups ->
  concat groups = current ++ words
  /\ Forall (fun g => g <> []) groups.
Proof.
  induction 1 as [|current Hc|word words groups _ [IH1 IH2]
                  |current word words groups Hc Hf _ [IH1 IH2]
                  |current word words groups Hc Hf _ [IH1 IH2]].
  - split; [reflexivity | constructor].
  - split; [simpl; now rewrite !app_nil_r | constructor; auto].
  - split; [exact IH1 | exact IH2].
  - split; [now rewrite IH1, <- app_assoc | exact IH2].
  - split; [simpl; now rewrite IH1 | constructor; auto].
Qed.

(** A line of a greedy wrap fits, unless it is a single word. *)
Lemma greedy_lines_fit (current words : list str) (groups : list (list str)) :
  greedy fit current words groups ->
  fit (line_of current) = true \/ (exists w, current = [w]) \/ current = [] ->
  Forall (fun g => fit (line_of g) = true \/ exists w, g = [w]) groups.
Proof.
  induction 1 as [|current Hc|word words groups _ IH
                  |current word words groups Hc Hf _ IH
                  |current word words groups Hc Hf _ IH]; intros Hcur.
  - constructor.
  - constructor; [|constructor].
    destruct Hcur as [Hfit | [Hw | ->]]; auto; congruence.
  - apply IH. right. left. eauto.
  - apply IH. now left.
  - constructor.
    + destruct Hcur as [Hfit | [Hw | ->]]; auto; congruence.
    + apply IH. right. left. eauto.
Qed.

End Greedy.

Lemma split_loop_word (w cur t : str) :
  forallb (fun c => negb (isspace c)) w = true ->
  split_loop cur (w ++ t) = split_loop (rev w ++ cur) t.
Proof.
  revert cur. induction w as [|c w IH]; intros cur Hw; [reflexivity|].
  simpl in Hw. apply andb_true_iff in Hw as [Hc Hw].
  apply negb_true_iff in Hc. simpl. rewrite Hc, IH by exact Hw.
  now rewrite <- app_assoc.
Qed.

(** A word, then a whitespace character: [split()] gives the word and
    goes on. *)
Lemma split_word_space (w t : str) (c : ascii) :
  is_word w -> isspace c = true ->
  split (w ++ c :: t) = w :: split t.
Proof.
  intros [Hne Hw] Hc. unfold split.
  rewrite split_loop_word by exact Hw. simpl. rewrite Hc, app_nil_r.
  destruct (rev w) eqn:E.
  - apply (f_equal (@rev ascii)) in E. rewrite rev_involutive in E.
    simpl in E. congruence.
  - rewrite <- E, rev_involutive. reflexivity.
Qed.

Lemma split_word_end (w : str) : is_word w -> split w = [w].
Proof.
  intros [Hne Hw]. unfold split.
  rewrite <- (app_nil_r w) at 1.
  rewrite split_loop_word by exact Hw. simpl. rewrite app_nil_r.
  destruct (rev w) eqn:E.
  - apply (f_equal (@rev ascii)) in E. rewrite rev_involutive in E.
    simpl in E. congruence.
  - rewrite <- E, rev_involutive. reflexivity.
Qed.

Lemma split_leading_space (c : ascii) (t : str) :
  isspace c = true -> split (c :: t) = split t.
Proof. intros Hc. unfold split. simpl. now rewrite Hc. Qed.

(** [split()] reads back the words of a line, up to the next whitespace. *)
Lemma split_line (g : list str) (t : str) :
  g <> [] -> Forall is_word g ->
  t = [] \/ (exists c t', t = c :: t' /\ isspace c = true) ->
  split (line_of g ++ t) = g ++ split t.
Proof.
  intros Hne Hg Ht. induction g as [|w g IH]; [congruence|].
  inversion Hg as [|w' g' Hw Hg']; subst.
  destruct g as [|w2 g].
  - simpl line_of. destruct Ht as [-> | (c & t' & -> & Hc)].
    + rewrite app_nil_r. now apply split_word_end.
    + rewrite split_word_space, split_leading_space by assumption.
      reflexivity.
  - change (line_of (w :: w2 :: g)) with (w ++ lit " " ++ line_of (w2 :: g)).
    rewrite <- !app_assoc.
    change (lit " " ++ line_of (w2 :: g) ++ t)
      with (SP :: (line_of (w2 :: g) ++ t)).
    rewrite split_word_space by (auto; reflexivity).
    rewrite IH by (auto; discriminate). reflexivity.
Qed.

(** [split()] reads back the words of the lines of a wrapped text. *)
Lemma split_lines (groups : list (list str)) :
  Forall (fun g => g <> []) groups ->
  Forall (Forall is_word) groups ->
  split (join [LF] (map line_of groups)) = concat groups.
Proof.
  induction groups as [|g groups IH]; intros Hne Hw; [reflexivity|].
  inversion Hne as [|g0 gs0 Hg Hne']; subst.
  inversion Hw as [|g0 gs0 Hgw Hw']; subst.
  destruct groups as [|g2 groups].
  - simpl. rewrite app_nil_r.
    rewrite <- (app_nil_r (line_of g)).
    rewrite split_line by auto. simpl. now rewrite app_nil_r.
  - change (join [LF] (map line_of (g :: g2 :: groups)))
      with (line_of g ++ LF :: join [LF] (map line_of (g2 :: groups))).
    rewrite split_line; auto.
    + rewrite split_leading_space by reflexivity.
      rewrite IH by assumption. reflexivity.
    + right. eexists _, _. split; reflexivity.
Qed.

Lemma Forall_concat_inv {A} (P : A -> Prop) (ls : list (list A)) :
  Forall P (concat ls) -> Forall (Forall P) ls.
Proof.
  induction ls as [|l ls IH]; simpl; intros Hall; constructor.
  - apply Forall_app in Hall. tauto.
  - apply IH. apply Forall_app in Hall. tauto.
Qed.

Lemma word_no_line_feed (w : str) :
  forallb (fun c => negb (isspace c)) w = true -> contains LF w = false.
Proof.
  unfold contains. induction w as [|c w IH]; simpl; [reflexivity|].
  rewrite andb_true_iff. intros [Hc Hw]. rewrite (IH Hw), orb_false_r.
  destruct (eqc LF c) eqn:E; [|reflexivity].
  apply eqc_eq in E; subst c. discriminate.
Qed.

Lemma contains_app (c : ascii) (a b : str) :
  contains c (a ++ b) = contains c a || contains c b.
Proof. unfold contains. apply existsb_app. Qed.

Lemma line_no_line_feed (g : list str) :
  Forall is_word g -> contains LF (line_of g) = false.
Proof.
  induction g as [|w g IH]; intros Hg; [reflexivity|].
  inversion Hg as [|w0 g0 [_ Hw] Hg']; subst.
  destruct g as [|w2 g].
  - simpl. now apply word_no_line_feed.
  - change (line_of (w :: w2 :: g)) with (w ++ lit " " ++ line_of (w2 :: g)).
    rewrite !contains_app, (word_no_line_feed w Hw), (IH Hg').
    reflexivity.
Qed.

(** The lines of the joined text are the lines that were joined. *)
Lemma split_on_lines (lines : list str) :
  lines <> [] ->
  Forall (fun l => contains LF l = false) lines ->
  split_on LF (join [LF] lines) = lines.
Proof.
  intros Hne Hall. rewrite split_on_join by exact Hne.
  clear Hne. induction Hall as [|l lines Hl _ IH]; [reflexivity|].
  simpl. now rewrite (split_on_free _ _ Hl), IH.
Qed.

Section GreedyWrap.

Context `{PIL}.
Variables (draw : Image) (font : FreeTypeFont) (max_width spacing : Z).

#[local] Abbreviation fit_line := (fits draw font max_width spacing).

(** [wrap_text] is the greedy wrap of the words of the text. *)
Lemma wrap_text_greedy (text : str) :
  exists groups,
    greedy fit_line [] (split text) groups
    /\ wrap_text draw text font max_width spacing
       = join [LF] (map line_of groups).
Proof.
  destruct (wrap_text_loop_greedy draw font max_width spacing (split text)
              (split_words text) [] [] ltac:(constructor))
    as (groups & Hg & Hl).
  exists groups. split; [exact Hg|].
  unfold wrap_text. change (line_of []) with (@nil ascii) in Hl.
  destruct (wrap_text_loop draw font max_width spacing (split text) [] [])
    as [lines current].
  now rewrite Hl.
Qed.

(** [wrap_text] reads its text through [split()] only. *)
Lemma wrap_text_words (text text' : str) :
  split text = split text' ->
  wrap_text draw text font max_width spacing
  = wrap_text draw text' font max_width spacing.
Proof. intros E. unfold wrap_text. now rewrite E. Qed.

(** Wrapping the wrapped text again changes nothing. *)
Lemma wrap_text_idempotent (text : str) :
  wrap_text draw (wrap_text draw text font max_width spacing) font
    max_width spacing
  = wrap_text draw text font max_width spacing.
Proof.
  apply wrap_text_words.
  destruct (wrap_text_greedy text) as (groups & Hg & ->).
  destruct (greedy_words _ _ _ _ _ _ _ Hg) as [Hcat Hne].
  simpl in Hcat. rewrite <- Hcat. apply split_lines; [exact Hne|].
  apply Forall_concat_inv. rewrite Hcat. apply split_words.
Qed.

End GreedyWrap.

(** C1, as stated, fails: the wrap step of the pipeline is not the greedy
    pixel-measured wrap.  With characters ten pixels wide and a wrap
    width of 25 pixels, the words [aa] and [bb] fit, yet the pipeline
    keeps them on one line, which measures 50 pixels, where the greedy
    wrap gives two lines; and the pipeline breaks the single word
    [aaaaaaaa] in the middle.  So it is not true that every line of the
    pipeline fits whenever every word fits. *)
Lemma pipeline_wrap_is_not_greedy :
  @fits demo_pil (400, 300) 16 25 4 (lit "aa") = true
  /\ @fits demo_pil (400, 300) 16 25 4 (lit "bb") = true
  /\ @wrap_for_multiline demo_pil (400, 300) (lit "aa bb") 16 25
     = Return (lit "aa bb")
  /\ @fits demo_pil (400, 300) 16 25 4 (lit "aa bb") = false
  /\ @wrap_text demo_pil (400, 300) (lit "aa bb") 16 25 4
     = join [LF] [lit "aa"; lit "bb"]
  /\ @wrap_for_multiline demo_pil (400, 300) (lit "aaaaaaaa") 16 25
     = Return (join [LF] [lit "aaaaa"; lit "aaa"])
  /\ ~ (forall (P : PIL) (draw : Image) (font : FreeTypeFont) (text out : str)
               (max_width : Z),
          wrap_for_multiline draw text font max_width = Return out ->
          Forall (fun word => fits draw font max_width 4 word = true)
            (split text) ->
          Forall (fun line => fits draw font max_width 4 line = true)
            (split_on LF out)).
Proof.
  do 6 (split; [vm_compute; reflexivity|]).
  intros Hclaim.
  pose proof (Hclaim demo_pil (400, 300) 16 (lit "aa bb") (lit "aa bb") 25
                eq_refl ltac:(repeat constructor)) as Hall.
  inversion Hall as [|line lines Hline _]. discriminate Hline.
Qed.

(** C1, amended.  The greedy pixel-measured wrap is what [wrap_text]
    computes: its lines are the words of the paragraph, each once and in
    order and none broken, grouped greedily (a word joins the line in
    progress exactly when the candidate line, the words so far and the
    new word joined by spaces, measures at most [max_width]); a line that
    measures more is a single word; so when every word fits, every line
    fits.  The pipeline does not call [wrap_text]: the result of its
    wrap step [wrap_for_multiline] is the same for every font and every
    text measurement. *)
Theorem wrap_text_is_greedy :
  forall `{PIL} (draw : Image) (font : FreeTypeFont) (text : str)
         (max_width spacing : Z),
    (exists groups,
       greedy (fits draw font max_width spacing) [] (split text) groups
       /\ concat groups = split text
       /\ wrap_text draw text font max_width spacing
          = join [LF] (map line_of groups)
       /\ (groups <> [] ->
           split_on LF (wrap_text draw text font max_width spacing)
           = map line_of groups)
       /\ Forall (fun g => fits draw font max_width spacing (line_of g) = true
                           \/ exists word, g = [word]) groups
       /\ (Forall (fun word => fits draw font max_width spacing word = true)
             (split text) ->
           Forall (fun line => fits draw font max_width spacing line = true)
             (map line_of groups)))
    /\ (forall (other : PIL) (draw' : @Image other)
               (font' : @FreeTypeFont other),
          wrap_for_multiline draw text font max_width
          = @wrap_for_multiline other draw' text font' max_width).
Proof.
  intros P draw font text max_width spacing. split; [|reflexivity].
  destruct (wrap_text_greedy draw font max_width spacing text)
    as (groups & Hg & Hout).
  destruct (greedy_words _ _ _ _ _ _ _ Hg) as [Hcat Hne].
  simpl in Hcat.
  pose proof (greedy_lines_fit _ _ _ _ _ _ _ Hg
                ltac:(right; right; reflexivity)) as Hfit.
  assert (Hwords : Forall (Forall is_word) groups).
  { apply Forall_concat_inv. rewrite Hcat. apply split_words. }
  exists groups. repeat split; auto.
  - intros Hgne. rewrite Hout. apply split_on_lines.
    + destruct groups; [congruence | discriminate].
    + apply Forall_map. eapply Forall_impl; [|exact Hwords].
      intros g. apply line_no_line_feed.
  - intros Hall. apply Forall_map.
    assert (Hin : forall g, In g groups -> forall w, In w g ->
                            fits draw font max_width spacing w = true).
    { intros g Hg' w Hw. rewrite Forall_forall in Hall. apply Hall.
      rewrite <- Hcat. apply in_concat. eauto. }
    rewrite Forall_forall in Hfit. apply Forall_forall. intros g Hg'.
    destruct (Hfit g Hg') as [Hf | [w ->]]; [exact Hf|].
    apply (Hin [w] Hg'). now left.
Qed.

Lemma wrap_text_is_greedy_witness :
  exists groups,
    @wrap_text demo_pil (400, 300) (lit "aa bb cc") 16 55 4
    = join [LF] (map line_of groups)
    /\ Forall (fun line => @fits demo_pil (400, 300) 16 55 4 line = true)
         (map line_of groups).
Proof.
  destruct (proj1 (@wrap_text_is_greedy demo_pil (400, 300) 16
                     (lit "aa bb cc") 55 4))
    as (groups & _ & _ & Hout & _ & _ & Hall).
  exists groups. split; [exact Hout|].
  apply Hall. repeat constructor.
Defined.

(** ** The chunks of [textwrap] *)

Lemma length_takeWhile (p : ascii -> bool) (s : str) :
  (length (takeWhile p s) <= length s)%nat.
Proof.
  induction s as [|c s IH]; simpl; [lia|].
  destruct (p c); simpl; lia.
Qed.

Lemma word_rest_length (before s : str) :
  (textwrap.word_rest before s <= length s)%nat.
Proof.
  revert before. induction s as [|c s IH]; intros before; simpl; [lia|].
  destruct (eqc c "-" && textwrap.hyphen_behind before
            && textwrap.letters_ahead s); [lia|].
  destruct (textwrap.whitespace c); [lia|].
  destruct (textwrap.punct_behind before && textwrap.emdash_ahead (c :: s));
    [lia|].
  specialize (IH (c :: before)). lia.
Qed.

(** A match of [wordsep_re] is not empty and lies within the text. *)
Lemma wordsep_match_bounds (before s : str) :
  s <> [] ->
  (1 <= textwrap.wordsep_match before s <= length s)%nat.
Proof.
  destruct s as [|c s]; [congruence|]. intros _.
  unfold textwrap.wordsep_match.
  destruct (textwrap.whitespace c) eqn:Ews.
  - pose proof (length_takeWhile textwrap.whitespace (c :: s)) as Hle.
    simpl takeWhile in *. rewrite Ews in *. simpl length in *. lia.
  - destruct (textwrap.punct_behind before && textwrap.emdash_ahead (c :: s))
      eqn:Edash.
    + apply andb_true_iff in Edash as [_ Edash].
      unfold textwrap.emdash_ahead in Edash.
      apply andb_true_iff in Edash as [Ek _]. apply Nat.leb_le in Ek.
      pose proof (length_takeWhile (eqc "-") (c :: s)) as Hle.
      unfold textwrap.hyphens in *. lia.
    + pose proof (word_rest_length (c :: before) s). simpl length. lia.
Qed.

Lemma wordsep_split_step (fuel : nat) (before s : str) (c : ascii) :
  textwrap.wordsep_split (S fuel) before (c :: s)
  = firstn (textwrap.wordsep_match before (c :: s)) (c :: s)
    :: textwrap.wordsep_split fuel
         (rev (firstn (textwrap.wordsep_match before (c :: s)) (c :: s))
          ++ before)
         (skipn (textwrap.wordsep_match before (c :: s)) (c :: s)).
Proof. reflexivity. Qed.

(** The chunks are not empty, and together they are the text. *)
Lemma wordsep_split_spec (fuel : nat) :
  forall (before s : str),
    (length s <= fuel)%nat ->
    concat (textwrap.wordsep_split fuel before s) = s
    /\ Forall (fun c => c <> []) (textwrap.wordsep_split fuel before s).
Proof.
  induction fuel as [|fuel IH]; intros before s Hf.
  - destruct s; [|simpl in Hf; lia]. split; [reflexivity | constructor].
  - destruct s as [|c s]; [split; [reflexivity | constructor]|].
    rewrite wordsep_split_step.
    set (n := textwrap.wordsep_match before (c :: s)).
    pose proof (wordsep_match_bounds before (c :: s) ltac:(discriminate))
      as Hn. fold n in Hn.
    destruct (IH (rev (firstn n (c :: s)) ++ before) (skipn n (c :: s)))
      as [Hcat Hne].
    { rewrite length_skipn. simpl length in *. lia. }
    split.
    + simpl concat. rewrite Hcat. apply firstn_skipn.
    + constructor; [|exact Hne].
      intros E. apply (f_equal (@length ascii)) in E.
      rewrite length_firstn in E. simpl length in *. lia.
Qed.

Lemma plain_not_tab (c : ascii) : plain c = true -> eqc c TAB = false.
Proof.
  intros Hp. destruct (eqc c TAB) eqn:E; [|reflexivity].
  apply eqc_eq in E; subst c. discriminate.
Qed.

Lemma expandtabs_plain (s : str) (col : Z) :
  forallb plain s = true -> expandtabs_loop 8 col s = s.
Proof.
  revert col. induction s as [|c s IH]; intros col; simpl; [reflexivity|].
  rewrite andb_true_iff. intros [Hc Hs].
  rewrite (plain_not_tab c Hc). now rewrite IH.
Qed.

Lemma munge_char_plain (c : ascii) :
  plain c = true -> (if textwrap.whitespace c then SP else c) = c.
Proof.
  unfold plain. destruct (textwrap.whitespace c); [|reflexivity].
  simpl. intros E. apply eqc_eq in E. now subst c.
Qed.

(** [_munge_whitespace] leaves a text of plain characters as it is. *)
Lemma munge_plain (s : str) :
  forallb plain s = true -> textwrap.munge_whitespace s = s.
Proof.
  intros Hs. unfold textwrap.munge_whitespace, expandtabs.
  rewrite (expandtabs_plain s 0 Hs).
  induction s as [|c s IH]; simpl; [reflexivity|].
  simpl in Hs. apply andb_true_iff in Hs as [Hc Hs].
  now rewrite (munge_char_plain c Hc), IH.
Qed.

(** [_munge_whitespace] gives plain characters. *)
Lemma munge_gives_plain (s : str) :
  forallb plain (textwrap.munge_whitespace s) = true.
Proof.
  unfold textwrap.munge_whitespace.
  induction (expandtabs s 8) as [|c t IH]; simpl; [reflexivity|].
  rewrite IH, andb_true_r. unfold plain.
  destruct (textwrap.whitespace c) eqn:E; [reflexivity|].
  now rewrite E.
Qed.

Lemma space_of_textwrap (c : ascii) :
  textwrap.whitespace c = true -> isspace c = true.
Proof.
  unfold textwrap.whitespace, isspace.
  intros Hw. apply orb_true_iff in Hw as [Hw | Hw].
  - now rewrite Hw.
  - apply Z.eqb_eq in Hw. rewrite Hw. reflexivity.
Qed.

Lemma expandtabs_keeps (s : str) (col : Z) (c : ascii) :
  In c s -> isspace c = false -> In c (expandtabs_loop 8 col s).
Proof.
  intros Hin Hc. revert col.
  induction s as [|x s IH]; intros col; [contradiction|].
  simpl. destruct (eqc x TAB) eqn:E.
  - apply eqc_eq in E; subst x.
    destruct Hin as [<- | Hin]; [discriminate Hc|].
    simpl. apply in_or_app. right. now apply IH.
  - destruct Hin as [-> | Hin]; [now left|]. right. now apply IH.
Qed.

(** [_munge_whitespace] keeps every character that is no whitespace. *)
Lemma munge_keeps (s : str) (c : ascii) :
  In c s -> isspace c = false -> In c (textwrap.munge_whitespace s).
Proof.
  intros Hin Hc. unfold textwrap.munge_whitespace, expandtabs.
  pose proof (expandtabs_keeps s 0 c Hin Hc) as Hin'.
  apply in_map_iff. exists c. split; [|exact Hin'].
  destruct (textwrap.whitespace c) eqn:E; [|reflexivity].
  apply space_of_textwrap in E. congruence.
Qed.

(** ** Escaped line breaks *)

Lemma pair_induction (P : str -> Prop) :
  P [] ->
  (forall x, P [x]) ->
  (forall x y r, P r -> P (y :: r) -> P (x :: y :: r)) ->
  forall s, P s.
Proof.
  intros H0 H1 H2 s.
  assert (Hboth : P s /\ forall x, P (x :: s)).
  { induction s as [|y r [IHr IHyr]]; [split; auto|].
    split; [apply IHyr|]. intros x. apply H2; auto. }
  apply Hboth.
Qed.

Lemma replace2_step (a b c x y : ascii) (r : str) :
  replace2 a b c (x :: y :: r)
  = if eqc x a && eqc y b then c :: replace2 a b c r
    else x :: replace2 a b c (y :: r).
Proof. reflexivity. Qed.

(** An escaped line break becomes a line break, whatever surrounds it. *)
Lemma replace2_escape (s t : str) :
  replace2 "\" "n" LF (s ++ lit "\n" ++ t)
  = replace2 "\" "n" LF s ++ LF :: replace2 "\" "n" LF t.
Proof.
  change (lit "\n" ++ t) with ("\"%char :: "n"%char :: t).
  induction s as [| x | x y r IHr IHyr] using pair_induction.
  - reflexivity.
  - change ([x] ++ "\"%char :: "n"%char :: t)
      with (x :: "\"%char :: "n"%char :: t).
    rewrite replace2_step.
    replace (eqc x "\" && eqc "\" "n") with false
      by (now rewrite andb_false_r).
    reflexivity.
  - change ((x :: y :: r) ++ "\"%char :: "n"%char :: t)
      with (x :: y :: (r ++ "\"%char :: "n"%char :: t)).
    rewrite !replace2_step.
    destruct (eqc x "\" && eqc y "n").
    + now rewrite IHr.
    + change (y :: r ++ "\"%char :: "n"%char :: t)
        with ((y :: r) ++ "\"%char :: "n"%char :: t).
      now rewrite IHyr.
Qed.

(** A line break stays a line break. *)
Lemma replace2_line_feed (s t : str) :
  replace2 "\" "n" LF (s ++ LF :: t)
  = replace2 "\" "n" LF s ++ LF :: replace2 "\" "n" LF t.
Proof.
  induction s as [| x | x y r IHr IHyr] using pair_induction.
  - destruct t as [|y r]; reflexivity.
  - change ([x] ++ LF :: t) with (x :: LF :: t).
    rewrite replace2_step.
    replace (eqc x "\" && eqc LF "n") with false
      by (now rewrite andb_false_r).
    f_equal. destruct t as [|y r]; reflexivity.
  - change ((x :: y :: r) ++ LF :: t) with (x :: y :: (r ++ LF :: t)).
    rewrite !replace2_step.
    destruct (eqc x "\" && eqc y "n").
    + now rewrite IHr.
    + change (y :: r ++ LF :: t) with ((y :: r) ++ LF :: t).
      now rewrite IHyr.
Qed.

(** An escaped line break and a real one separate paragraphs alike. *)
Lemma paragraphs_break (s t : str) :
  paragraphs (s ++ lit "\n" ++ t) = paragraphs s ++ paragraphs t
  /\ paragraphs (s ++ [LF] ++ t) = paragraphs s ++ paragraphs t.
Proof.
  unfold paragraphs. split.
  - now rewrite replace2_escape, split_on_app.
  - simpl app. now rewrite replace2_line_feed, split_on_app.
Qed.

Lemma no_pair_step (a b x y : ascii) (r : str) :
  no_pair a b (x :: y :: r)
  = negb (eqc x a && eqc y b) && no_pair a b (y :: r).
Proof. reflexivity. Qed.

(** Without an escaped line break, [replace] changes nothing. *)
Lemma replace2_no_pair (a b c : ascii) (s : str) :
  no_pair a b s = true -> replace2 a b c s = s.
Proof.
  induction s as [| x | x y r IHr IHyr] using pair_induction;
    try reflexivity.
  rewrite no_pair_step, replace2_step. intros Hn.
  apply andb_true_iff in Hn as [Hxy Hr].
  apply negb_true_iff in Hxy. rewrite Hxy. now rewrite IHyr.
Qed.

Lemma replace2_head (s : str) (x : ascii) :
  match replace2 "\" "n" LF (x :: s) with
  | [] => False
  | h :: _ => h = x \/ h = LF
  end.
Proof.
  destruct s as [|y r]; [now left|].
  rewrite replace2_step. destruct (eqc x "\" && eqc y "n"); auto.
Qed.

(** After [replace], no escaped line break is left. *)
Lemma replace2_no_escape (s : str) :
  no_escape (replace2 "\" "n" LF s) = true.
Proof.
  unfold no_escape.
  induction s as [| x | x y r IHr IHyr] using pair_induction;
    try reflexivity.
  rewrite replace2_step.
  destruct (eqc x "\" && eqc y "n") eqn:E.
  - destruct r as [|z r']; [reflexivity|].
    pose proof (replace2_head r' z) as Hh.
    destruct (replace2 "\" "n" LF (z :: r')) as [|h t]; [contradiction|].
    rewrite no_pair_step, IHr. reflexivity.
  - pose proof (replace2_head r y) as Hh.
    destruct (replace2 "\" "n" LF (y :: r)) as [|h t]; [contradiction|].
    rewrite no_pair_step, IHyr, andb_true_r.
    destruct Hh as [-> | ->]; [now rewrite E|].
    now rewrite andb_false_r.
Qed.

Lemma no_pair_app (a b : ascii) (s t : str) :
  no_pair a b (s ++ t) = true -> no_pair a b s = true /\ no_pair a b t = true.
Proof.
  induction s as [|x s IH]; [auto|].
  destruct s as [|y s].
  - simpl app. destruct t as [|z t]; [auto|].
    rewrite no_pair_step. intros Hn. apply andb_true_iff in Hn. tauto.
  - change ((x :: y :: s) ++ t) with (x :: y :: (s ++ t)).
    rewrite !no_pair_step. intros Hn.
    apply andb_true_iff in Hn as [Hxy Hn].
    destruct (IH Hn) as [Hs Ht]. rewrite Hxy, Hs. auto.
Qed.

(** Joining with a character that is neither of the two makes no pair. *)
Lemma no_pair_join (a b c : ascii) (s t : str) :
  eqc c a = false -> eqc c b = false ->
  no_pair a b s = true -> no_pair a b t = true ->
  no_pair a b (s ++ c :: t) = true.
Proof.
  intros Ha Hb Hs Ht. induction s as [|x s IH].
  - simpl app. destruct t as [|z t]; [reflexivity|].
    rewrite no_pair_step, Ha, Ht. reflexivity.
  - destruct s as [|y s].
    + change ([x] ++ c :: t) with (x :: c :: t).
      rewrite no_pair_step, Hb, andb_false_r. simpl negb.
      apply (IH eq_refl).
    + change ((x :: y :: s) ++ c :: t) with (x :: y :: (s ++ c :: t)).
      rewrite no_pair_step in Hs |- *.
      apply andb_true_iff in Hs as [Hxy Hs]. rewrite Hxy.
      apply (IH Hs).
Qed.

Lemma no_escape_join (parts : list str) :
  Forall (fun s => no_escape s = true) parts ->
  no_escape (join [LF] parts) = true.
Proof.
  induction 1 as [|s parts Hs _ IH]; [reflexivity|].
  destruct parts as [|t parts]; [exact Hs|].
  change (join [LF] (s :: t :: parts)) with (s ++ LF :: join [LF] (t :: parts)).
  now apply no_pair_join.
Qed.

Lemma no_escape_split_on (c : ascii) (s : str) :
  no_escape s = true -> Forall (fun p => no_escape p = true) (split_on c s).
Proof.
  unfold no_escape. intros Hs.
  assert (Hgen : forall s, no_pair "\" "n" s = true ->
            Forall (fun p => no_pair "\" "n" p = true) (split_on c s)
            /\ match split_on c s, s with
               | (x :: _) :: _, y :: _ => x = y
               | _, _ => True
               end).
  { clear s Hs. induction s as [|x s IH]; intros Hs.
    - split; [repeat constructor | exact I].
    - assert (Hs' : no_pair "\" "n" s = true).
      { destruct s as [|y s]; [reflexivity|].
        rewrite no_pair_step in Hs. apply andb_true_iff in Hs. tauto. }
      destruct (IH Hs') as [Hall Hhd]. simpl split_on.
      destruct (eqc x c).
      + split; [constructor; [reflexivity | exact Hall]| exact I].
      + pose proof (split_on_nonempty c s) as Hne.
        destruct (split_on c s) as [|p ps] eqn:Esp; [congruence|].
        inversion Hall as [|p' ps' Hp Hps]; subst.
        split; [|reflexivity]. constructor; [|exact Hps].
        destruct p as [|z p]; [reflexivity|].
        destruct s as [|y s]; [discriminate Esp|]. subst z.
        rewrite no_pair_step in Hs |- *.
        apply andb_true_iff in Hs as [Hxy _]. now rewrite Hxy, Hp. }
  apply (Hgen s Hs).
Qed.

Lemma no_pair_cons (a b d : ascii) (t : str) :
  eqc d a = false -> no_pair a b t = true -> no_pair a b (d :: t) = true.
Proof.
  intros Hd Ht. destruct t as [|y t]; [reflexivity|].
  now rewrite no_pair_step, Hd, Ht.
Qed.

Lemma no_pair_spaces (k : nat) (t : str) :
  no_escape t = true -> no_escape (repeat SP k ++ t) = true.
Proof.
  intros Ht. induction k as [|k IH]; [exact Ht|].
  simpl. now apply no_pair_cons.
Qed.

Lemma expandtabs_step (col : Z) (x : ascii) (s : str) :
  expandtabs_loop 8 col (x :: s)
  = if eqc x TAB
    then repeat SP (Z.to_nat (8 - col mod 8))
         ++ expandtabs_loop 8 (col + (8 - col mod 8)) s
    else x :: expandtabs_loop 8
                (if eqc x LF || eqc x CR then 0 else col + 1) s.
Proof. reflexivity. Qed.

Lemma munge_loop_head (col : Z) (x : ascii) (s : str) :
  match map (fun c => if textwrap.whitespace c then SP else c)
          (expandtabs_loop 8 col (x :: s)) with
  | [] => False
  | h :: _ => h = if textwrap.whitespace x then SP else x
  end.
Proof.
  rewrite expandtabs_step. destruct (eqc x TAB) eqn:E.
  - apply eqc_eq in E; subst x.
    pose proof (Z.mod_pos_bound col 8 ltac:(lia)) as Hm.
    destruct (Z.to_nat (8 - col mod 8)) as [|k] eqn:Ek; [lia|].
    reflexivity.
  - reflexivity.
Qed.

Lemma munge_loop_no_escape (s : str) :
  forall col,
    no_escape s = true ->
    no_escape (map (fun c => if textwrap.whitespace c then SP else c)
                 (expandtabs_loop 8 col s)) = true.
Proof.
  induction s as [|x s IH]; intros col Hs; [reflexivity|].
  assert (Hs' : no_escape s = true).
  { destruct s as [|y s]; [reflexivity|]. unfold no_escape in *.
    rewrite no_pair_step in Hs. apply andb_true_iff in Hs. tauto. }
  rewrite expandtabs_step. destruct (eqc x TAB) eqn:E.
  - rewrite map_app.
    assert (Hsp : forall k,
               map (fun c => if textwrap.whitespace c then SP else c)
                 (repeat SP k) = repeat SP k).
    { induction k as [|k IHk]; [reflexivity|]. simpl. now rewrite IHk. }
    rewrite Hsp. apply no_pair_spaces. now apply IH.
  - simpl map.
    set (col' := if eqc x LF || eqc x CR then 0 else col + 1).
    specialize (IH col' Hs').
    destruct s as [|y s]; [reflexivity|].
    pose proof (munge_loop_head col' y s) as Hh.
    destruct (map _ (expandtabs_loop 8 col' (y :: s))) as [|h t];
      [contradiction|].
    unfold no_escape in *. rewrite no_pair_step, IH, andb_true_r.
    rewrite no_pair_step in Hs. apply andb_true_iff in Hs as [Hxy _].
    apply negb_true_iff in Hxy. apply negb_true_iff.
    destruct (textwrap.whitespace x) eqn:Ex; [reflexivity|].
    destruct (eqc x "\") eqn:Ex'; [|reflexivity].
    simpl in Hxy |- *. subst h.
    destruct (textwrap.whitespace y) eqn:Ey; [reflexivity | exact Hxy].
Qed.

(** [_munge_whitespace] makes no escaped line break. *)
Lemma munge_no_escape (s : str) :
  no_escape s = true -> no_escape (textwrap.munge_whitespace s) = true.
Proof. apply munge_loop_no_escape. Qed.

(** The chunks of a paragraph are not empty, and together they are the
    paragraph with its whitespace munged. *)
Lemma split_chunks_text (text : str) :
  concat (textwrap.split_chunks text) = textwrap.munge_whitespace text
  /\ Forall (fun c => c <> []) (textwrap.split_chunks text).
Proof. unfold textwrap.split_chunks. apply wordsep_split_spec. lia. Qed.

(** A line carved out of a text lies in it. *)
Lemma carved_infix (text : str) (lines : list str) :
  carved text lines ->
  Forall (fun l => exists pre post, text = pre ++ l ++ post) lines.
Proof.
  induction 1 as [gap Hg | gap line rest lines Hg _ IH]; constructor.
  - exists gap, rest. reflexivity.
  - eapply Forall_impl; [|exact IH]. simpl.
    intros l (pre & post & ->). exists (gap ++ line ++ pre), post.
    now rewrite <- !app_assoc.
Qed.

(** A text that is not all whitespace gives a line that is not. *)
Lemma carved_text (text : str) (lines : list str) :
  carved text lines ->
  forallb isspace text = false ->
  exists l, In l lines /\ forallb isspace l = false.
Proof.
  induction 1 as [gap Hg | gap line rest lines Hg _ IH]; intros Ht.
  - congruence.
  - rewrite !forallb_app, Hg in Ht. simpl in Ht.
    destruct (forallb isspace line) eqn:El.
    + destruct (IH Ht) as (l & Hin & Hl). exists l.
      split; [now right | exact Hl].
    + exists line. split; [now left | exact El].
Qed.

Lemma in_join (sep l : str) (parts : list str) (c : ascii) :
  In l parts -> In c l -> In c (join sep parts).
Proof.
  induction parts as [|p parts IH]; [contradiction|].
  intros Hin Hc. destruct parts as [|q parts].
  - destruct Hin as [-> | []]. exact Hc.
  - change (join sep (p :: q :: parts))
      with (p ++ sep ++ join sep (q :: parts)).
    apply in_or_app. destruct Hin as [-> | Hin]; [now left|].
    right. apply in_or_app. right. now apply IH.
Qed.

Lemma not_all_spaces (s : str) :
  forallb isspace s = false <-> exists c, In c s /\ isspace c = false.
Proof.
  split.
  - induction s as [|x s IH]; simpl; [discriminate|].
    destruct (isspace x) eqn:E; simpl.
    + intros Hs. destruct (IH Hs) as (c & Hin & Hc). eauto.
    + intros _. exists x. auto.
  - intros (c & Hin & Hc). destruct (forallb isspace s) eqn:E; [|reflexivity].
    rewrite forallb_forall in E. rewrite (E c Hin) in Hc. discriminate.
Qed.

Lemma strip_not_nil (s : str) :
  strip s <> [] <-> forallb isspace s = false.
Proof.
  pose proof (blank_spaces s) as Hb. unfold textwrap.blank in Hb.
  rewrite is_empty_nil in Hb.
  destruct (forallb isspace s); split; intros Hs; try congruence.
  - exfalso. apply Hs. now apply Hb.
  - intros E. apply Hb in E. discriminate.
Qed.

(** The block of a paragraph with text in it is not empty, and it is what
    [textwrap.fill] returns. *)
Lemma wrapped_block_text (width : Z) (paragraph block : str) :
  wrapped_block width paragraph block ->
  strip paragraph <> [] ->
  block <> [] /\ textwrap.fill paragraph width = Return block.
Proof.
  intros [[Hs _] | (_ & lines & Hw & -> & Hc & _)] Hp; [congruence|].
  split.
  - apply strip_not_nil, not_all_spaces in Hp as (c & Hin & Hcs).
    destruct (split_chunks_text paragraph) as [Htext _].
    rewrite Htext in Hc.
    destruct (carved_text _ _ Hc) as (l & Hl & Hls).
    { apply not_all_spaces. exists c. split; [|exact Hcs].
      now apply munge_keeps. }
    apply not_all_spaces in Hls as (d & Hd & _).
    pose proof (in_join [LF] l lines d Hl Hd) as Hj.
    intros E. rewrite E in Hj. contradiction.
  - unfold textwrap.fill. now rewrite Hw.
Qed.

(** ** Wrapping a line that fits *)

Lemma fit_all (width : Z) (chunks : list str) :
  len (concat chunks) <= width ->
  textwrap.fit width [] 0 chunks = (chunks, len (concat chunks), []).
Proof.
  intros Hlen.
  destruct (fit_spec width chunks [] 0)
    as (taken & rest & Hfit & Hsplit & _ & Hstop).
  destruct rest as [|c rest].
  - rewrite app_nil_r in Hsplit. subst taken. exact Hfit.
  - exfalso. rewrite Hsplit, concat_app, len_app in Hlen. simpl concat in Hlen.
    rewrite len_app in Hlen. pose proof (len_nonneg (concat rest)). lia.
Qed.

Lemma last_chunk_text (chunks : list str) :
  chunks <> [] ->
  Forall (fun c => c <> []) chunks ->
  ends_in_text (concat chunks) = true ->
  textwrap.blank (last chunks []) = false.
Proof.
  intros Hne Hall Hend.
  destruct (textwrap.blank (last chunks [])) eqn:Eb; [|reflexivity].
  exfalso. apply blank_spaces in Eb.
  destruct (exists_last Hne) as (front & z & ->).
  rewrite last_last in Eb.
  apply Forall_app in Hall as [_ Hlast].
  inversion Hlast as [|l0 ls0 Hl _]; subst l0 ls0.
  rewrite concat_snoc in Hend.
  destruct (exists_last Hl) as (init & c & E).
  rewrite E in Hend, Eb.
  unfold ends_in_text in Hend.
  rewrite app_assoc, rev_app_distr in Hend. simpl in Hend.
  rewrite forallb_app in Eb. apply andb_true_iff in Eb as [_ Eb].
  simpl in Eb. apply andb_true_iff in Eb as [Ec _].
  rewrite Ec in Hend. discriminate.
Qed.

(** A line of plain characters that ends in text and fits the width is
    wrapped to itself. *)
Lemma fill_stable (line : str) (width : Z) :
  line <> [] ->
  forallb plain line = true ->
  len line <= width ->
  ends_in_text line = true ->
  textwrap.fill line width = Return line.
Proof.
  intros Hne Hplain Hlen Hend.
  destruct (split_chunks_text line) as [Htext Hall].
  rewrite (munge_plain line Hplain) in Htext.
  set (chunks := textwrap.split_chunks line) in *.
  assert (Hchunks : chunks <> []).
  { intros E. rewrite E in Htext. simpl in Htext. congruence. }
  assert (Hpos : 1 <= width).
  { destruct line; [congruence|]. unfold len in Hlen. simpl in Hlen. lia. }
  unfold textwrap.fill, textwrap.wrap, textwrap.wrap_chunks. fold chunks.
  destruct (width <=? 0) eqn:E; [apply Z.leb_le in E; lia|].
  assert (Hstep : textwrap.wrap_step width chunks [] = ([], [line])).
  { unfold textwrap.wrap_step.
    assert (Hlead : textwrap.drop_leading chunks [] = chunks).
    { unfold textwrap.drop_leading. destruct chunks; [reflexivity|].
      simpl. now rewrite andb_false_r. }
    rewrite Hlead, fit_all by (rewrite Htext; exact Hlen).
    unfold textwrap.break_long.
    assert (Htrail : textwrap.drop_trailing chunks = chunks).
    { unfold textwrap.drop_trailing. destruct chunks as [|c0 cs] eqn:Ec;
        [reflexivity|].
      rewrite last_chunk_text; auto. now rewrite Htext. }
    rewrite Htrail. destruct chunks; [congruence|]. now rewrite Htext. }
  destruct chunks as [|c0 cs] eqn:Ec; [congruence|].
  simpl textwrap.wrap_loop. rewrite Hstep. reflexivity.
Qed.

Lemma join_split_on (c : ascii) (s : str) : join [c] (split_on c s) = s.
Proof.
  induction s as [|x s IH]; [reflexivity|]. simpl split_on.
  destruct (eqc x c) eqn:E.
  - apply eqc_eq in E; subst x.
    pose proof (split_on_nonempty c s) as Hne.
    destruct (split_on c s) as [|p ps] eqn:Es; [congruence|].
    change (join [c] ([] :: p :: ps)) with (c :: join [c] (p :: ps)).
    now rewrite IH.
  - pose proof (split_on_nonempty c s) as Hne.
    destruct (split_on c s) as [|p ps] eqn:Es; [congruence|].
    destruct ps as [|q ps].
    + simpl in *. now rewrite IH.
    + change (join [c] ((x :: p) :: q :: ps))
        with (x :: (p ++ [c] ++ join [c] (q :: ps))).
      change (join [c] (p :: q :: ps)) with (p ++ [c] ++ join [c] (q :: ps))
        in IH.
      now rewrite IH.
Qed.

Lemma for_each_same {A} (f : A -> result A) (xs : list A) :
  (forall x, In x xs -> f x = Return x) -> for_each f xs = Return xs.
Proof.
  induction xs as [|x xs IH]; intros Hf; [reflexivity|].
  simpl. rewrite (Hf x (or_introl eq_refl)). simpl.
  rewrite IH; [reflexivity|]. intros y Hy. apply Hf. now right.
Qed.

Lemma for_each_inv {A B} (f : A -> result B) (xs : list A) (ys : list B) :
  for_each f xs = Return ys -> Forall2 (fun x y => f x = Return y) xs ys.
Proof.
  revert ys. induction xs as [|x xs IH]; intros ys; simpl.
  - intros E; injection E as <-. constructor.
  - destruct (f x) as [y|e] eqn:Ey; [|discriminate]. simpl.
    destruct (for_each f xs) as [ys'|e]; [|discriminate]. simpl.
    intros E; injection E as <-. constructor; auto.
Qed.

(** The wrap step reads its text through the paragraphs only. *)
Lemma wrap_for_multiline_paragraphs `{PIL} (draw : Image)
  (font : FreeTypeFont) (text text' : str) (max_width : Z) :
  paragraphs text = paragraphs text' ->
  wrap_for_multiline draw text font max_width
  = wrap_for_multiline draw text' font max_width.
Proof.
  intros E. unfold wrap_for_multiline. fold (paragraphs text).
  fold (paragraphs text'). now rewrite E.
Qed.

(** ** Wrapping a wrapped caption again *)

Lemma plain_no_line_feed (line : str) :
  forallb plain line = true -> contains LF line = false.
Proof.
  unfold contains. induction line as [|c line IH]; simpl; [reflexivity|].
  rewrite andb_true_iff. intros [Hc Hl]. rewrite (IH Hl), orb_false_r.
  destruct (eqc LF c) eqn:E; [|reflexivity].
  apply eqc_eq in E; subst c. discriminate.
Qed.

(** What [textwrap.fill] returns for a paragraph without escaped line
    breaks: lines of plain characters within the width, and no escaped
    line break. *)
Lemma fill_lines (paragraph block : str) (width : Z) :
  textwrap.fill paragraph width = Return block ->
  no_escape paragraph = true ->
  1 <= width
  /\ no_escape block = true
  /\ Forall (fun line => forallb plain line = true /\ len line <= width)
       (split_on LF block).
Proof.
  intros Hfill Hesc.
  assert (Hw : 1 <= width).
  { destruct (Z.le_gt_cases width 0) as [Hle | Hgt]; [|lia].
    rewrite (wrap_invalid_width paragraph width Hle) in Hfill. discriminate. }
  split; [exact Hw|].
  destruct (wrap_returns paragraph width Hw) as (lines & Hwrap & Hc & Hlen).
  unfold textwrap.fill in Hfill. rewrite Hwrap in Hfill. simpl in Hfill.
  injection Hfill as <-.
  destruct (split_chunks_text paragraph) as [Htext _]. rewrite Htext in Hc.
  pose proof (carved_infix _ _ Hc) as Hin.
  assert (Hlines : Forall (fun l => forallb plain l = true
                                    /\ no_escape l = true
                                    /\ len l <= width) lines).
  { rewrite Forall_forall in *. intros l Hl.
    destruct (Hin l Hl) as (pre & post & E).
    pose proof (munge_gives_plain paragraph) as Hp.
    pose proof (munge_no_escape paragraph Hesc) as Hn.
    rewrite E in Hp, Hn. rewrite !forallb_app in Hp.
    apply andb_true_iff in Hp as [_ Hp]. apply andb_true_iff in Hp as [Hp _].
    unfold no_escape in *.
    apply no_pair_app in Hn as [_ Hn]. apply no_pair_app in Hn as [Hn _].
    auto. }
  split.
  - apply no_escape_join. eapply Forall_impl; [|exact Hlines]. simpl. tauto.
  - destruct lines as [|l lines].
    + repeat constructor. simpl. unfold len. simpl. lia.
    + rewrite split_on_lines.
      * eapply Forall_impl; [|exact Hlines]. simpl. tauto.
      * discriminate.
      * eapply Forall_impl; [|exact Hlines]. simpl.
        intros a (Ha & _). now apply plain_no_line_feed.
Qed.

Lemma ends_in_text_not_blank (line : str) :
  line <> [] -> ends_in_text line = true -> strip line <> [].
Proof.
  intros Hne Hend. apply strip_not_nil, not_all_spaces.
  destruct (exists_last Hne) as (init & c & ->).
  unfold ends_in_text in Hend. rewrite rev_app_distr in Hend. simpl in Hend.
  exists c. split; [apply in_or_app; right; now left|].
  now apply negb_true_iff.
Qed.

(** C8, as stated, fails: with a wrap width of 10 pixels the caption
    [hello world!] is wrapped to the lines [he], [ll], [o ], [wo], [rl],
    [d!], each within the two characters of the width, and wrapping that
    block again gives [o] for the third line.  So the wrap step is not
    idempotent on its own output. *)
Lemma rewrap_changes_lines :
  @wrap_for_multiline demo_pil (400, 300) (lit "hello world!") 16 10
  = Return (join [LF] [lit "he"; lit "ll"; lit "o "; lit "wo"; lit "rl";
                       lit "d!"])
  /\ Forall (fun line => len line <= 10 / 5)
       [lit "he"; lit "ll"; lit "o "; lit "wo"; lit "rl"; lit "d!"]
  /\ @wrap_for_multiline demo_pil (400, 300)
       (join [LF] [lit "he"; lit "ll"; lit "o "; lit "wo"; lit "rl";
                   lit "d!"]) 16 10
     = Return (join [LF] [lit "he"; lit "ll"; lit "o"; lit "wo"; lit "rl";
                          lit "d!"])
  /\ ~ (forall (P : PIL) (draw : Image) (font : FreeTypeFont) (text out : str)
               (max_width : Z),
          wrap_for_multiline draw text font max_width = Return out ->
          Forall (fun line => len line <= max_width / 5) (split_on LF out) ->
          wrap_for_multiline draw out font max_width = Return out).
Proof.
  split; [vm_compute; reflexivity|].
  split; [repeat constructor; vm_compute; discriminate|].
  split; [vm_compute; reflexivity|].
  intros Hclaim.
  pose proof (Hclaim demo_pil (400, 300) 16 (lit "hello world!")
                (join [LF] [lit "he"; lit "ll"; lit "o "; lit "wo"; lit "rl";
                            lit "d!"]) 10
                ltac:(vm_compute; reflexivity)
                ltac:(repeat constructor; vm_compute; discriminate)) as Hsame.
  vm_compute in Hsame. discriminate Hsame.
Qed.

(** C8, amended.  Applying the wrap step of the pipeline to a block it
    has wrapped reproduces the block, with the same line boundaries,
    whenever no line of the block ends in a whitespace character. *)
Theorem rewrap_keeps_text_lines :
  forall `{PIL} (draw : Image) (font : FreeTypeFont) (text out : str)
         (max_width : Z),
    wrap_for_multiline draw text font max_width = Return out ->
    Forall (fun line => ends_in_text line = true) (split_on LF out) ->
    wrap_for_multiline draw out font max_width = Return out.
Proof.
  intros P draw font text out max_width Hout Hend.
  unfold wrap_for_multiline in Hout. fold (paragraphs text) in Hout.
  set (f := fun paragraph =>
              if is_empty (strip paragraph) then Return []
              else textwrap.fill paragraph (max_width / 5)) in *.
  destruct (for_each f (paragraphs text)) as [blocks|e] eqn:Hfe;
    [|discriminate].
  simpl in Hout. injection Hout as <-.
  apply for_each_inv in Hfe.
  (* the paragraphs hold no escaped line break *)
  assert (Hpar : Forall (fun p => no_escape p = true) (paragraphs text)).
  { apply no_escape_split_on, replace2_no_escape. }
  (* the blocks *)
  assert (Hblocks :
            Forall (fun b => no_escape b = true
                             /\ Forall (fun line =>
                                          line = []
                                          \/ (forallb plain line = true
                                              /\ len line <= max_width / 5))
                                  (split_on LF b)) blocks).
  { clear Hend. induction Hfe as [|p b ps bs Hb _ IH]; [constructor|].
    inversion Hpar as [|p0 ps0 Hp Hps]; subst.
    constructor; [|now apply IH].
    unfold f in Hb. destruct (is_empty (strip p)).
    - injection Hb as <-. split; [reflexivity|]. repeat constructor.
    - destruct (fill_lines p b _ Hb Hp) as (_ & Hn & Hl). split; [exact Hn|].
      eapply Forall_impl; [|exact Hl]. simpl. tauto. }
  assert (Hne : blocks <> []).
  { eapply Forall2_nonempty; [exact Hfe|]. apply split_on_nonempty. }
  (* the second pass *)
  assert (Hesc : no_escape (join [LF] blocks) = true).
  { apply no_escape_join. eapply Forall_impl; [|exact Hblocks]. simpl. tauto. }
  unfold wrap_for_multiline.
  rewrite (replace2_no_pair _ _ LF _ Hesc). fold f.
  assert (Hlines : Forall (fun line =>
                             line = []
                             \/ (forallb plain line = true
                                 /\ len line <= max_width / 5))
                     (split_on LF (join [LF] blocks))).
  { rewrite split_on_join by exact Hne. apply Forall_flat_map.
    eapply Forall_impl; [|exact Hblocks]. simpl. tauto. }
  rewrite (for_each_same f).
  - simpl. now rewrite join_split_on.
  - intros line Hin. rewrite Forall_forall in Hlines, Hend.
    specialize (Hend line Hin). unfold f.
    destruct (Hlines line Hin) as [-> | [Hp Hl]]; [reflexivity|].
    destruct line as [|c line]; [reflexivity|].
    pose proof (ends_in_text_not_blank (c :: line) ltac:(discriminate) Hend)
      as Hs.
    destruct (strip (c :: line)) eqn:Es; [congruence|]. simpl is_empty.
    cbv iota. apply fill_stable; auto. discriminate.
Qed.

Lemma rewrap_keeps_text_lines_witness :
  @wrap_for_multiline demo_pil (400, 300)
    (join [LF] [lit "one"; lit "two"; lit "three"]) 16 25
  = Return (join [LF] [lit "one"; lit "two"; lit "three"]).
Proof.
  apply (@rewrap_keeps_text_lines demo_pil (400, 300) 16
           (lit "one two three")).
  - vm_compute. reflexivity.
  - repeat constructor.
Defined.

(** ** Blank lines *)

Lemma wide_enough (max_width : Z) : 25 <= max_width -> 5 <= max_width / 5.
Proof. intros Hw. apply Z.div_le_lower_bound; lia. Qed.

(** Whenever the wrap step returns, its result is the blocks of the
    paragraphs, joined by line feeds. *)
Lemma wrap_for_multiline_inv `{PIL} (draw : Image) (font : FreeTypeFont)
  (text out : str) (max_width : Z) :
  wrap_for_multiline draw text font max_width = Return out ->
  exists blocks,
    out = join [LF] blocks
    /\ Forall2 (wrapped_block (max_width / 5)) (paragraphs text) blocks.
Proof.
  unfold wrap_for_multiline. fold (paragraphs text).
  set (f := fun paragraph =>
              if is_empty (strip paragraph) then Return []
              else textwrap.fill paragraph (max_width / 5)).
  destruct (for_each f (paragraphs text)) as [blocks|e] eqn:Hfe;
    [|discriminate].
  simpl. intros E; injection E as <-. exists blocks. split; [reflexivity|].
  apply for_each_inv in Hfe.
  eapply Forall2_impl; [|exact Hfe]. intros p b Hb. unfold f in Hb.
  destruct (is_empty (strip p)) eqn:Es.
  - injection Hb as <-. left. split; [now apply is_empty_nil | reflexivity].
  - right. split; [intros E; apply is_empty_nil in E; congruence|].
    assert (Hw : 1 <= max_width / 5).
    { destruct (Z.le_gt_cases (max_width / 5) 0) as [Hle | Hgt]; [|lia].
      rewrite (wrap_invalid_width p _ Hle) in Hb. discriminate. }
    destruct (wrap_returns p _ Hw) as (lines & Hl & Hc & Hlen).
    exists lines. unfold textwrap.fill in Hb. rewrite Hl in Hb. simpl in Hb.
    injection Hb as <-. auto.
Qed.

(** C6.  The wrap step makes every escaped line break, the two
    characters backslash and [n], a real one, and a paragraph ends at
    either.  Whenever it returns, its result is one block for each
    paragraph, wrapped on its own and joined by line feeds: the empty
    block for a paragraph without text, and a block that is not empty for
    a paragraph with text; and it returns for every wrap width of five
    pixels or more.  So [line1], two line breaks, [line2] gives three
    blocks, the middle one empty, whether the line breaks are real or
    escaped; from a wrap width of 25 pixels on, the result is the caption
    itself. *)
Theorem blank_lines_are_kept :
  forall `{PIL} (draw : Image) (font : FreeTypeFont) (text : str)
         (max_width : Z),
    (forall s t,
       paragraphs (s ++ lit "\n" ++ t) = paragraphs s ++ paragraphs t
       /\ paragraphs (s ++ [LF] ++ t) = paragraphs s ++ paragraphs t)
    /\ (forall out,
          wrap_for_multiline draw text font max_width = Return out ->
          exists blocks,
            out = join [LF] blocks
            /\ Forall2
                 (fun paragraph block =>
                    (strip paragraph = [] /\ block = [])
                    \/ (strip paragraph <> [] /\ block <> []
                        /\ textwrap.fill paragraph (max_width / 5)
                           = Return block))
                 (paragraphs text) blocks)
    /\ (5 <= max_width ->
        exists out, wrap_for_multiline draw text font max_width = Return out)
    /\ (forall out,
          wrap_for_multiline draw (lit "line1" ++ [LF; LF] ++ lit "line2")
            font max_width = Return out ->
          exists first last,
            first <> [] /\ last <> []
            /\ out = join [LF] [first; []; last]
            /\ wrap_for_multiline draw (lit "line1\n\nline2") font max_width
               = Return out)
    /\ (25 <= max_width ->
        wrap_for_multiline draw (lit "line1" ++ [LF; LF] ++ lit "line2")
          font max_width
        = Return (lit "line1" ++ [LF; LF] ++ lit "line2")).
Proof.
  intros P draw font text max_width.
  assert (Hblocks : forall text out,
            wrap_for_multiline draw text font max_width = Return out ->
            exists blocks,
              out = join [LF] blocks
              /\ Forall2
                   (fun paragraph block =>
                      (strip paragraph = [] /\ block = [])
                      \/ (strip paragraph <> [] /\ block <> []
                          /\ textwrap.fill paragraph (max_width / 5)
                             = Return block))
                   (paragraphs text) blocks).
  { intros t out Hout.
    destruct (wrap_for_multiline_inv draw font t out max_width Hout)
      as (blocks & -> & Hall).
    exists blocks. split; [reflexivity|].
    eapply Forall2_impl; [|exact Hall]. intros p b Hb.
    pose proof (wrapped_block_text _ _ _ Hb) as Htext.
    destruct Hb as [[Hs ->] | [Hs _]]; [now left|].
    right. destruct (Htext Hs). auto. }
  assert (Hexample : forall out,
            wrap_for_multiline draw (lit "line1" ++ [LF; LF] ++ lit "line2")
              font max_width = Return out ->
            exists first last,
              first <> [] /\ last <> []
              /\ out = join [LF] [first; []; last]
              /\ textwrap.fill (lit "line1") (max_width / 5) = Return first
              /\ textwrap.fill (lit "line2") (max_width / 5) = Return last).
  { intros out Hout. destruct (Hblocks _ _ Hout) as (blocks & -> & Hall).
    change (paragraphs (lit "line1" ++ [LF; LF] ++ lit "line2"))
      with [lit "line1"; []; lit "line2"] in Hall.
    inversion Hall as [|p1 b1 ps1 bs1 H1 Hall1]; subst.
    inversion Hall1 as [|p2 b2 ps2 bs2 H2 Hall2]; subst.
    inversion Hall2 as [|p3 b3 ps3 bs3 H3 Hall3]; subst.
    inversion Hall3; subst.
    destruct H1 as [[H1 _] | (_ & Hb1 & Hf1)]; [discriminate H1|].
    destruct H2 as [[_ ->] | (H2 & _)]; [|exfalso; now apply H2].
    destruct H3 as [[H3 _] | (_ & Hb3 & Hf3)]; [discriminate H3|].
    exists b1, b3. auto. }
  split; [apply paragraphs_break|].
  split; [apply Hblocks|].
  split.
  { intros Hw.
    destruct (wrap_for_multiline_blocks draw font text max_width Hw)
      as (blocks & Hout & _). eauto. }
  split.
  - intros out Hout.
    destruct (Hexample out Hout) as (first & last & H1 & H2 & E & _).
    exists first, last.
    split; [exact H1|]. split; [exact H2|]. split; [exact E|].
    rewrite <- Hout. apply wrap_for_multiline_paragraphs. reflexivity.
  - intros Hw.
    destruct (wrap_for_multiline_blocks draw font
                (lit "line1" ++ [LF; LF] ++ lit "line2") max_width
                ltac:(lia)) as (blocks & Hout & _).
    destruct (Hexample _ Hout) as (first & last & _ & _ & E & Hf1 & Hf3).
    pose proof (wide_enough _ Hw) as H5.
    rewrite fill_stable in Hf1, Hf3;
      try reflexivity; try discriminate; try exact H5.
    injection Hf1 as <-. injection Hf3 as <-.
    rewrite Hout, E. reflexivity.
Qed.

Lemma blank_lines_are_kept_witness :
  @wrap_for_multiline demo_pil (400, 300)
    (lit "line1" ++ [LF; LF] ++ lit "line2") 16 360
  = Return (lit "line1" ++ [LF; LF] ++ lit "line2").
Proof.
  apply (proj2 (proj2 (proj2 (proj2
           (@blank_lines_are_kept demo_pil (400, 300) 16 (lit "line1")
              360))))).
  lia.
Defined.

(** ** Termination of the model's loops *)

(** The bound on the passes of [_wrap_chunks] is never reached: for every
    text and width, [textwrap.wrap] returns its lines or raises the
    [ValueError] of an invalid width. *)
Lemma wrap_terminates (text : str) (width : Z) :
  (exists lines, textwrap.wrap text width = Return lines)
  \/ (exists msg, textwrap.wrap text width = Raise (ValueError msg)).
Proof.
  destruct (Z.le_gt_cases width 0) as [Hle | Hgt].
  - right. unfold textwrap.wrap, textwrap.wrap_chunks.
    apply Z.leb_le in Hle. rewrite Hle. eauto.
  - left. destruct (wrap_returns text width ltac:(lia)) as (lines & Hl & _).
    eauto.
Qed.

(** ** The end-to-end scenario of the specification *)

(** A 400 by 300 image, a padding of 25%, the caption [Hello world] and
    the other options at their defaults: the run exits with status 0,
    writes a 400 by 375 image and prints the confirmation; the caption
    is one line, drawn at x = 20 and y = 310. *)
Example end_to_end :
  @main demo_pil
    (mkArgs (lit "in.png") (lit "out.png") (lit "Hello world") (lit "25%")
       (lit "black") (lit "white") (lit "arial") 16 (lit "left") (lit "top")
       (lit "90%"))
    demo_world
  = (0, @mkWorld demo_pil [(lit "out.png", demo_image 400 375)]
                [lit "[+] Saved output image to: out.png"] [])
  /\ @wrap_for_multiline demo_pil (400, 375) (lit "Hello world") 16 360
     = Return (lit "Hello world")
  /\ origin_x (lit "left") 400 110 = 20
  /\ origin_y (lit "top") 300 75 16 = 310.
Proof. repeat split; vm_compute; reflexivity. Qed.

(** The same image and caption with every option at its default: a
    padding of 200 pixels, a wrap width of 90%, the font [arial]. *)
Example defaults_run :
  @main demo_pil
    (default_args (lit "in.png") (lit "out.png") (lit "Hello world"))
    demo_world
  = (0, @mkWorld demo_pil [(lit "out.png", demo_image 400 500)]
                [lit "[+] Saved output image to: out.png"] []).
Proof. vm_compute. reflexivity. Qed.

(* ================================================================== *)
(** * Part III: further properties of the program                      *)
(* ================================================================== *)

(** ** Whitespace around an argument *)

Lemma forallb_rev (p : ascii -> bool) (s : str) :
  forallb p (rev s) = forallb p s.
Proof.
  induction s as [|c s IH]; [reflexivity|].
  simpl. rewrite forallb_app, IH. simpl. rewrite andb_true_r.
  apply andb_comm.
Qed.

(** [strip()] removes every run of whitespace around a text. *)
Lemma strip_surrounded (a s b : str) :
  forallb isspace a = true -> forallb isspace b = true ->
  strip (a ++ s ++ b) = strip s.
Proof.
  intros Ha Hb. unfold strip, lstrip.
  rewrite dropWhile_app by exact Ha.
  destruct (forallb isspace s) eqn:E.
  - rewrite dropWhile_app by exact E.
    rewrite (dropWhile_all _ _ Hb), (dropWhile_all _ _ E). reflexivity.
  - rewrite dropWhile_app_keep by exact E.
    unfold rstrip. rewrite rev_app_distr.
    rewrite dropWhile_app by (now rewrite forallb_rev). reflexivity.
Qed.

(** A text that begins and ends with text is its own [strip()]. *)
Lemma strip_clean (c : ascii) (t : str) :
  isspace c = false -> ends_in_text (c :: t) = true ->
  strip (c :: t) = c :: t.
Proof.
  intros Hc Hend. unfold strip, lstrip. simpl dropWhile. rewrite Hc.
  unfold rstrip. unfold ends_in_text in Hend.
  destruct (rev (c :: t)) as [|z r] eqn:E.
  - apply (f_equal (@rev ascii)) in E. rewrite rev_involutive in E.
    discriminate E.
  - simpl dropWhile. apply negb_true_iff in Hend. rewrite Hend.
    rewrite <- E. apply rev_involutive.
Qed.

(** X1.  Every run of whitespace characters (spaces, tabs, line breaks)
    before and after an argument is ignored: the padding, the wrap width
    and a colour are read as if it were not there. *)
Theorem surrounding_whitespace_is_ignored :
  forall `{PIL} (before s after : str) (base : Z),
    forallb isspace before = true ->
    forallb isspace after = true ->
    parse_padding (before ++ s ++ after) base = parse_padding s base
    /\ parse_pixels_or_percent (before ++ s ++ after) base
       = parse_pixels_or_percent s base
    /\ parse_color (before ++ s ++ after) = parse_color s.
Proof.
  intros P before s after base Ha Hb.
  unfold parse_padding, parse_pixels_or_percent, parse_color.
  rewrite (strip_surrounded before s after Ha Hb). auto.
Qed.

Lemma surrounding_whitespace_is_ignored_witness :
  parse_padding ([TAB; SP] ++ lit "25%" ++ [LF]) 300 = Return 75
  /\ @parse_color demo_pil ([SP] ++ lit "white" ++ [SP; CR; LF])
     = Return [255; 255; 255].
Proof.
  destruct (@surrounding_whitespace_is_ignored demo_pil [TAB; SP]
              (lit "25%") [LF] 300 eq_refl eq_refl) as (H1 & _ & _).
  destruct (@surrounding_whitespace_is_ignored demo_pil [SP]
              (lit "white") [SP; CR; LF] 0 eq_refl eq_refl) as (_ & _ & H3).
  split.
  - rewrite H1. reflexivity.
  - rewrite H3. reflexivity.
Defined.

(** ** The two resolvers side by side *)

(** X2.  The padding and the wrap width are resolved by the same rules:
    [parse_padding] and [parse_pixels_or_percent] give the same outcome
    on every argument, except that an argument neither of them reads is
    reported as [Invalid padding value: ...] by the one and as
    [Invalid value: ...] by the other.  In particular they return the
    same numbers. *)
Theorem padding_and_width_resolve_alike :
  forall (s : str) (base : Z),
    (parse_padding s base = parse_pixels_or_percent s base
     \/ (parse_padding s base
         = Raise (ValueError (lit "Invalid padding value: " ++ strip s))
         /\ parse_pixels_or_percent s base
            = Raise (ValueError (lit "Invalid value: " ++ strip s))))
    /\ (forall n, parse_padding s base = Return n
                  <-> parse_pixels_or_percent s base = Return n).
Proof.
  intros s base.
  assert (H : parse_padding s base = parse_pixels_or_percent s base
     \/ (parse_padding s base
         = Raise (ValueError (lit "Invalid padding value: " ++ strip s))
         /\ parse_pixels_or_percent s base
            = Raise (ValueError (lit "Invalid value: " ++ strip s)))).
  { unfold parse_padding, parse_pixels_or_percent.
    destruct (contains "%" (strip s));
      destruct (re.fullmatch_percent (strip s));
      destruct (isdigit (strip s)); auto. }
  split; [exact H|].
  intros n. destruct H as [-> | [H1 H2]]; [tauto|].
  rewrite H1, H2. split; discriminate.
Qed.

(** ** The position of the percent sign *)

Lemma ends_in_text_snoc (s : str) (c : ascii) :
  isspace c = false -> ends_in_text (s ++ [c]) = true.
Proof.
  intros Hc. unfold ends_in_text. rewrite rev_app_distr. simpl.
  now rewrite Hc.
Qed.

Lemma decimal_not_space (c : ascii) :
  isdecimal c = true -> isspace c = false.
Proof.
  unfold isdecimal, isspace, between. intros Hc.
  apply andb_true_iff in Hc as [H1 H2].
  apply Z.leb_le in H1, H2.
  repeat (apply orb_false_iff; split);
    try (apply andb_false_iff; right; apply Z.leb_gt; lia);
    apply Z.eqb_neq; lia.
Qed.

Lemma ends_in_text_digits (pre ds : str) :
  ds <> [] -> forallb isdecimal ds = true ->
  ends_in_text (pre ++ ds) = true.
Proof.
  intros Hne Hds.
  destruct (exists_last Hne) as (front & z & ->).
  rewrite app_assoc. apply ends_in_text_snoc.
  apply decimal_not_space.
  rewrite forallb_app in Hds. apply andb_true_iff in Hds as [_ Hz].
  simpl in Hz. now rewrite andb_true_r in Hz.
Qed.

(** What the resolver gives on a percentage written in the grammar. *)
Lemma resolver_percent (pre ds post : str) (base : Z) :
  pre = [] \/ pre = lit "%" ->
  post = [] \/ post = lit "%" ->
  pre ++ post <> [] ->
  ds <> [] -> forallb isdecimal ds = true -> len ds <= max_str_digits ->
  parse_pixels_or_percent (pre ++ ds ++ post) base
  = percent_of base (decimal_value ds).
Proof.
  intros Hpre Hpost Hsign Hne Hds Hlen.
  assert (Hg : dimension_grammar (pre ++ ds ++ post)).
  { exists pre, ds, post. auto. }
  assert (Hstrip : strip (pre ++ ds ++ post) = pre ++ ds ++ post).
  { assert (Hend : ends_in_text (pre ++ ds ++ post) = true).
    { destruct Hpost as [-> | ->].
      - rewrite app_nil_r. now apply ends_in_text_digits.
      - rewrite app_assoc. now apply ends_in_text_snoc. }
    destruct Hpre as [-> | ->].
    - destruct ds as [|d ds]; [congruence|].
      apply strip_clean; [|exact Hend].
      apply decimal_not_space. simpl in Hds.
      now apply andb_true_iff in Hds as [Hd _].
    - apply (strip_clean "%"%char); [reflexivity | exact Hend]. }
  unfold parse_pixels_or_percent. rewrite Hstrip.
  destruct (grammar_fullmatch _ Hg) as (ds' & Hm & Hne' & Hds' & Hf & _).
  assert (Hsame : ds' = ds).
  { rewrite <- Hf. unfold digits_of. rewrite !filter_app.
    rewrite (filter_decimal_all ds Hds).
    destruct Hpre as [-> | ->], Hpost as [-> | ->]; simpl;
      now rewrite ?app_nil_r. }
  rewrite Hsame in Hm. rewrite Hm.
  assert (Hc : contains "%" (pre ++ ds ++ post) = true).
  { unfold contains. rewrite !existsb_app.
    destruct Hpre as [-> | ->]; [|reflexivity].
    destruct Hpost as [-> | ->]; [now elim Hsign|].
    simpl. now rewrite !orb_true_r. }
  rewrite Hc, (int_decimal ds Hne Hds Hlen). reflexivity.
Qed.

(** X3.  The percent sign of a percentage may stand before the digits,
    after them, or on both sides: [%50], [50%] and [%50%] resolve to the
    same value, [int(base * (50 / 100))], whatever the digits are, up to
    the 4300 digits that [int] converts. *)
Theorem percent_sign_on_either_side :
  forall (digits : str) (base : Z),
    digits <> [] -> forallb isdecimal digits = true ->
    len digits <= max_str_digits ->
    parse_pixels_or_percent (lit "%" ++ digits) base
    = percent_of base (decimal_value digits)
    /\ parse_pixels_or_percent (digits ++ lit "%") base
       = percent_of base (decimal_value digits)
    /\ parse_pixels_or_percent (lit "%" ++ digits ++ lit "%") base
       = percent_of base (decimal_value digits).
Proof.
  intros ds base Hne Hds Hlen. repeat split.
  - rewrite <- (app_nil_r ds) at 1.
    apply resolver_percent; auto. discriminate.
  - apply (resolver_percent [] ds (lit "%")); auto. discriminate.
  - apply resolver_percent; auto. discriminate.
Qed.

Lemma percent_sign_on_either_side_witness :
  parse_pixels_or_percent (lit "%50") 200 = Return 100
  /\ parse_pixels_or_percent (lit "50%") 200 = Return 100
  /\ parse_pixels_or_percent (lit "%50%") 200 = Return 100.
Proof.
  destruct (percent_sign_on_either_side (lit "50") 200
              ltac:(discriminate) eq_refl ltac:(vm_compute; discriminate))
    as (H1 & H2 & H3).
  split; [|split].
  - etransitivity; [exact H1 | reflexivity].
  - etransitivity; [exact H2 | reflexivity].
  - etransitivity; [exact H3 | reflexivity].
Defined.

(** ** The sign of a resolved dimension *)

Lemma int_loop_not_negative (s : str) (acc n : Z) :
  0 <= acc -> int_loop acc s = Some n -> 0 <= n.
Proof.
  revert acc; induction s as [|c s IH]; intros acc Hacc; cbn [int_loop].
  - intros E; injection E as <-; exact Hacc.
  - destruct (isdecimal c) eqn:Hc; [|discriminate].
    apply IH. unfold isdecimal, between in Hc.
    apply andb_true_iff in Hc as [H1 _]. apply Z.leb_le in H1. lia.
Qed.

Lemma int_not_negative (s : str) (n : Z) : int s = Return n -> 0 <= n.
Proof.
  unfold int.
  destruct (max_str_digits <? len (takeWhile isdecimal s)); [discriminate|].
  destruct s as [|c s]; [discriminate|].
  destruct (int_loop 0 (c :: s)) as [m|] eqn:E; [|discriminate].
  intros R; injection R as <-.
  apply (int_loop_not_negative _ _ _ (Z.le_refl 0) E).
Qed.

Lemma binary_round_aux_not_negative (m e : Z) (l : location) :
  not_negative (binary_round_aux prec emax false m e l).
Proof.
  unfold binary_round_aux.
  destruct (shr_fexp prec emax m e l) as [mrs' e'].
  destruct (shr_fexp prec emax _ e' loc_Exact) as [mrs'' e''].
  destruct (shr_m mrs'') as [|p|p]; try exact I.
  destruct (e'' <=? emax - prec); exact I.
Qed.

Lemma float_of_int_not_negative (n : Z) (x : float) :
  0 <= n -> float_of_int n = Return x -> not_negative x.
Proof.
  intros Hn. unfold float_of_int, binary_normalize.
  destruct n as [|p|p]; [| |lia].
  - intros E; injection E as <-; exact I.
  - unfold binary_round. destruct (shl_align _ _ _) as [mz ez].
    pose proof (binary_round_aux_not_negative (Zpos mz) ez loc_Exact) as Hs.
    destruct (binary_round_aux _ _ _ _ _ _); try discriminate;
      intros E; injection E as <-; exact Hs.
Qed.

Lemma int_truediv_not_negative (a b : Z) (x : float) :
  0 <= a -> 0 < b -> int_truediv a b = Return x -> not_negative x.
Proof.
  intros Ha Hb. unfold int_truediv.
  destruct (b =? 0); [discriminate|].
  replace (a <? 0) with false by (symmetry; apply Z.ltb_ge; lia).
  replace (b <? 0) with false by (symmetry; apply Z.ltb_ge; lia).
  destruct (a =? 0); [intros E; injection E as <-; exact I|].
  destruct (SFdiv_core_binary _ _ _ _ _ _) as [[q e] l].
  pose proof (binary_round_aux_not_negative q e l) as Hs.
  simpl xorb.
  destruct (binary_round_aux _ _ _ _ _ _); try discriminate;
    intros E; injection E as <-; exact Hs.
Qed.

Lemma SFmul_not_negative (x y : float) :
  not_negative x -> not_negative y -> not_negative (SFmul prec emax x y).
Proof.
  destruct x as [sx|sx| |[|] mx ex], y as [sy|sy| |[|] my ey];
    simpl; try tauto.
  intros _ _. apply binary_round_aux_not_negative.
Qed.

Lemma int_of_float_not_negative (x : float) (n : Z) :
  not_negative x -> int_of_float x = Return n -> 0 <= n.
Proof.
  destruct x as [s|s| |[|] m e]; unfold not_negative, int_of_float;
    try discriminate; try tauto.
  - intros _ E; injection E as <-; lia.
  - assert (Hmag : 0 <= (if 0 <=? e then Zpos m * 2 ^ e
                         else Zpos m / 2 ^ (- e))).
    { destruct (0 <=? e) eqn:He.
      - apply Z.leb_le in He.
        apply Z.mul_nonneg_nonneg; [lia | apply Z.pow_nonneg; lia].
      - apply Z.leb_gt in He. apply Z.div_pos; [lia|].
        apply Z.pow_pos_nonneg; lia. }
    intros _ E; injection E as <-. exact Hmag.
Qed.

Lemma percent_of_not_negative (base percent n : Z) :
  0 <= base -> 0 <= percent ->
  percent_of base percent = Return n -> 0 <= n.
Proof.
  intros Hb Hp. unfold percent_of, int_mul_float.
  destruct (int_truediv percent 100) as [q|e] eqn:Eq; simpl; [|discriminate].
  destruct (float_of_int base) as [fb|e] eqn:Eb; simpl; [|discriminate].
  apply int_of_float_not_negative.
  apply SFmul_not_negative.
  - exact (float_of_int_not_negative _ _ Hb Eb).
  - apply (int_truediv_not_negative percent 100 q Hp); [lia | exact Eq].
Qed.

Lemma resolver_not_negative (mk_error : str -> exn) (v : str) (base n : Z) :
  0 <= base ->
  match contains "%" v, re.fullmatch_percent v with
  | true, Some group1 => percent <- int group1 ;; percent_of base percent
  | _, _ => if isdigit v then int v else Raise (mk_error v)
  end = Return n ->
  0 <= n.
Proof.
  intros Hb.
  assert (Hfall : (if isdigit v then int v else Raise (mk_error v)) = Return n
                  -> 0 <= n).
  { destruct (isdigit v); [apply int_not_negative | discriminate]. }
  destruct (contains "%" v); [|exact Hfall].
  destruct (re.fullmatch_percent v) as [g|]; [|exact Hfall].
  destruct (int g) as [p|e] eqn:Eg; simpl; [|discriminate].
  apply percent_of_not_negative; [exact Hb|].
  exact (int_not_negative _ _ Eg).
Qed.

(** X4.  A resolved dimension is never negative: on an image whose
    height (for the padding) or width (for the wrap width) is not
    negative, whatever [parse_padding] and [parse_pixels_or_percent]
    return, as pixels or as a percentage rounded through floating
    point, is zero or more. *)
Theorem resolved_dimension_is_not_negative :
  forall (s : str) (base n : Z),
    0 <= base ->
    (parse_padding s base = Return n -> 0 <= n)
    /\ (parse_pixels_or_percent s base = Return n -> 0 <= n).
Proof.
  intros s base n Hb. split.
  - unfold parse_padding.
    apply (resolver_not_negative
             (fun v => ValueError (lit "Invalid padding value: " ++ v))).
    exact Hb.
  - unfold parse_pixels_or_percent.
    apply (resolver_not_negative
             (fun v => ValueError (lit "Invalid value: " ++ v))).
    exact Hb.
Qed.

Lemma resolved_dimension_is_not_negative_witness :
  parse_padding (lit "7%") 375 = Return 26 /\ 0 <= 26.
Proof.
  split; [reflexivity|].
  apply (proj1 (resolved_dimension_is_not_negative (lit "7%") 375 26
                  ltac:(lia))).
  reflexivity.
Defined.

(** ** Colours *)

Lemma digits_1_3_inv (p : str) :
  re.digits_1_3 p = true ->
  p <> [] /\ forallb isdecimal p = true /\ len p <= max_str_digits.
Proof.
  unfold re.digits_1_3. rewrite !andb_true_iff. intros [[Hd Hlo] Hhi].
  split; [|split; [exact Hd|]].
  - intros ->. discriminate Hlo.
  - apply Nat.leb_le in Hhi. unfold len, max_str_digits. lia.
Qed.

Lemma decimal_no_comma (t : str) :
  forallb isdecimal t = true -> contains "," t = false.
Proof.
  unfold contains.
  induction t as [|c t IH]; simpl; [reflexivity|].
  rewrite andb_true_iff; intros [Hc Ht].
  rewrite (IH Ht), orb_false_r.
  destruct (eqc "," c) eqn:E; [|reflexivity].
  apply eqc_eq in E; subst c; discriminate.
Qed.

Lemma decimal_value_not_negative (p : str) :
  forallb isdecimal p = true -> 0 <= decimal_value p.
Proof.
  intros Hp. apply (int_loop_not_negative p 0 _ (Z.le_refl 0)).
  now apply int_loop_value.
Qed.

Lemma in_byte_range_decimal (p : str) :
  forallb isdecimal p = true ->
  in_byte_range (decimal_value p) = (decimal_value p <=? 255).
Proof.
  intros Hp. unfold in_byte_range.
  pose proof (decimal_value_not_negative p Hp) as H0.
  apply Z.leb_le in H0. now rewrite H0.
Qed.

(** X5.  A colour written as three groups of one to three digits
    separated by commas is decided by the program alone, without asking
    Pillow: it is the triple of the three numbers (leading zeros
    allowed) when each is at most 255, and otherwise the [ValueError]
    [RGB values must be between 0 and 255]. *)
Theorem rgb_triple_is_range_checked :
  forall `{PIL} (r g b : str),
    re.digits_1_3 r = true ->
    re.digits_1_3 g = true ->
    re.digits_1_3 b = true ->
    parse_color (r ++ lit "," ++ g ++ lit "," ++ b)
    = if (decimal_value r <=? 255) && (decimal_value g <=? 255)
         && (decimal_value b <=? 255)
      then Return [decimal_value r; decimal_value g; decimal_value b]
      else Raise (ValueError (lit "RGB values must be between 0 and 255")).
Proof.
  intros P r g b Hr Hg Hb.
  destruct (digits_1_3_inv r Hr) as (Hrn & Hrd & Hrl).
  destruct (digits_1_3_inv g Hg) as (Hgn & Hgd & Hgl).
  destruct (digits_1_3_inv b Hb) as (Hbn & Hbd & Hbl).
  change (r ++ lit "," ++ g ++ lit "," ++ b)
    with (r ++ ","%char :: g ++ ","%char :: b).
  set (s := r ++ ","%char :: g ++ ","%char :: b).
  assert (Hstrip : strip s = s).
  { assert (Hend : ends_in_text s = true).
    { subst s.
      change (r ++ ","%char :: g ++ ","%char :: b)
        with (r ++ (","%char :: g) ++ ","%char :: b).
      rewrite app_assoc.
      change (","%char :: b) with ([","%char] ++ b). rewrite app_assoc.
      now apply ends_in_text_digits. }
    subst s. destruct r as [|d r]; [congruence|].
    apply strip_clean; [|exact Hend].
    apply decimal_not_space. simpl in Hrd.
    now apply andb_true_iff in Hrd as [Hd _]. }
  assert (Hsplit : split_on "," s = [r; g; b]).
  { subst s. rewrite !split_on_app.
    rewrite !split_on_free by now apply decimal_no_comma.
    reflexivity. }
  unfold parse_color. rewrite Hstrip.
  unfold re.fullmatch_rgb. rewrite Hsplit, Hr, Hg, Hb.
  cbn [andb for_each].
  rewrite (int_decimal r Hrn Hrd Hrl), (int_decimal g Hgn Hgd Hgl),
    (int_decimal b Hbn Hbd Hbl).
  cbn [bind forallb].
  rewrite (in_byte_range_decimal r Hrd), (in_byte_range_decimal g Hgd),
    (in_byte_range_decimal b Hbd), andb_true_r, andb_assoc.
  reflexivity.
Qed.

Lemma rgb_triple_is_range_checked_witness :
  @parse_color demo_pil (lit "255,007,0") = Return [255; 7; 0]
  /\ @parse_color demo_pil (lit "256,0,0")
     = Raise (ValueError (lit "RGB values must be between 0 and 255")).
Proof.
  split.
  - etransitivity;
      [exact (@rgb_triple_is_range_checked demo_pil (lit "255") (lit "007")
                (lit "0") eq_refl eq_refl eq_refl) | reflexivity].
  - etransitivity;
      [exact (@rgb_triple_is_range_checked demo_pil (lit "256") (lit "0")
                (lit "0") eq_refl eq_refl eq_refl) | reflexivity].
Defined.

Lemma hex_not_space (c : ascii) : ishex c = true -> isspace c = false.
Proof.
  unfold ishex, isspace, between. intros Hc.
  repeat (apply orb_false_iff; split);
    try (apply andb_false_iff; right; apply Z.leb_gt);
    try apply Z.eqb_neq;
    repeat (apply orb_true_iff in Hc as [Hc | Hc]);
    apply andb_true_iff in Hc as [H1 H2]; apply Z.leb_le in H1, H2; lia.
Qed.

Lemma hex_no_comma (t : str) :
  forallb ishex t = true -> contains "," t = false.
Proof.
  unfold contains.
  induction t as [|c t IH]; simpl; [reflexivity|].
  rewrite andb_true_iff; intros [Hc Ht].
  rewrite (IH Ht), orb_false_r.
  destruct (eqc "," c) eqn:E; [|reflexivity].
  apply eqc_eq in E; subst c; discriminate.
Qed.

Lemma ends_in_text_all (pre s : str) :
  s <> [] -> (forall c, In c s -> isspace c = false) ->
  ends_in_text (pre ++ s) = true.
Proof.
  intros Hne Hs.
  destruct (exists_last Hne) as (front & z & ->).
  rewrite app_assoc. apply ends_in_text_snoc.
  apply Hs. apply in_or_app. right. now left.
Qed.

Lemma fullmatch_rgb_no_comma (s : str) :
  contains "," s = false -> re.fullmatch_rgb s = false.
Proof.
  intros Hc. unfold re.fullmatch_rgb. now rewrite (split_on_free _ _ Hc).
Qed.

(** X6.  A colour of three or six hexadecimal digits may be written
    without its [#]: the program puts the [#] in front and asks Pillow,
    so [ffffff] is read as [#ffffff] is.  When Pillow does not know the
    colour, the message quotes the colour with the [#] the program
    added. *)
Theorem hex_colour_without_hash :
  forall `{PIL} (color_str : str),
    re.fullmatch_hex (strip color_str) = true ->
    parse_color color_str = parse_color (lit "#" ++ strip color_str)
    /\ parse_color color_str
       = match getrgb (lit "#" ++ strip color_str) with
         | Raise (ValueError _) =>
             Raise (ValueError (lit "Invalid color value: #"
                                ++ strip color_str))
         | r => r
         end.
Proof.
  intros P color_str Hhex.
  set (v := strip color_str) in *.
  pose proof Hhex as Hhex'. unfold re.fullmatch_hex in Hhex'.
  apply andb_true_iff in Hhex' as [Hall Hlen].
  assert (Hne : v <> []).
  { intros E. rewrite E in Hlen. discriminate Hlen. }
  assert (Hsp : forall c, In c v -> isspace c = false).
  { intros c Hc. apply hex_not_space.
    rewrite forallb_forall in Hall. now apply Hall. }
  assert (Hown : parse_color color_str
                 = match getrgb (lit "#" ++ v) with
                   | Raise (ValueError _) =>
                       Raise (ValueError (lit "Invalid color value: #" ++ v))
                   | r => r
                   end).
  { unfold parse_color. fold v.
    rewrite (fullmatch_rgb_no_comma v (hex_no_comma v Hall)), Hhex.
    reflexivity. }
  split; [|exact Hown].
  rewrite Hown. unfold parse_color.
  change (lit "#" ++ v) with ("#"%char :: v).
  assert (Hstrip : strip ("#"%char :: v) = "#"%char :: v).
  { apply strip_clean; [reflexivity|].
    apply (ends_in_text_all ["#"%char] v Hne Hsp). }
  rewrite Hstrip.
  rewrite (fullmatch_rgb_no_comma ("#"%char :: v))
    by (unfold contains; simpl existsb;
        change (existsb (eqc ",") v) with (contains "," v);
        rewrite (hex_no_comma v Hall); reflexivity).
  assert (Hnot : re.fullmatch_hex ("#"%char :: v) = false) by reflexivity.
  rewrite Hnot. reflexivity.
Qed.

Lemma hex_colour_without_hash_witness :
  @parse_color demo_pil (lit " 0a0B0c ")
  = @parse_color demo_pil (lit "#0a0B0c").
Proof.
  exact (proj1 (@hex_colour_without_hash demo_pil (lit " 0a0B0c ") eq_refl)).
Defined.

(** ** The greedy wrap, from the outside *)

Lemma split_loop_nil (cur s : str) :
  split_loop cur s = [] <-> cur = [] /\ forallb isspace s = true.
Proof.
  revert cur. induction s as [|c s IH]; intros cur; simpl.
  - destruct cur; split; try tauto; try discriminate.
    intros [E _]; discriminate E.
  - destruct (isspace c) eqn:E; simpl.
    + destruct cur as [|x cur].
      * apply IH.
      * split; [discriminate|]. intros [E' _]; discriminate E'.
    + rewrite IH. split; [|intros [_ E']; discriminate E'].
      intros [E' _]; discriminate E'.
Qed.

(** [split()] finds no word exactly in a text of whitespace. *)
Lemma split_nil (s : str) : split s = [] <-> forallb isspace s = true.
Proof. unfold split. rewrite split_loop_nil. tauto. Qed.

Lemma concat_nil_nonempty {A} (ls : list (list A)) :
  Forall (fun l => l <> []) ls -> concat ls = [] -> ls = [].
Proof.
  intros Hne Hcat. destruct ls as [|l ls]; [reflexivity|].
  inversion Hne as [|l0 ls0 Hl _]; subst.
  simpl in Hcat. apply app_eq_nil in Hcat as [-> _]. congruence.
Qed.

(** X7.  [wrap_text] only moves the whitespace: the words of its result
    are the words of the text, each once and in the same order, so texts
    with the same words are wrapped alike and wrapping the result again
    gives it back. *)
Theorem wrap_text_keeps_the_words :
  forall `{PIL} (draw : Image) (font : FreeTypeFont) (text : str)
         (max_width spacing : Z),
    split (wrap_text draw text font max_width spacing) = split text
    /\ wrap_text draw (wrap_text draw text font max_width spacing) font
         max_width spacing
       = wrap_text draw text font max_width spacing.
Proof.
  intros P draw font text max_width spacing.
  assert (Hsame : split (wrap_text draw text font max_width spacing)
                  = split text).
  { destruct (wrap_text_greedy draw font max_width spacing text)
      as (groups & Hg & ->).
    destruct (greedy_words _ _ _ _ _ _ _ Hg) as [Hcat Hne].
    simpl in Hcat. rewrite <- Hcat. apply split_lines; [exact Hne|].
    apply Forall_concat_inv. rewrite Hcat. apply split_words. }
  split; [exact Hsame|].
  unfold wrap_text at 1. rewrite Hsame. reflexivity.
Qed.

(** X8.  [wrap_text] returns the empty string exactly for a text
    without a word, that is, for the empty text and for a text of
    whitespace. *)
Theorem wrap_text_empty_iff_no_word :
  forall `{PIL} (draw : Image) (font : FreeTypeFont) (text : str)
         (max_width spacing : Z),
    wrap_text draw text font max_width spacing = []
    <-> forallb isspace text = true.
Proof.
  intros P draw font text max_width spacing.
  destruct (wrap_text_greedy draw font max_width spacing text)
    as (groups & Hg & ->).
  destruct (greedy_words _ _ _ _ _ _ _ Hg) as [Hcat Hne].
  simpl in Hcat. rewrite <- split_nil, <- Hcat. split.
  - intros Hout. destruct groups as [|g groups]; [reflexivity|]. exfalso.
    assert (Hw : Forall (Forall is_word) (g :: groups)).
    { apply Forall_concat_inv. rewrite Hcat. apply split_words. }
    inversion Hw as [|g0 gs0 Hgw _]; subst.
    destruct g as [|w g]; [inversion Hne; congruence|].
    inversion Hgw as [|w0 g0 [Hwne _] _]; subst.
    revert Hout. simpl map. apply join_cons_nonempty.
    apply join_cons_nonempty. exact Hwne.
  - intros Hnil. now rewrite (concat_nil_nonempty groups Hne Hnil).
Qed.

Lemma greedy_all_fit (fits : str -> bool) (current words : list str)
  (groups : list (list str)) :
  greedy fits current words groups ->
  (forall k, (0 < k)%nat ->
             fits (line_of (current ++ firstn k words)) = true) ->
  groups = match current ++ words with [] => [] | line => [line] end.
Proof.
  induction 1 as [|current Hne|word words groups _ IH
                  |current word words groups Hne Hfit _ IH
                  |current word words groups Hne Hfit _ IH]; intros Hall.
  - reflexivity.
  - rewrite app_nil_r. destruct current; [congruence | reflexivity].
  - apply IH. intros k Hk. apply (Hall (S k)). lia.
  - rewrite IH.
    + rewrite <- app_assoc. reflexivity.
    + intros k Hk. rewrite <- app_assoc. apply (Hall (S k)). lia.
  - specialize (Hall 1%nat ltac:(lia)). simpl firstn in Hall.
    rewrite Hall in Hfit. discriminate Hfit.
Qed.

(** X9.  When the words of the text fit on one line, [wrap_text] puts
    them on one line: if every candidate line the loop measures, the
    first [k] words joined by single spaces, is within the wrap width,
    the result is all the words joined by single spaces, without a line
    break. *)
Theorem wrap_text_one_line_when_all_fits :
  forall `{PIL} (draw : Image) (font : FreeTypeFont) (text : str)
         (max_width spacing : Z),
    (forall k, (0 < k)%nat ->
       fits draw font max_width spacing (line_of (firstn k (split text)))
       = true) ->
    wrap_text draw text font max_width spacing = line_of (split text).
Proof.
  intros P draw font text max_width spacing Hall.
  destruct (wrap_text_greedy draw font max_width spacing text)
    as (groups & Hg & ->).
  rewrite (greedy_all_fit _ _ _ _ Hg Hall). simpl app.
  destruct (split text); reflexivity.
Qed.

Lemma wrap_text_one_line_when_all_fits_witness :
  @wrap_text demo_pil (400, 300) (lit "  aa bb" ++ [LF] ++ lit "cc ") 16 80 4
  = lit "aa bb cc".
Proof.
  apply (@wrap_text_one_line_when_all_fits demo_pil (400, 300) 16
           (lit "  aa bb" ++ [LF] ++ lit "cc ") 80 4).
  intros k Hk. destruct k as [|k]; [lia|].
  do 3 (destruct k as [|k]; [reflexivity|]). reflexivity.
Defined.

Lemma greedy_none_fit (fits : str -> bool) (current words : list str)
  (groups : list (list str)) :
  greedy fits current words groups ->
  (length current <= 1)%nat ->
  (forall a b, In a (current ++ words) -> In b (current ++ words) ->
               fits (line_of [a; b]) = false) ->
  groups = map (fun word => [word]) (current ++ words).
Proof.
  induction 1 as [|current Hne|word words groups _ IH
                  |current word words groups Hne Hfit _ IH
                  |current word words groups Hne Hfit _ IH];
    intros Hlen Hnone.
  - reflexivity.
  - destruct current as [|a [|b current]]; [congruence | reflexivity|].
    simpl in Hlen. lia.
  - apply IH; [simpl; lia | exact Hnone].
  - exfalso.
    destruct current as [|a [|b current]]; [congruence| |simpl in Hlen; lia].
    simpl app in Hfit.
    rewrite (Hnone a word) in Hfit; [discriminate Hfit| |].
    + now left.
    + right. now left.
  - destruct current as [|a [|b current]]; [congruence| |simpl in Hlen; lia].
    simpl. f_equal. apply IH; [simpl; lia|].
    intros x y Hx Hy. apply Hnone; now right.
Qed.

(** X10.  When no two words of the text fit on a line together,
    [wrap_text] puts every word on a line of its own, whole: a word is
    never broken, however wide it is. *)
Theorem wrap_text_one_word_per_line :
  forall `{PIL} (draw : Image) (font : FreeTypeFont) (text : str)
         (max_width spacing : Z),
    (forall a b, In a (split text) -> In b (split text) ->
       fits draw font max_width spacing (line_of [a; b]) = false) ->
    wrap_text draw text font max_width spacing = join [LF] (split text).
Proof.
  intros P draw font text max_width spacing Hnone.
  destruct (wrap_text_greedy draw font max_width spacing text)
    as (groups & Hg & ->).
  rewrite (greedy_none_fit _ _ _ _ Hg (Nat.le_0_l 1) Hnone).
  simpl app. rewrite map_map. f_equal. apply map_id.
Qed.

Lemma wrap_text_one_word_per_line_witness :
  @wrap_text demo_pil (400, 300) (lit "wide  words here") 16 20 4
  = join [LF] [lit "wide"; lit "words"; lit "here"].
Proof.
  apply (@wrap_text_one_word_per_line demo_pil (400, 300) 16
           (lit "wide  words here") 20 4).
  intros a b Ha Hb.
  destruct Ha as [<- | [<- | [<- | []]]];
    destruct Hb as [<- | [<- | [<- | []]]]; reflexivity.
Defined.

(** ** What the wrap step keeps of the caption *)

Lemma ink_app (a b : str) : ink (a ++ b) = ink a ++ ink b.
Proof. apply filter_app. Qed.

Lemma ink_space (s : str) : forallb isspace s = true -> ink s = [].
Proof.
  induction s as [|c s IH]; simpl; [reflexivity|].
  rewrite andb_true_iff. intros [-> Hs]. simpl. now apply IH.
Qed.

Lemma ink_cons_space (c : ascii) (s : str) :
  isspace c = true -> ink (c :: s) = ink s.
Proof. intros Hc. unfold ink. simpl. now rewrite Hc. Qed.

Lemma ink_cons_text (c : ascii) (s : str) :
  isspace c = false -> ink (c :: s) = c :: ink s.
Proof. intros Hc. unfold ink. simpl. now rewrite Hc. Qed.

Lemma ink_join (parts : list str) :
  ink (join [LF] parts) = ink (concat parts).
Proof.
  induction parts as [|p parts IH]; [reflexivity|].
  destruct parts as [|q parts].
  - simpl. now rewrite app_nil_r.
  - change (join [LF] (p :: q :: parts))
      with (p ++ LF :: join [LF] (q :: parts)).
    change (concat (p :: q :: parts)) with (p ++ concat (q :: parts)).
    rewrite !ink_app, ink_cons_space by reflexivity. now rewrite IH.
Qed.

Lemma carved_ink (text : str) (lines : list str) :
  carved text lines -> ink text = ink (concat lines).
Proof.
  induction 1 as [gap Hg | gap line rest lines Hg _ IH].
  - now apply ink_space.
  - simpl concat. rewrite !ink_app, (ink_space gap Hg), IH. reflexivity.
Qed.

Lemma ink_spaces (n : nat) : ink (repeat SP n) = [].
Proof. induction n as [|n IH]; [reflexivity | exact IH]. Qed.

Lemma expandtabs_ink (s : str) (col : Z) :
  ink (expandtabs_loop 8 col s) = ink s.
Proof.
  revert col. induction s as [|c s IH]; intros col; [reflexivity|].
  rewrite expandtabs_step.
  destruct (eqc c TAB) eqn:E.
  - apply eqc_eq in E; subst c.
    rewrite ink_app, ink_spaces, IH. reflexivity.
  - destruct (isspace c) eqn:Hc.
    + rewrite !ink_cons_space by exact Hc. apply IH.
    + rewrite !ink_cons_text by exact Hc. now rewrite IH.
Qed.

Lemma munge_ink (s : str) : ink (textwrap.munge_whitespace s) = ink s.
Proof.
  unfold textwrap.munge_whitespace, expandtabs.
  rewrite <- (expandtabs_ink s 0).
  induction (expandtabs_loop 8 0 s) as [|c t IH]; [reflexivity|].
  cbn [map].
  destruct (textwrap.whitespace c) eqn:Hw.
  - rewrite (ink_cons_space c) by now apply space_of_textwrap.
    rewrite ink_cons_space by reflexivity. exact IH.
  - destruct (isspace c) eqn:Hc.
    + rewrite !ink_cons_space by exact Hc. exact IH.
    + rewrite !ink_cons_text by exact Hc. now rewrite IH.
Qed.

Lemma wrapped_block_ink (width : Z) (paragraph block : str) :
  wrapped_block width paragraph block -> ink block = ink paragraph.
Proof.
  intros [[Hs ->] | (Hs & lines & _ & -> & Hc & _)].
  - symmetry. apply ink_space.
    destruct (forallb isspace paragraph) eqn:E; [reflexivity|].
    apply strip_not_nil in E. congruence.
  - rewrite ink_join, <- (carved_ink _ _ Hc).
    rewrite (proj1 (split_chunks_text paragraph)). apply munge_ink.
Qed.

(** X11.  The wrap step of the pipeline only changes whitespace: when it
    returns, the characters of the result that are not whitespace are
    those of the caption (its escaped line breaks made real), each once
    and in the same order.  No character of a word is dropped, added or
    moved, also where a long word is broken. *)
Theorem wrap_step_keeps_the_text :
  forall `{PIL} (draw : Image) (font : FreeTypeFont) (text out : str)
         (max_width : Z),
    wrap_for_multiline draw text font max_width = Return out ->
    ink out = ink (replace2 "\" "n" LF text)
    /\ (no_escape text = true -> ink out = ink text).
Proof.
  intros P draw font text out max_width Hout.
  assert (Hink : ink out = ink (replace2 "\" "n" LF text)).
  { destruct (wrap_for_multiline_inv draw font text out max_width Hout)
      as (blocks & -> & Hall).
    rewrite <- (join_split_on LF (replace2 "\" "n" LF text)).
    fold (paragraphs text). rewrite !ink_join. clear Hout.
    induction Hall as [|p b ps bs Hb _ IH]; [reflexivity|].
    simpl concat. rewrite !ink_app, IH, (wrapped_block_ink _ _ _ Hb).
    reflexivity. }
  split; [exact Hink|].
  intros Hesc. rewrite Hink.
  unfold no_escape in Hesc. now rewrite (replace2_no_pair _ _ LF _ Hesc).
Qed.

Lemma wrap_step_keeps_the_text_witness :
  ink (lit "An extrao" ++ [LF] ++ lit "rdinarily" ++ [LF] ++ lit "long word")
  = lit "Anextraordinarilylongword".
Proof.
  etransitivity;
    [exact (proj2 (@wrap_step_keeps_the_text demo_pil (400, 300) 16
                     (lit "An extraordinarily" ++ [TAB] ++ lit "long word ")
                     (lit "An extrao" ++ [LF] ++ lit "rdinarily" ++ [LF]
                      ++ lit "long word")
                     45 ltac:(vm_compute; reflexivity)) eq_refl)
    | reflexivity].
Defined.

(** ** When the wrap step fails *)

Lemma blank_or_text (ps : list str) :
  Forall (fun p => strip p = []) ps \/ Exists (fun p => strip p <> []) ps.
Proof.
  induction ps as [|p ps [IH | IH]].
  - left. constructor.
  - destruct (strip p) eqn:E.
    + left. now constructor.
    + right. apply Exists_cons_hd. rewrite E. discriminate.
  - right. now apply Exists_cons_tl.
Qed.

Lemma blank_paragraphs_pass (width : Z) (ps : list str) :
  Forall (fun p => strip p = []) ps ->
  for_each (fun paragraph =>
              if is_empty (strip paragraph) then Return []
              else textwrap.fill paragraph width) ps
  = Return (map (fun _ => []) ps).
Proof.
  induction 1 as [|p ps Hp _ IH]; [reflexivity|].
  cbn [for_each map]. rewrite Hp, IH. reflexivity.
Qed.

Lemma text_paragraph_raises (width : Z) (ps : list str) :
  width <= 0 ->
  Exists (fun p => strip p <> []) ps ->
  for_each (fun paragraph =>
              if is_empty (strip paragraph) then Return []
              else textwrap.fill paragraph width) ps
  = Raise (invalid_width width).
Proof.
  intros Hw. induction ps as [|p ps IH]; intros Hex.
  - inversion Hex.
  - cbn [for_each].
    destruct (strip p) as [|c t] eqn:E.
    + cbn [is_empty bind]. rewrite IH; [reflexivity|].
      inversion Hex as [p0 ps0 Hp | p0 ps0 Hps]; subst;
        [congruence | exact Hps].
    + cbn [is_empty]. rewrite (wrap_invalid_width p width Hw). reflexivity.
Qed.

(** X12.  The wrap step fails on exactly one kind of input: a wrap width
    below five pixels together with a caption that has text.  It returns
    when the wrap width is five pixels or more, whatever the caption,
    and when no paragraph of the caption has text, whatever the wrap
    width (then every block is empty); in the remaining case it raises
    the [ValueError] of [textwrap], [invalid width N (must be > 0)],
    where [N] is the wrap width divided by five. *)
Theorem wrap_step_fails_only_when_narrow :
  forall `{PIL} (draw : Image) (font : FreeTypeFont) (text : str)
         (max_width : Z),
    ((exists out, wrap_for_multiline draw text font max_width = Return out)
     /\ (5 <= max_width
         \/ Forall (fun p => strip p = []) (paragraphs text)))
    \/ (wrap_for_multiline draw text font max_width
        = Raise (invalid_width (max_width / 5))
        /\ max_width < 5
        /\ Exists (fun p => strip p <> []) (paragraphs text)).
Proof.
  intros P draw font text max_width.
  destruct (Z_le_gt_dec 5 max_width) as [Hw | Hw].
  - left. split; [|now left].
    destruct (wrap_for_multiline_blocks draw font text max_width Hw)
      as (blocks & Hout & _).
    eauto.
  - assert (Hw5 : max_width / 5 <= 0).
    { apply Z.lt_succ_r. apply Z.div_lt_upper_bound; lia. }
    destruct (blank_or_text (paragraphs text)) as [Hblank | Htext].
    + left. split; [|now right].
      unfold wrap_for_multiline. fold (paragraphs text).
      rewrite (blank_paragraphs_pass _ _ Hblank). simpl. eauto.
    + right. split; [|split; [lia | exact Htext]].
      unfold wrap_for_multiline. fold (paragraphs text).
      rewrite (text_paragraph_raises _ _ Hw5 Htext). reflexivity.
Qed.

(** ** Captions the wrap step leaves alone *)

(** A settled line is the block the wrap step makes of it. *)
Lemma settled_line_stable (width : Z) (line : str) :
  settled_line width line ->
  (if is_empty (strip line) then Return []
   else textwrap.fill line width) = Return line.
Proof.
  intros [-> | (Hp & Hl & He)]; [reflexivity|].
  destruct line as [|c line]; [reflexivity|].
  pose proof (ends_in_text_not_blank (c :: line) ltac:(discriminate) He)
    as Hs.
  destruct (strip (c :: line)) eqn:Es; [congruence|]. simpl is_empty.
  cbv iota. apply fill_stable; auto. discriminate.
Qed.

(** X13.  A caption that is laid out already comes back unchanged: when
    the caption has no escaped line break and each of its lines is
    empty, or is made of plain characters (no tab or other control
    whitespace), has at most [max_width // 5] characters and does not
    end in whitespace, the wrap step returns the caption itself. *)
Theorem settled_caption_is_unchanged :
  forall `{PIL} (draw : Image) (font : FreeTypeFont) (text : str)
         (max_width : Z),
    no_escape text = true ->
    Forall (settled_line (max_width / 5)) (split_on LF text) ->
    wrap_for_multiline draw text font max_width = Return text.
Proof.
  intros P draw font text max_width Hesc Hall.
  unfold wrap_for_multiline. unfold no_escape in Hesc.
  rewrite (replace2_no_pair _ _ LF _ Hesc).
  rewrite for_each_same.
  - simpl. now rewrite join_split_on.
  - intros line Hin. apply settled_line_stable.
    rewrite Forall_forall in Hall. now apply Hall.
Qed.

Lemma settled_caption_is_unchanged_witness :
  @wrap_for_multiline demo_pil (400, 300)
    (lit "Hello  world," ++ [LF; LF] ++ lit " goodbye") 16 65
  = Return (lit "Hello  world," ++ [LF; LF] ++ lit " goodbye").
Proof.
  apply (@settled_caption_is_unchanged demo_pil (400, 300) 16
           (lit "Hello  world," ++ [LF; LF] ++ lit " goodbye") 65).
  - reflexivity.
  - apply Forall_forall. intros line Hin.
    destruct Hin as [<- | [<- | [<- | []]]].
    + right. split; [reflexivity|].
      split; [vm_compute; discriminate | reflexivity].
    + now left.
    + right. split; [reflexivity|].
      split; [vm_compute; discriminate | reflexivity].
Defined.

(** ** Control whitespace *)

Lemma in_join_inv (parts : list str) (c : ascii) :
  In c (join [LF] parts) -> c = LF \/ exists l, In l parts /\ In c l.
Proof.
  induction parts as [|p parts IH]; [intros []|].
  destruct parts as [|q parts].
  - intros Hc. right. exists p. split; [now left | exact Hc].
  - change (join [LF] (p :: q :: parts))
      with (p ++ LF :: join [LF] (q :: parts)).
    intros Hc. apply in_app_or in Hc as [Hc | [Hc | Hc]].
    + right. exists p. split; [now left | exact Hc].
    + left. now symmetry.
    + destruct (IH Hc) as [-> | (l & Hl & Hcl)]; [now left|].
      right. exists l. split; [now right | exact Hcl].
Qed.

(** The lines of a wrapped caption are made of plain characters. *)
Lemma wrap_for_multiline_plain `{PIL} (draw : Image) (font : FreeTypeFont)
  (text out : str) (max_width : Z) :
  wrap_for_multiline draw text font max_width = Return out ->
  Forall (fun line => forallb plain line = true) (split_on LF out).
Proof.
  intros Hout.
  unfold wrap_for_multiline in Hout. fold (paragraphs text) in Hout.
  set (f := fun paragraph =>
              if is_empty (strip paragraph) then Return []
              else textwrap.fill paragraph (max_width / 5)) in *.
  destruct (for_each f (paragraphs text)) as [blocks|e] eqn:Hfe;
    [|discriminate].
  simpl in Hout. injection Hout as <-.
  apply for_each_inv in Hfe.
  assert (Hpar : Forall (fun p => no_escape p = true) (paragraphs text)).
  { apply no_escape_split_on, replace2_no_escape. }
  assert (Hne : blocks <> []).
  { eapply Forall2_nonempty; [exact Hfe|]. apply split_on_nonempty. }
  rewrite split_on_join by exact Hne. apply Forall_flat_map.
  clear Hne. induction Hfe as [|p b ps bs Hb _ IH]; [constructor|].
  inversion Hpar as [|p0 ps0 Hp Hps]; subst.
  constructor; [|now apply IH].
  unfold f in Hb. destruct (is_empty (strip p)).
  - injection Hb as <-. repeat constructor.
  - destruct (fill_lines p b _ Hb Hp) as (_ & _ & Hl).
    eapply Forall_impl; [|exact Hl]. simpl. tauto.
Qed.

(** X14.  No tab, carriage return, vertical tab or form feed is left in
    the wrapped caption: of the whitespace characters that [textwrap]
    knows, the result of the wrap step holds only spaces and line
    feeds. *)
Theorem wrap_step_leaves_no_control_whitespace :
  forall `{PIL} (draw : Image) (font : FreeTypeFont) (text out : str)
         (max_width : Z) (c : ascii),
    wrap_for_multiline draw text font max_width = Return out ->
    In c out ->
    textwrap.whitespace c = true ->
    c = SP \/ c = LF.
Proof.
  intros P draw font text out max_width c Hout Hc Hw.
  pose proof (wrap_for_multiline_plain draw font text out max_width Hout)
    as Hplain.
  rewrite <- (join_split_on LF out) in Hc.
  destruct (in_join_inv _ _ Hc) as [-> | (line & Hline & Hcl)];
    [now right|].
  left. rewrite Forall_forall in Hplain. specialize (Hplain line Hline).
  rewrite forallb_forall in Hplain. specialize (Hplain c Hcl).
  unfold plain in Hplain. rewrite Hw in Hplain. simpl in Hplain.
  now apply eqc_eq in Hplain.
Qed.

Lemma wrap_step_leaves_no_control_whitespace_witness :
  @wrap_for_multiline demo_pil (400, 300)
    (lit "one" ++ [TAB] ++ lit "two" ++ [CR] ++ lit "three") 16 100
  = Return (lit "one     two three")
  /\ (SP = SP \/ SP = LF).
Proof.
  split; [vm_compute; reflexivity|].
  apply (@wrap_step_leaves_no_control_whitespace demo_pil (400, 300) 16
           (lit "one" ++ [TAB] ++ lit "two" ++ [CR] ++ lit "three")
           (lit "one     two three") 100 SP).
  - vm_compute. reflexivity.
  - do 3 right. now left.
  - reflexivity.
Defined.

(** ** Font files *)

Lemma eqs_refl (s : str) : eqs s s = true.
Proof.
  induction s as [|c s IH]; [reflexivity|].
  simpl. now rewrite eqc_refl, IH.
Qed.

Lemma endswith_app (s suffix : str) : endswith (s ++ suffix) suffix = true.
Proof.
  unfold endswith. rewrite length_app.
  replace (length s + length suffix - length suffix)%nat with (length s)
    by lia.
  rewrite skipn_app, skipn_all, Nat.sub_diag. simpl skipn.
  rewrite eqs_refl. simpl. apply Nat.leb_le. lia.
Qed.

(** X15.  The extension [.ttf] of a font name is optional: a name
    without it loads what the name with [.ttf] appended loads, the font
    of that file or, failing that, the default font. *)
Theorem font_extension_is_optional :
  forall `{PIL} (font_path : str) (font_size : Z),
    endswith font_path (lit ".ttf") = false ->
    load_font font_path font_size
    = load_font (font_path ++ lit ".ttf") font_size.
Proof.
  intros P font_path font_size Hext. unfold load_font.
  rewrite Hext, endswith_app. reflexivity.
Qed.

Lemma font_extension_is_optional_witness :
  @load_font demo_pil (lit "arial") 16
  = @load_font demo_pil (lit "arial.ttf") 16.
Proof.
  exact (@font_extension_is_optional demo_pil (lit "arial") 16 eq_refl).
Defined.

(** ** Failures of a run *)

(** X16.  The wrap width is checked late, after the padding, the
    colours and the font.  When those are in order, a wrap width the
    resolver rejects ends the run as a usage error with the resolver's
    message, and so does a wrap width below five pixels on a caption
    that has text, with the message [invalid width N (must be > 0)] of
    [textwrap]: status 2, nothing written and nothing printed on the
    output stream. *)
Theorem wrap_width_errors_are_usage_errors :
  forall `{PIL} (args : Args) (w : World) (img : Image) (pad : Z)
         (bg fg : color) (font : FreeTypeFont),
    Image_open (arg_input args) = Return img ->
    parse_padding (arg_padding args) (snd (Image_size img)) = Return pad ->
    parse_color (arg_bg_color args) = Return bg ->
    parse_color (arg_text_color args) = Return fg ->
    load_font (arg_font args) (arg_font_size args) = Return font ->
    let width := parse_pixels_or_percent (arg_wrap_width args)
                   (fst (Image_size img)) in
    (forall msg, width = Raise (ValueError msg) ->
                 main args w = parser_error msg w)
    /\ (forall max_width,
          width = Return max_width ->
          max_width < 5 ->
          Exists (fun p => strip p <> []) (paragraphs (arg_comment args)) ->
          main args w
          = (2, mkWorld (files w) (stdout w)
                  (stderr w
                   ++ [lit "error: invalid width "
                       ++ textwrap.repr_int (max_width / 5)
                       ++ lit " (must be > 0)"]))).
Proof.
  intros P args w img pad bg fg font Hopen Hpad Hbg Hfg Hfont width.
  subst width. destruct (Image_size img) as [iw ih] eqn:Hsize.
  simpl fst in *. simpl snd in *. split.
  - intros msg Hmsg.
    unfold main, process_image, io_bind, pure.
    rewrite Hopen, Hsize, Hpad, Hbg, Hfg, Hfont, Hmsg. reflexivity.
  - intros max_width Hmw Hnarrow Htext.
    unfold main, process_image, io_bind, pure.
    rewrite Hopen, Hsize, Hpad, Hbg, Hfg, Hfont, Hmw.
    assert (Hw5 : max_width / 5 <= 0).
    { apply Z.lt_succ_r. apply Z.div_lt_upper_bound; lia. }
    unfold wrap_for_multiline. fold (paragraphs (arg_comment args)).
    rewrite (text_paragraph_raises _ _ Hw5 Htext). reflexivity.
Qed.

Lemma wrap_width_errors_are_usage_errors_witness :
  @main demo_pil
    (mkArgs (lit "in.png") (lit "out.png") (lit "Hello world") (lit "200")
       (lit "black") (lit "white") (lit "arial") 16 (lit "left") (lit "top")
       (lit "1%"))
    demo_world
  = (2, mkWorld [] [] [lit "error: invalid width 0 (must be > 0)"]).
Proof.
  apply (proj2
           (@wrap_width_errors_are_usage_errors demo_pil
              (mkArgs (lit "in.png") (lit "out.png") (lit "Hello world")
                 (lit "200") (lit "black") (lit "white") (lit "arial") 16
                 (lit "left") (lit "top") (lit "1%"))
              demo_world (demo_image 400 300) 200 [0; 0; 0] [255; 255; 255]
              16 eq_refl eq_refl eq_refl eq_refl eq_refl) 4).
  - reflexivity.
  - lia.
  - apply Exists_cons_hd. vm_compute. discriminate.
Defined.

(** X17.  The input image is opened before any argument is looked at,
    and [main] catches [ValueError] only: when the image cannot be
    opened, the run ends with the uncaught error of the open, status 1
    and a traceback, whatever the other arguments are, also invalid
    ones; nothing is written. *)
Theorem unreadable_image_is_not_a_usage_error :
  forall `{PIL} (args : Args) (w : World) (msg : str),
    Image_open (arg_input args) = Raise (IOError msg) ->
    main args w
    = (1, mkWorld (files w) (stdout w) (stderr w ++ [lit "Traceback"])).
Proof.
  intros P args w msg Hopen.
  unfold main, process_image, io_bind, pure. rewrite Hopen. reflexivity.
Qed.

Lemma unreadable_image_is_not_a_usage_error_witness :
  @main demo_pil
    (mkArgs (lit "missing.png") (lit "out.png") (lit "Hello") (lit "abc")
       (lit "no colour") (lit "white") (lit "arial") 16 (lit "left")
       (lit "top") (lit "x"))
    demo_world
  = (1, mkWorld [] [] [lit "Traceback"]).
Proof.
  apply (@unreadable_image_is_not_a_usage_error demo_pil
           (mkArgs (lit "missing.png") (lit "out.png") (lit "Hello")
              (lit "abc") (lit "no colour") (lit "white") (lit "arial") 16
              (lit "left") (lit "top") (lit "x"))
           demo_world (lit "No such file or directory")).
  reflexivity.
Defined.

(** ** A run that succeeds *)

(** X19.  A caption that is laid out already is drawn as it was typed.
    When the image opens, the arguments are valid and the caption is
    settled at the resolved wrap width (no escaped line break; every
    line empty, or plain, within [max_width // 5] characters and not
    ending in whitespace), the image the run saves is the caption
    itself, drawn in the text colour at the alignment origin of its
    bounding box, on a canvas of the width of the image and of its
    height plus the padding, filled with the background colour under
    the pasted image.  When the save succeeds the run exits with
    status 0, having written that one file and printed the
    confirmation; when the save raises, nothing is written or printed
    and the run ends as a usage error for a [ValueError] (status 2) and
    with the uncaught error otherwise (status 1). *)
Theorem settled_caption_is_drawn_as_typed :
  forall `{PIL} (args : Args) (w : World) (img : Image)
         (width height pad max_width : Z) (bg fg : color)
         (font : FreeTypeFont),
    Image_open (arg_input args) = Return img ->
    Image_size img = (width, height) ->
    parse_padding (arg_padding args) height = Return pad ->
    parse_color (arg_bg_color args) = Return bg ->
    parse_color (arg_text_color args) = Return fg ->
    load_font (arg_font args) (arg_font_size args) = Return font ->
    parse_pixels_or_percent (arg_wrap_width args) width = Return max_width ->
    no_escape (arg_comment args) = true ->
    Forall (settled_line (max_width / 5)) (split_on LF (arg_comment args)) ->
    let canvas := Image_paste (Image_new (width, height + pad) bg) img (0, 0) in
    let bbox :=
      multiline_textbbox canvas (0, 0) (arg_comment args) font 4
        (arg_align args) in
    let drawn :=
      multiline_text canvas
        (origin_x (arg_align args) width (box_width bbox),
         origin_y (arg_valign args) height pad (box_height bbox))
        (arg_comment args) fg font 4 (arg_align args) in
    main args w
    = match Image_save drawn (arg_output args) with
      | None =>
          (0, mkWorld (files w ++ [(arg_output args, drawn)])
                (stdout w ++ [lit "[+] Saved output image to: "
                              ++ arg_output args])
                (stderr w))
      | Some (ValueError msg) =>
          (2, mkWorld (files w) (stdout w)
                (stderr w ++ [lit "error: " ++ msg]))
      | Some _ =>
          (1, mkWorld (files w) (stdout w) (stderr w ++ [lit "Traceback"]))
      end.
Proof.
  intros P args w img width height pad max_width bg fg font
    Hopen Hsize Hpad Hbg Hfg Hfont Hmw Hesc Hall canvas bbox drawn.
  assert (Hwrap : wrap_for_multiline canvas (arg_comment args) font max_width
                  = Return (arg_comment args)).
  { unfold wrap_for_multiline. unfold no_escape in Hesc.
    rewrite (replace2_no_pair _ _ LF _ Hesc).
    rewrite for_each_same.
    - simpl. now rewrite join_split_on.
    - intros line Hin. apply settled_line_stable.
      rewrite Forall_forall in Hall. now apply Hall. }
  destruct (Image_save drawn (arg_output args)) as [e|] eqn:Hsave.
  - unfold main, process_image, io_bind, pure.
    rewrite Hopen, Hsize, Hpad, Hbg, Hfg, Hfont, Hmw.
    fold canvas. rewrite Hwrap. fold bbox. fold drawn.
    unfold save. rewrite Hsave. destruct e; reflexivity.
  - unfold main.
    rewrite (process_image_draws_at_origin (arg_input args) (arg_output args)
               (arg_comment args) (arg_padding args) (arg_bg_color args)
               (arg_text_color args) (arg_font args) (arg_font_size args)
               (arg_align args) (arg_valign args) (arg_wrap_width args) w
               img width height pad max_width bg fg font (arg_comment args)
               Hopen Hsize Hpad Hbg Hfg Hfont Hmw Hwrap Hsave).
    reflexivity.
Qed.

Lemma settled_caption_is_drawn_as_typed_witness :
  @main demo_pil
    (default_args (lit "in.png") (lit "out.png")
       (lit "Hello world" ++ [LF; LF] ++ lit "bye"))
    demo_world
  = (0, mkWorld [(lit "out.png", demo_image 400 500)]
          [lit "[+] Saved output image to: out.png"] []).
Proof.
  apply (@settled_caption_is_drawn_as_typed demo_pil
           (default_args (lit "in.png") (lit "out.png")
              (lit "Hello world" ++ [LF; LF] ++ lit "bye"))
           demo_world (demo_image 400 300) 400 300 200 360
           [0; 0; 0] [255; 255; 255] 16
           eq_refl eq_refl eq_refl eq_refl eq_refl eq_refl eq_refl eq_refl).
  apply Forall_forall. intros line Hin.
  destruct Hin as [<- | [<- | [<- | []]]].
  - right. split; [reflexivity|].
    split; [vm_compute; discriminate | reflexivity].
  - now left.
  - right. split; [reflexivity|].
    split; [vm_compute; discriminate | reflexivity].
Defined.
